(** * unstructured-text-masher: mash detection and merge

    A shallow embedding of [lib/unstructured-text-masher.js].

    JavaScript strings are sequences of UTF-16 code units.  The model takes
    the code units from the Latin-1 range (U+0000 .. U+00FF), one [ascii]
    per code unit, so a string is a [list ascii]; [indexOf], [substring],
    [replace] and the regular expression of the source work on code units
    and are embedded as such.  The digest is SHA-1 over the UTF-8 encoding
    of the string, as [crypto.createHash('sha1').update(text)] computes it,
    rendered as 40 lowercase hexadecimal characters. *)

From Stdlib Require Import String Ascii List NArith Arith Bool Lia.
Import ListNotations.

Set Implicit Arguments.

(** ** Strings *)

Definition text := list ascii.

Definition T (s : string) : text := list_ascii_of_string s.
Arguments T s%_string.

Definition text_eqb (a b : text) : bool :=
  if list_eq_dec ascii_dec a b then true else false.

(** ** SHA-1 ([crypto.createHash('sha1')]) *)

Module Sha1.

Local Open Scope N_scope.

Definition mask32 : N := 0xFFFFFFFF.

Definition add32 (a b : N) : N := N.land (a + b) mask32.

Definition rotl32 (n x : N) : N :=
  N.land (N.lor (N.shiftl x n) (N.shiftr x (32 - n))) mask32.

Definition not32 (x : N) : N := N.lxor x mask32.

(** UTF-8 encoding of a code unit below U+0100. *)
Definition utf8_unit (c : ascii) : list N :=
  let n := N_of_ascii c in
  if n <? 128 then [n]
  else [N.lor 0xC0 (N.shiftr n 6); N.lor 0x80 (N.land n 0x3F)].

Definition utf8 (s : text) : list N := flat_map utf8_unit s.

(** Big-endian bytes of [n], [k] of them. *)
Fixpoint be_bytes (k : nat) (n : N) : list N :=
  match k with
  | O => []
  | S k' => N.land (N.shiftr n (8 * N.of_nat k')) 0xFF :: be_bytes k' n
  end.

Definition pad (msg : list N) : list N :=
  let len := length msg in
  let zeros := ((64 - (len + 9) mod 64) mod 64)%nat in
  msg ++ [0x80] ++ repeat 0 zeros ++ be_bytes 8 (8 * N.of_nat len).

Fixpoint be_word (bs : list N) (acc : N) : N :=
  match bs with
  | [] => acc
  | b :: bs' => be_word bs' (N.lor (N.shiftl acc 8) b)
  end.

(** The 32-bit big-endian words of a byte sequence, four bytes each. *)
Fixpoint words (fuel : nat) (bs : list N) : list N :=
  match fuel, bs with
  | S f, _ :: _ => be_word (firstn 4 bs) 0 :: words f (skipn 4 bs)
  | _, _ => []
  end.

(** Message schedule, kept newest first: [rw] holds W[t-1], W[t-2], ... *)
Fixpoint schedule (n : nat) (rw : list N) : list N :=
  match n with
  | O => rw
  | S n' =>
      let w := rotl32 1 (N.lxor (N.lxor (nth 2 rw 0) (nth 7 rw 0))
                                (N.lxor (nth 13 rw 0) (nth 15 rw 0))) in
      schedule n' (w :: rw)
  end.

Record state := St { ha : N; hb : N; hc : N; hd : N; he : N }.

Definition init : state :=
  St 0x67452301 0xEFCDAB89 0x98BADCFE 0x10325476 0xC3D2E1F0.

Definition f_k (t : nat) (b c d : N) : N * N :=
  if (t <? 20)%nat then
    (N.lor (N.land b c) (N.land (not32 b) d), 0x5A827999)
  else if (t <? 40)%nat then
    (N.lxor (N.lxor b c) d, 0x6ED9EBA1)
  else if (t <? 60)%nat then
    (N.lor (N.lor (N.land b c) (N.land b d)) (N.land c d), 0x8F1BBCDC)
  else
    (N.lxor (N.lxor b c) d, 0xCA62C1D6).

Fixpoint rounds (t : nat) (ws : list N) (s : state) : state :=
  match ws with
  | [] => s
  | w :: ws' =>
      let '(f, k) := f_k t (hb s) (hc s) (hd s) in
      let temp := add32 (add32 (add32 (add32 (rotl32 5 (ha s)) f) (he s)) k) w in
      rounds (S t) ws' (St temp (ha s) (rotl32 30 (hb s)) (hc s) (hd s))
  end.

Definition compress (s : state) (block : list N) : state :=
  let w := rev (schedule 64 (rev (words 16 block))) in
  let r := rounds 0 w s in
  St (add32 (ha s) (ha r)) (add32 (hb s) (hb r)) (add32 (hc s) (hc r))
     (add32 (hd s) (hd r)) (add32 (he s) (he r)).

Fixpoint blocks (fuel : nat) (bs : list N) (s : state) : state :=
  match fuel, bs with
  | S f, _ :: _ => blocks f (skipn 64 bs) (compress s (firstn 64 bs))
  | _, _ => s
  end.

Definition digest (msg : list N) : state :=
  let p := pad msg in blocks (length p) p init.

(** [digest('hex')]: lowercase hexadecimal. *)
Definition hex_digit (n : N) : ascii :=
  nth (N.to_nat (N.land n 0xF)) (list_ascii_of_string "0123456789abcdef") "0"%char.

Fixpoint hex_word (k : nat) (w : N) : text :=
  match k with
  | O => []
  | S k' => hex_digit (N.shiftr w (4 * N.of_nat k')) :: hex_word k' w
  end.

Definition hex (s : state) : text :=
  hex_word 8 (ha s) ++ hex_word 8 (hb s) ++ hex_word 8 (hc s) ++
  hex_word 8 (hd s) ++ hex_word 8 (he s).

End Sha1.

Definition FINGERPRINT_VALUE_IN_HEX_LENGTH : nat := 40.
Definition FINGERPRINT_PLACEHOLDER : text := T "%fingerprint%".

(** [_fingerprint(text)] *)
Definition _fingerprint (t : text) : text :=
  Sha1.hex (Sha1.digest (Sha1.utf8 t)).

Arguments _fingerprint t : simpl never.

(** ** JavaScript string primitives *)

Section Seq.

Variable A : Type.
Variable A_eqb : A -> A -> bool.

(** [p] is a prefix of [s]. *)
Fixpoint prefixb (p s : list A) : bool :=
  match p, s with
  | [], _ => true
  | _ :: _, [] => false
  | x :: p', y :: s' => A_eqb x y && prefixb p' s'
  end.

(** Leftmost occurrence of [pat] in [s]; [i] is the offset of [s] in the
    whole string. *)
Fixpoint indexOf_aux (pat s : list A) (i : nat) : option nat :=
  if prefixb pat s then Some i
  else match s with
       | [] => None
       | _ :: s' => indexOf_aux pat s' (S i)
       end.

(** [s.indexOf(pat, from)]; [None] is the source's [-1].  The start
    position is clamped to the length, so an empty [pat] is found at
    [min from (length s)]. *)
Definition indexOf (s pat : list A) (from : nat) : option nat :=
  let k := Nat.min from (length s) in
  indexOf_aux pat (skipn k s) k.

(** [s.substring(a, b)]: both ends clamped to the length and swapped when
    [a > b]. *)
Definition substring (s : list A) (a b : nat) : list A :=
  let a' := Nat.min a (length s) in
  let b' := Nat.min b (length s) in
  firstn (Nat.max a' b' - Nat.min a' b') (skipn (Nat.min a' b') s).

(** [s.substring(a)] *)
Definition substringFrom (s : list A) (a : nat) : list A :=
  substring s a (length s).

(** [s.replace(pat, repl)] with a string pattern: the first occurrence
    only.  The replacements of the source (a hexadecimal digest, the
    capture group) hold no [$], so no replacement pattern applies. *)
Definition replace (s pat repl : list A) : list A :=
  match indexOf s pat 0 with
  | None => s
  | Some i => firstn i s ++ repl ++ skipn (i + length pat) s
  end.

End Seq.

(** ** The end-tag regular expression *)

(** A pattern atom: an escaped literal code unit, or the capture group
    [([0-9a-fA-F]{n})]. *)
Inductive atom : Type :=
  | Lit (c : ascii)
  | HexGroup (n : nat).

Definition regexp := list atom.

Definition atom_eqb (x y : atom) : bool :=
  match x, y with
  | Lit c, Lit d => Ascii.eqb c d
  | HexGroup n, HexGroup m => Nat.eqb n m
  | _, _ => false
  end.

(** [escapeStringRegexp(s)]: every code unit becomes a pattern matching
    that code unit literally. *)
Definition escapeStringRegexp (s : text) : regexp := map Lit s.

(** [[0-9a-fA-F]] *)
Definition isHexDigit (c : ascii) : bool :=
  let n := nat_of_ascii c in
  ((48 <=? n) && (n <=? 57)) || ((97 <=? n) && (n <=? 102)) ||
  ((65 <=? n) && (n <=? 70)).

Definition endTagRegExp (endTag : text) : regexp :=
  replace atom_eqb (escapeStringRegexp endTag)
          (escapeStringRegexp FINGERPRINT_PLACEHOLDER)
          [HexGroup FINGERPRINT_VALUE_IN_HEX_LENGTH].

(** The match of [re] anchored at the head of [s]: the matched text
    ([match[0]]) and the capture ([match[1]], [None] for [undefined]). *)
Fixpoint match_here (re : regexp) (s : text) : option (text * option text) :=
  match re with
  | [] => Some ([], None)
  | Lit c :: re' =>
      match s with
      | d :: s' =>
          if Ascii.eqb c d then
            match match_here re' s' with
            | Some (m, g) => Some (d :: m, g)
            | None => None
            end
          else None
      | [] => None
      end
  | HexGroup n :: re' =>
      let h := firstn n s in
      if Nat.eqb (length h) n && forallb isHexDigit h then
        match match_here re' (skipn n s) with
        | Some (m, _) => Some (h ++ m, Some h)
        | None => None
        end
      else None
  end.

Record regmatch := RegMatch {
  m_index : nat;             (* match.index *)
  m_0 : text;                (* match[0] *)
  m_1 : option text          (* match[1] *)
}.

Fixpoint exec_from (re : regexp) (s : text) (i : nat) : option regmatch :=
  match match_here re s with
  | Some (m, g) => Some (RegMatch i m g)
  | None =>
      match s with
      | [] => None
      | _ :: s' => exec_from re s' (S i)
      end
  end.

(** [re.exec(s)] for a pattern without the [g] flag: the leftmost match. *)
Definition exec (re : regexp) (s : text) : option regmatch := exec_from re s 0.

(** ** Mash state and mash info *)

Inductive MashState : Type :=
  | Unmashed
  | BeginTagMissing
  | EndTagMissing
  | SourceTextTampered
  | FingerprintInvalid
  | Mashed.

Definition MashState_eqb (a b : MashState) : bool :=
  match a, b with
  | Unmashed, Unmashed | BeginTagMissing, BeginTagMissing
  | EndTagMissing, EndTagMissing | SourceTextTampered, SourceTextTampered
  | FingerprintInvalid, FingerprintInvalid | Mashed, Mashed => true
  | _, _ => false
  end.

Record BeginTagOccurrence := BeginOcc {
  b_index : nat;
  b_endIndex : nat
}.

Record EndTagOccurrence := EndOcc {
  e_index : nat;
  e_endIndex : nat;
  e_fingerprint : option text
}.

(** Absent fields are [None] ([undefined] in the source). *)
Record MashInfo := Info {
  state : MashState;
  beginTagIndex : option nat;
  endOfBeginTagIndex : option nat;
  endTagIndex : option nat;
  endOfEndTagIndex : option nat
}.

Definition createInfo (st : MashState) (b : option BeginTagOccurrence)
    (e : option EndTagOccurrence) : MashInfo :=
  Info st (option_map b_index b) (option_map b_endIndex b)
          (option_map e_index e) (option_map e_endIndex e).

(** The outcome of running a piece of the source with a bound on the
    number of loop iterations. *)
Inductive run (A : Type) : Type :=
  | Ret (a : A)          (* returned [a] *)
  | AssertFail           (* an [assert] threw *)
  | OutOfFuel.           (* still looping when the bound was reached *)

Arguments Ret {A} a.
Arguments AssertFail {A}.
Arguments OutOfFuel {A}.

(** ** [_getMashInfo] *)

Section GetMashInfo.

Variable destinationText : text.
Variable beginTag : text.
Variable sourceText : option text.     (* [None]: [undefined] *)
Variable endTag : text.

(** One step of [beginTagOccurrenceIterator] resumed at [index]: the next
    occurrence, after which the generator resumes at its [b_endIndex]. *)
Definition beginTagNext (index : nat) : option BeginTagOccurrence :=
  match indexOf Ascii.eqb destinationText beginTag index with
  | Some i => Some (BeginOcc i (i + length beginTag))
  | None => None
  end.

(** One step of [endTagOccurrenceIterator] resumed at [index]: the next
    occurrence, after which the generator resumes at its [e_endIndex]. *)
Definition endTagNext (index : nat) : option EndTagOccurrence :=
  match exec (endTagRegExp endTag) (substringFrom destinationText index) with
  | Some m =>
      let endTagIndex := index + m_index m in
      let endTagEndIndex := endTagIndex + length (m_0 m) in
      Some (EndOcc endTagIndex endTagEndIndex (m_1 m))
  | None => None
  end.

Definition potentialSourceText (b : BeginTagOccurrence) (e : EndTagOccurrence)
    : text :=
  substring destinationText (b_endIndex b) (e_index e).

Definition sourceTextTampered (b : BeginTagOccurrence) (e : EndTagOccurrence)
    : bool :=
  match sourceText with
  | Some s => negb (text_eqb s (potentialSourceText b e))
  | None => false
  end.

Definition fingerprintInvalid (b : BeginTagOccurrence) (e : EndTagOccurrence)
    : bool :=
  match e_fingerprint e with
  | Some f => negb (text_eqb f (_fingerprint (potentialSourceText b e)))
  | None => true
  end.

(** How a loop is left: by the early [return], or by running out of
    occurrences with the variables the loops assign. *)
Inductive loopExit : Type :=
  | Found (info : MashInfo)
  | Exhausted (firstBeginTagOccurrence : option BeginTagOccurrence)
              (firstEndTagOccurrence : option EndTagOccurrence)
              (firstInvalidState : MashState).

(** The inner [for ... of endTagOccurrenceIterator(...)], resumed at [index].
    [fuel] bounds the number of iterations. *)
Fixpoint endLoop (fuel : nat) (b : BeginTagOccurrence) (index : nat)
    (firstBegin : option BeginTagOccurrence)
    (firstEnd : option EndTagOccurrence) (firstInvalid : MashState)
    : run loopExit :=
  match fuel with
  | O => OutOfFuel
  | S fuel' =>
      match endTagNext index with
      | None => Ret (Exhausted firstBegin firstEnd firstInvalid)
      | Some e =>
          let firstEnd' :=
            match firstEnd with None => Some e | Some _ => firstEnd end in
          let tampered := sourceTextTampered b e in
          let invalid := fingerprintInvalid b e in
          let firstInvalid' :=
            match firstInvalid with
            | Unmashed =>
                if tampered then SourceTextTampered
                else if invalid then FingerprintInvalid
                else firstInvalid
            | _ => firstInvalid
            end in
          if negb tampered && negb invalid then
            Ret (Found (createInfo Mashed (Some b) (Some e)))
          else
            endLoop fuel' b (e_endIndex e) firstBegin firstEnd' firstInvalid'
      end
  end.

(** The outer [for ... of beginTagOccurrenceIterator()], resumed at [index].
    [fuel] bounds the number of iterations, and each run of the inner loop
    gets the bound that is left. *)
Fixpoint beginLoop (fuel : nat) (index : nat)
    (firstBegin : option BeginTagOccurrence)
    (firstEnd : option EndTagOccurrence) (firstInvalid : MashState)
    : run loopExit :=
  match fuel with
  | O => OutOfFuel
  | S fuel' =>
      match beginTagNext index with
      | None => Ret (Exhausted firstBegin firstEnd firstInvalid)
      | Some b =>
          let firstBegin' :=
            match firstBegin with None => Some b | Some _ => firstBegin end in
          match endLoop fuel b (b_endIndex b) firstBegin' firstEnd firstInvalid with
          | Ret (Exhausted fb fe fi) =>
              beginLoop fuel' (b_index b + length beginTag) fb fe fi
          | r => r
          end
      end
  end.

Definition _getMashInfo (fuel : nat) : run MashInfo :=
  match beginLoop fuel 0 None None Unmashed with
  | Ret (Found info) => Ret info
  | Ret (Exhausted None (Some _) _) => AssertFail   (* assert(!firstEndTagOccurrence) *)
  | Ret (Exhausted None None _) =>
      (* for (... of endTagOccurrenceIterator(0)) { ...; break; } *)
      match endTagNext 0 with
      | None => Ret (createInfo Unmashed None None)
      | Some e => Ret (createInfo BeginTagMissing None (Some e))
      end
  | Ret (Exhausted (Some b) None _) =>
      Ret (createInfo EndTagMissing (Some b) None)
  | Ret (Exhausted (Some b) (Some e) firstInvalidState) =>
      Ret (createInfo firstInvalidState (Some b) (Some e))
  | AssertFail => AssertFail
  | OutOfFuel => OutOfFuel
  end.

End GetMashInfo.

(** ** [mash] and [textIsMashed] *)

(** [s.substring(0, i)] and [s.substring(i)] with [i] possibly [undefined]:
    an undefined end is the length, an undefined start is 0. *)
Definition substring_to (s : text) (i : option nat) : text :=
  match i with
  | Some n => substring s 0 n
  | None => substring s 0 (length s)
  end.

Definition substring_from (s : text) (i : option nat) : text :=
  match i with
  | Some n => substringFrom s n
  | None => substringFrom s 0
  end.

Definition _insertText (destinationText : text) (insertionIndex : option nat)
    (beginTag sourceText endTag : text) : text :=
  substring_to destinationText insertionIndex ++
  beginTag ++
  sourceText ++
  replace Ascii.eqb endTag FINGERPRINT_PLACEHOLDER (_fingerprint sourceText) ++
  substring_from destinationText insertionIndex.

Definition _appendText (destinationText beginTag sourceText endTag : text)
    : text :=
  _insertText destinationText (Some (length destinationText))
              beginTag sourceText endTag.

Definition mash (fuel : nat) (destinationText beginTag sourceText endTag : text)
    : run text :=
  match _getMashInfo destinationText beginTag None endTag fuel with
  | Ret mashInfo =>
      match state mashInfo with
      | Unmashed =>
          Ret (_appendText destinationText beginTag sourceText endTag)
      | BeginTagMissing =>
          Ret (_insertText destinationText (endOfEndTagIndex mashInfo)
                           beginTag sourceText endTag)
      | EndTagMissing | FingerprintInvalid =>
          Ret (_insertText destinationText (beginTagIndex mashInfo)
                           beginTag sourceText endTag)
      | SourceTextTampered => AssertFail                    (* assert(false) *)
      | Mashed =>
          (* the three asserts after the switch hold here: the state is
             Mashed, and an index is a number or undefined, never -1 *)
          let unsycnedDestinationText :=
            substring_to destinationText (beginTagIndex mashInfo) ++
            substring_from destinationText (endOfEndTagIndex mashInfo) in
          Ret (_insertText unsycnedDestinationText (beginTagIndex mashInfo)
                           beginTag sourceText endTag)
      end
  | AssertFail => AssertFail
  | OutOfFuel => OutOfFuel
  end.

Definition textIsMashed (fuel : nat)
    (destinationText beginTag sourceText endTag : text) : run bool :=
  match _getMashInfo destinationText beginTag (Some sourceText) endTag fuel with
  | Ret info => Ret (MashState_eqb (state info) Mashed)
  | AssertFail => AssertFail
  | OutOfFuel => OutOfFuel
  end.

(** ** Notions the statements are written in *)

(** [pat] occurs in [s] at offset [i]. *)
Definition occurs_at (pat s : text) (i : nat) : Prop :=
  i + length pat <= length s /\ firstn (length pat) (skipn i s) = pat.

(** The pattern [re] matches in [s] at offset [i]. *)
Definition matches_at (re : regexp) (s : text) (i : nat) : Prop :=
  i <= length s /\ match_here re (skipn i s) <> None.

(** Number of code units every match of [re] spans. *)
Fixpoint regexp_length (re : regexp) : nat :=
  match re with
  | [] => 0
  | Lit _ :: re' => S (regexp_length re')
  | HexGroup n :: re' => n + regexp_length re'
  end.

(** The end tag written after [sourceText]: the template with the
    placeholder replaced by the digest. *)
Definition materializedEndTag (endTag sourceText : text) : text :=
  replace Ascii.eqb endTag FINGERPRINT_PLACEHOLDER (_fingerprint sourceText).

(** The block [mash] writes. *)
Definition mashBlock (beginTag sourceText endTag : text) : text :=
  beginTag ++ sourceText ++ materializedEndTag endTag sourceText.

(** [0-9a-f] *)
Definition isLowerHexDigit (c : ascii) : bool :=
  let n := nat_of_ascii c in
  ((48 <=? n) && (n <=? 57)) || ((97 <=? n) && (n <=? 102)).

(** [s.toUpperCase()] on the characters of a digest. *)
Definition upperHexDigit (c : ascii) : ascii :=
  let n := nat_of_ascii c in
  if (97 <=? n) && (n <=? 102) then ascii_of_nat (n - 32) else c.

Definition toUpperHex (s : text) : text := map upperHexDigit s.

(** The end tag for [sourceText] with the digest in upper case. *)
Definition upperEndTag (endTag sourceText : text) : text :=
  replace Ascii.eqb endTag FINGERPRINT_PLACEHOLDER
          (toUpperHex (_fingerprint sourceText)).

(** The occurrences the two generators yield, the first [fuel] of them. *)
Fixpoint beginTagOccurrences (fuel : nat) (doc beginTag : text) (index : nat)
    : list BeginTagOccurrence :=
  match fuel with
  | O => []
  | S fuel' =>
      match beginTagNext doc beginTag index with
      | None => []
      | Some b => b :: beginTagOccurrences fuel' doc beginTag (b_endIndex b)
      end
  end.

Fixpoint endTagOccurrences (fuel : nat) (doc endTag : text) (index : nat)
    : list EndTagOccurrence :=
  match fuel with
  | O => []
  | S fuel' =>
      match endTagNext doc endTag index with
      | None => []
      | Some e => e :: endTagOccurrences fuel' doc endTag (e_endIndex e)
      end
  end.

(** The (begin, end) pairs in the order the nested scan visits them:
    begin occurrences left to right, and for each the end occurrences
    after it, left to right. *)
Definition pairsFrom (doc beginTag endTag : text) (index : nat)
    : list (BeginTagOccurrence * EndTagOccurrence) :=
  flat_map
    (fun b => map (pair b)
                  (endTagOccurrences (S (length doc)) doc endTag (b_endIndex b)))
    (beginTagOccurrences (S (length doc)) doc beginTag index).

Definition candidatePairs (doc beginTag endTag : text)
    : list (BeginTagOccurrence * EndTagOccurrence) :=
  pairsFrom doc beginTag endTag 0.

(** A pair passes both validations. *)
Definition passes (doc : text) (expected : option text)
    (p : BeginTagOccurrence * EndTagOccurrence) : bool :=
  negb (sourceTextTampered doc expected (fst p) (snd p)) &&
  negb (fingerprintInvalid doc (fst p) (snd p)).

Definition firstValidPair (doc beginTag : text) (expected : option text)
    (endTag : text) : option (BeginTagOccurrence * EndTagOccurrence) :=
  find (passes doc expected) (candidatePairs doc beginTag endTag).

(** The state recorded for a pair that fails a validation. *)
Definition invalidStateOf (doc : text) (expected : option text)
    (p : BeginTagOccurrence * EndTagOccurrence) : MashState :=
  if sourceTextTampered doc expected (fst p) (snd p) then SourceTextTampered
  else if fingerprintInvalid doc (fst p) (snd p) then FingerprintInvalid
  else Unmashed.

(** ** The scan, stated over the pairs *)

(** [firstEndTagOccurrence] after a loop over [occs] that started with [fe]. *)
Definition firstEndOf (fe : option EndTagOccurrence)
    (occs : list EndTagOccurrence) : option EndTagOccurrence :=
  match fe with
  | Some _ => fe
  | None => hd_error occs
  end.

(** [firstInvalidState] after a loop over the failing [pairs] that started
    with [fi]. *)
Definition firstInvalidOf (doc : text) (expected : option text)
    (fi : MashState) (pairs : list (BeginTagOccurrence * EndTagOccurrence))
    : MashState :=
  match fi, pairs with
  | Unmashed, p :: _ => invalidStateOf doc expected p
  | _, _ => fi
  end.

(** What the scan returns, read off the occurrences: the first pair that
    passes both validations, else the first begin tag, the first end tag
    and the state of the first pair. *)
Definition locateSpec (doc beginTag : text) (expected : option text)
    (endTag : text) : MashInfo :=
  match firstValidPair doc beginTag expected endTag with
  | Some (b, e) => createInfo Mashed (Some b) (Some e)
  | None =>
      match beginTagOccurrences (S (length doc)) doc beginTag 0 with
      | [] =>
          match endTagNext doc endTag 0 with
          | None => createInfo Unmashed None None
          | Some e => createInfo BeginTagMissing None (Some e)
          end
      | b :: _ =>
          match candidatePairs doc beginTag endTag with
          | [] => createInfo EndTagMissing (Some b) None
          | p :: _ =>
              createInfo (invalidStateOf doc expected p) (Some b) (Some (snd p))
          end
      end
  end.

(** Where [mash] writes: the new block replaces [[i, j)] of the document. *)
Definition spliceSpan (info : MashInfo) (doc : text) : nat * nat :=
  let get (o : option nat) := match o with Some n => n | None => 0 end in
  match state info with
  | Unmashed => (length doc, length doc)
  | BeginTagMissing =>
      (get (endOfEndTagIndex info), get (endOfEndTagIndex info))
  | EndTagMissing | FingerprintInvalid | SourceTextTampered =>
      (get (beginTagIndex info), get (beginTagIndex info))
  | Mashed => (get (beginTagIndex info), get (endOfEndTagIndex info))
  end.

(** The end-tag template holds the placeholder. *)
Definition hasPlaceholder (endTag : text) : Prop :=
  exists q, occurs_at FINGERPRINT_PLACEHOLDER endTag q.

(** ** Where a written block can be found again *)

(** No occurrence of the begin tag starts before offset [i] and ends after
    it. *)
Definition beginClear (doc beginTag : text) (i : nat) : Prop :=
  forall q, q < i -> occurs_at beginTag doc q -> q + length beginTag <= i.

(** No match of the end-tag pattern starts in [[lo, hi)] and ends after
    [hi]. *)
Definition endClear (doc endTag : text) (lo hi : nat) : Prop :=
  forall q, lo <= q -> q < hi -> matches_at (endTagRegExp endTag) doc q ->
            q + regexp_length (endTagRegExp endTag) <= hi.

(** No occurrence of the begin tag starts before offset [i]. *)
Definition beginAbsent (doc beginTag : text) (i : nat) : Prop :=
  forall q, q < i -> ~ occurs_at beginTag doc q.

(** No match of the end-tag pattern starts in [[lo, hi)]. *)
Definition endAbsent (doc endTag : text) (lo hi : nat) : Prop :=
  forall q, lo <= q -> q < hi -> ~ matches_at (endTagRegExp endTag) doc q.

(** The begin tag does not overlap itself: no proper suffix of it is a
    prefix of it. *)
Definition unbordered (beginTag : text) : Prop :=
  forall d, 0 < d -> d < length beginTag ->
            skipn d beginTag <> firstn (length beginTag - d) beginTag.

(** ** Loop postconditions *)

(** How [firstInvalidState] may change: it is assigned once, when it still
    is [Unmashed]. *)
Definition stateStep (expected : option text) (fi fi' : MashState) : Prop :=
  fi' = fi \/
  (fi = Unmashed /\
   ((fi' = SourceTextTampered /\ expected <> None) \/ fi' = FingerprintInvalid)).

Definition endLoopPost (doc : text) (expected : option text)
    (b : BeginTagOccurrence) (index : nat)
    (fb : option BeginTagOccurrence) (fe : option EndTagOccurrence)
    (fi : MashState) (r : loopExit) : Prop :=
  match r with
  | Found info =>
      exists e, info = createInfo Mashed (Some b) (Some e) /\
                index <= e_index e /\ e_index e <= e_endIndex e /\
                e_endIndex e <= length doc /\
                passes doc expected (b, e) = true
  | Exhausted fb' fe' fi' =>
      fb' = fb /\ stateStep expected fi fi' /\
      (forall x, fe = Some x -> fe' = Some x) /\
      (fe = None -> forall e, fe' = Some e -> e_endIndex e <= length doc)
  end.

Definition beginLoopPost (doc beginTag : text) (expected : option text)
    (index : nat)
    (fb : option BeginTagOccurrence) (fe : option EndTagOccurrence)
    (fi : MashState) (r : loopExit) : Prop :=
  match r with
  | Found info =>
      exists b e, info = createInfo Mashed (Some b) (Some e) /\
                  index <= b_index b /\
                  occurs_at beginTag doc (b_index b) /\
                  b_endIndex b = b_index b + length beginTag /\
                  b_endIndex b <= e_index e /\ e_index e <= e_endIndex e /\
                  e_endIndex e <= length doc /\
                  passes doc expected (b, e) = true
  | Exhausted fb' fe' fi' =>
      fb' = match fb with
            | Some _ => fb
            | None => beginTagNext doc beginTag index
            end /\
      stateStep expected fi fi' /\
      (forall x, fe = Some x -> fe' = Some x) /\
      (fe = None -> forall e, fe' = Some e -> e_endIndex e <= length doc) /\
      (beginTagNext doc beginTag index = None -> fe' = fe /\ fi' = fi)
  end.

(** The ways [_getMashInfo] returns. *)
Inductive locateCase (doc beginTag : text) (expected : option text)
    (endTag : text) : MashInfo -> Prop :=
  | case_Mashed b e :
      occurs_at beginTag doc (b_index b) ->
      b_endIndex b = b_index b + length beginTag ->
      b_endIndex b <= e_index e -> e_index e <= e_endIndex e ->
      e_endIndex e <= length doc ->
      passes doc expected (b, e) = true ->
      locateCase doc beginTag expected endTag
                 (createInfo Mashed (Some b) (Some e))
  | case_Unmashed :
      beginTagNext doc beginTag 0 = None ->
      endTagNext doc endTag 0 = None ->
      locateCase doc beginTag expected endTag (createInfo Unmashed None None)
  | case_BeginTagMissing e :
      beginTagNext doc beginTag 0 = None ->
      endTagNext doc endTag 0 = Some e ->
      locateCase doc beginTag expected endTag
                 (createInfo BeginTagMissing None (Some e))
  | case_EndTagMissing b :
      beginTagNext doc beginTag 0 = Some b ->
      locateCase doc beginTag expected endTag
                 (createInfo EndTagMissing (Some b) None)
  | case_Invalid b e fi :
      beginTagNext doc beginTag 0 = Some b ->
      e_endIndex e <= length doc ->
      stateStep expected Unmashed fi ->
      locateCase doc beginTag expected endTag
                 (createInfo fi (Some b) (Some e)).

(** * Properties *)

Unset Implicit Arguments.

Lemma text_eqb_eq (a b : text) : text_eqb a b = true <-> a = b.
Proof.
  unfold text_eqb. destruct (list_eq_dec ascii_dec a b); split; congruence.
Qed.

Lemma text_eqb_refl (a : text) : text_eqb a a = true.
Proof. now apply text_eqb_eq. Qed.

Lemma text_eqb_neq (a b : text) : text_eqb a b = false <-> a <> b.
Proof.
  unfold text_eqb. destruct (list_eq_dec ascii_dec a b); split; congruence.
Qed.

Example fingerprint_abc :
  _fingerprint (T "abc") = T "a9993e364706816aba3e25717850c26c9cd0d89d".
Proof. vm_compute. reflexivity. Qed.

Example fingerprint_readme :
  _fingerprint (T "Some generated text which may change in the future.")
  = T "104f1998a99b8f46f037cf1200d03622b337e5fd".
Proof. vm_compute. reflexivity. Qed.

Example fingerprint_two_blocks :
  _fingerprint (T "abcdbcdecdefdefgefghfghighijhijkijkljklmklmnlmnomnopnopq")
  = T "84983e441c3bd26ebaae4aa1f95129e5e54670f1".
Proof. vm_compute. reflexivity. Qed.

(** The README's session. *)
Example readme_mash :
  mash 30 (T "Unstructured text.") (T "<begin>")
       (T "Some generated text which may change in the future.")
       (T "<end (%fingerprint%)>")
  = Ret (T "Unstructured text.<begin>Some generated text which may change in the future.<end (104f1998a99b8f46f037cf1200d03622b337e5fd)>").
Proof. vm_compute. reflexivity. Qed.

Example readme_update :
  mash 200 (T "Inserted unstructured text. Unstructured text.<begin>Updated generated text.<end (6d7dffe0035f820feac7c71ca35eac0357f69670)>")
       (T "<begin>") (T "Updated generated text number 2.")
       (T "<end (%fingerprint%)>")
  = Ret (T "Inserted unstructured text. Unstructured text.<begin>Updated generated text number 2.<end (5678d14cbdc1417992dfe18feabf0d6afc3a1f5f)>").
Proof. vm_compute. reflexivity. Qed.

(** ** Facts about the string primitives *)

Section SeqFacts.

Variable A : Type.
Variable A_eqb : A -> A -> bool.
Hypothesis A_eqb_spec : forall x y, A_eqb x y = true <-> x = y.

Lemma prefixb_app (p s : list A) :
  prefixb A_eqb p s = true <-> exists r, s = p ++ r.
Proof.
  revert s. induction p as [|x p IH]; intros s; simpl.
  - split; eauto.
  - destruct s as [|y s].
    + split; [discriminate | intros [r Hr]; discriminate].
    + rewrite andb_true_iff, A_eqb_spec, IH. split.
      * intros [-> [r ->]]. now exists r.
      * intros [r Hr]. injection Hr as -> ->. eauto.
Qed.

Lemma prefixb_firstn (p s : list A) :
  prefixb A_eqb p s = true <-> firstn (length p) s = p.
Proof.
  rewrite prefixb_app. split.
  - intros [r ->]. rewrite firstn_app, Nat.sub_diag, firstn_all. simpl.
    now rewrite app_nil_r.
  - intros H. exists (skipn (length p) s).
    rewrite <- H at 1. symmetry. apply firstn_skipn.
Qed.

Lemma substring_0 (s : list A) (n : nat) : substring s 0 n = firstn n s.
Proof.
  unfold substring. rewrite Nat.min_0_l, Nat.min_0_l, Nat.max_0_l, Nat.sub_0_r.
  simpl. destruct (Nat.le_ge_cases n (length s)) as [H|H].
  - now rewrite Nat.min_l.
  - rewrite Nat.min_r by assumption.
    now rewrite firstn_all, firstn_all2.
Qed.

Lemma substringFrom_skipn (s : list A) (n : nat) : substringFrom s n = skipn n s.
Proof.
  unfold substringFrom, substring. rewrite Nat.min_id.
  destruct (Nat.le_ge_cases n (length s)) as [H|H].
  - rewrite (Nat.min_l n) by assumption.
    rewrite Nat.min_l, Nat.max_r by assumption.
    apply firstn_all2. rewrite length_skipn. lia.
  - rewrite (Nat.min_r n) by assumption.
    rewrite Nat.min_id, Nat.max_id, Nat.sub_diag. simpl.
    symmetry. now apply skipn_all2.
Qed.

Lemma substring_le (s : list A) (a b : nat) :
  a <= b -> b <= length s -> substring s a b = firstn (b - a) (skipn a s).
Proof.
  intros Hab Hb. unfold substring.
  rewrite (Nat.min_l a), (Nat.min_l b) by lia.
  now rewrite Nat.min_l, Nat.max_r by lia.
Qed.

Lemma indexOf_aux_Some (pat s : list A) (i j : nat) :
  indexOf_aux A_eqb pat s i = Some j ->
  exists k, j = i + k /\ k <= length s /\
            prefixb A_eqb pat (skipn k s) = true /\
            forall k', k' < k -> prefixb A_eqb pat (skipn k' s) = false.
Proof.
  revert i. induction s as [|x s IH]; intros i; simpl.
  - destruct (prefixb A_eqb pat []) eqn:Hp; [|discriminate].
    intros [= <-]. exists 0. repeat split; try lia. exact Hp.
  - destruct (prefixb A_eqb pat (x :: s)) eqn:Hp.
    + intros [= <-]. exists 0. repeat split; try lia. exact Hp.
    + intros H. apply IH in H as (k & -> & Hk & Hpk & Hmin).
      exists (S k). repeat split; try lia. exact Hpk.
      intros [|k'] Hlt; simpl; [exact Hp | apply Hmin; lia].
Qed.

Lemma indexOf_aux_None (pat s : list A) (i : nat) :
  indexOf_aux A_eqb pat s i = None ->
  forall k, k <= length s -> prefixb A_eqb pat (skipn k s) = false.
Proof.
  revert i. induction s as [|x s IH]; intros i; simpl.
  - destruct (prefixb A_eqb pat []) eqn:Hp; [discriminate|].
    intros _ k Hk. replace k with 0 by lia. exact Hp.
  - destruct (prefixb A_eqb pat (x :: s)) eqn:Hp; [discriminate|].
    intros H [|k] Hk; simpl; [exact Hp|]. apply (IH _ H). lia.
Qed.

Lemma indexOf_Some (s pat : list A) (from j : nat) :
  indexOf A_eqb s pat from = Some j ->
  Nat.min from (length s) <= j /\ j <= length s /\
  prefixb A_eqb pat (skipn j s) = true /\
  forall q, Nat.min from (length s) <= q -> q < j ->
            prefixb A_eqb pat (skipn q s) = false.
Proof.
  unfold indexOf. set (f := Nat.min from (length s)).
  assert (Hf : f <= length s) by apply Nat.le_min_r.
  intros H. apply indexOf_aux_Some in H as (k & -> & Hk & Hp & Hmin).
  rewrite length_skipn in Hk. rewrite skipn_skipn in Hp.
  repeat split; try lia.
  - now rewrite Nat.add_comm.
  - intros q Hq1 Hq2. specialize (Hmin (q - f)).
    rewrite skipn_skipn in Hmin. replace (q - f + f) with q in Hmin by lia.
    apply Hmin. lia.
Qed.

Lemma indexOf_None (s pat : list A) (from : nat) :
  indexOf A_eqb s pat from = None ->
  forall q, Nat.min from (length s) <= q -> q <= length s ->
            prefixb A_eqb pat (skipn q s) = false.
Proof.
  unfold indexOf. set (f := Nat.min from (length s)).
  intros H q Hq1 Hq2.
  pose proof (indexOf_aux_None _ _ _ H (q - f)) as Hn.
  rewrite skipn_skipn, length_skipn in Hn.
  replace (q - f + f) with q in Hn by lia. apply Hn. lia.
Qed.

(** The first occurrence, when the text before it holds none. *)
Lemma indexOf_first (s pat : list A) (from j : nat) :
  from <= j -> j <= length s ->
  prefixb A_eqb pat (skipn j s) = true ->
  (forall q, from <= q -> q < j -> prefixb A_eqb pat (skipn q s) = false) ->
  indexOf A_eqb s pat from = Some j.
Proof.
  intros Hfj Hj Hp Hmin.
  destruct (indexOf A_eqb s pat from) as [i|] eqn:Hi.
  - apply indexOf_Some in Hi as (Hi1 & Hi2 & Hi3 & Hi4).
    rewrite Nat.min_l in Hi1, Hi4 by lia.
    destruct (Nat.lt_trichotomy i j) as [Hlt | [-> | Hgt]]; [| reflexivity |].
    + rewrite Hmin in Hi3 by lia. discriminate.
    + rewrite Hi4 in Hp by lia. discriminate.
  - rewrite (indexOf_None _ _ _ Hi j) in Hp; [discriminate| |lia].
    rewrite Nat.min_l; lia.
Qed.

End SeqFacts.

(** ** Facts about the digest *)

Lemma hex_digit_lower (n : N) : isLowerHexDigit (Sha1.hex_digit n) = true.
Proof.
  unfold Sha1.hex_digit.
  assert (H : (N.to_nat (N.land n 0xF) < 16)%nat).
  { change 0xF%N with (N.ones 4). rewrite N.land_ones.
    pose proof (N.mod_upper_bound n (2 ^ 4)) as Hlt.
    change (2 ^ 4)%N with 16%N in *. lia. }
  revert H. generalize (N.to_nat (N.land n 0xF)). intros k Hk.
  do 16 (destruct k as [|k]; [reflexivity|]). lia.
Qed.

Lemma hex_word_length (k : nat) (w : N) : length (Sha1.hex_word k w) = k.
Proof. induction k; simpl; congruence. Qed.

Lemma hex_word_lower (k : nat) (w : N) :
  forallb isLowerHexDigit (Sha1.hex_word k w) = true.
Proof.
  induction k; simpl; [reflexivity|]. now rewrite hex_digit_lower, IHk.
Qed.

Lemma fingerprint_length (t : text) :
  length (_fingerprint t) = FINGERPRINT_VALUE_IN_HEX_LENGTH.
Proof.
  unfold _fingerprint, Sha1.hex.
  repeat rewrite length_app. repeat rewrite hex_word_length. reflexivity.
Qed.

Lemma fingerprint_lower (t : text) :
  forallb isLowerHexDigit (_fingerprint t) = true.
Proof.
  unfold _fingerprint, Sha1.hex.
  repeat rewrite forallb_app. now repeat rewrite hex_word_lower.
Qed.

Lemma lower_is_hex (c : ascii) : isLowerHexDigit c = true -> isHexDigit c = true.
Proof.
  unfold isLowerHexDigit, isHexDigit. intros ->. reflexivity.
Qed.

Lemma fingerprint_hex (t : text) : forallb isHexDigit (_fingerprint t) = true.
Proof.
  apply forallb_forall. intros c Hc. apply lower_is_hex.
  pose proof (fingerprint_lower t) as H.
  rewrite forallb_forall in H. now apply H.
Qed.

(** ** Facts about occurrences and matches *)

Lemma ascii_eqb_spec (x y : ascii) : Ascii.eqb x y = true <-> x = y.
Proof. apply Ascii.eqb_eq. Qed.

Lemma occurs_at_prefixb (pat s : text) (i : nat) :
  occurs_at pat s i <-> i <= length s /\ prefixb Ascii.eqb pat (skipn i s) = true.
Proof.
  unfold occurs_at. rewrite (prefixb_firstn _ _ ascii_eqb_spec). split.
  - intros [H1 H2]. split; [lia | exact H2].
  - intros [H1 H2]. split; [|exact H2].
    assert (length (firstn (length pat) (skipn i s)) = length pat) by now rewrite H2.
    rewrite length_firstn, length_skipn in H. lia.
Qed.

Lemma occurs_at_app (pat a b : text) : occurs_at pat (a ++ pat ++ b) (length a).
Proof.
  split.
  - repeat rewrite length_app. lia.
  - rewrite skipn_app, skipn_all, Nat.sub_diag. simpl.
    rewrite firstn_app, Nat.sub_diag, firstn_all. simpl. apply app_nil_r.
Qed.

Lemma match_here_firstn (re : regexp) (s m : text) (g : option text) :
  match_here re s = Some (m, g) ->
  m = firstn (regexp_length re) s /\ length m = regexp_length re.
Proof.
  revert s m g. induction re as [|[c|n] re IH]; intros s m g; simpl.
  - intros [= <- <-]. now destruct s.
  - destruct s as [|d s]; [discriminate|].
    destruct (Ascii.eqb c d); [|discriminate].
    destruct (match_here re s) as [[m' g']|] eqn:Hm; [|discriminate].
    intros [= <- <-]. apply IH in Hm as [-> Hl]. simpl. split; congruence.
  - destruct (Nat.eqb (length (firstn n s)) n) eqn:Hn; [|discriminate].
    destruct (forallb isHexDigit (firstn n s)); [|discriminate]. simpl.
    destruct (match_here re (skipn n s)) as [[m' g']|] eqn:Hm; [|discriminate].
    intros [= <- <-]. apply IH in Hm as [-> Hl]. apply Nat.eqb_eq in Hn.
    split.
    + rewrite <- (firstn_skipn n s) at 3.
      rewrite firstn_app, Hn.
      replace (n + regexp_length re - n) with (regexp_length re) by lia.
      rewrite firstn_firstn. f_equal. f_equal. lia.
    + rewrite length_app. lia.
Qed.

Lemma exec_from_Some (re : regexp) (s : text) (i : nat) (m : regmatch) :
  exec_from re s i = Some m ->
  exists k, m_index m = i + k /\ k <= length s /\
            match_here re (skipn k s) = Some (m_0 m, m_1 m) /\
            forall k', k' < k -> match_here re (skipn k' s) = None.
Proof.
  revert i. induction s as [|x s IH]; intros i; simpl.
  - destruct (match_here re []) as [[m0 g]|] eqn:Hm; [|discriminate].
    intros [= <-]. exists 0. simpl. repeat split; try lia. exact Hm.
  - destruct (match_here re (x :: s)) as [[m0 g]|] eqn:Hm.
    + intros [= <-]. exists 0. simpl. repeat split; try lia. exact Hm.
    + intros H. apply IH in H as (k & Hk1 & Hk2 & Hk3 & Hk4).
      exists (S k). repeat split; try lia. exact Hk3.
      intros [|k'] Hlt; simpl; [exact Hm | apply Hk4; lia].
Qed.

Lemma exec_from_None (re : regexp) (s : text) (i : nat) :
  exec_from re s i = None ->
  forall k, k <= length s -> match_here re (skipn k s) = None.
Proof.
  revert i. induction s as [|x s IH]; intros i; simpl.
  - destruct (match_here re []) as [[m0 g]|] eqn:Hm; [discriminate|].
    intros _ k Hk. replace k with 0 by lia. exact Hm.
  - destruct (match_here re (x :: s)) as [[m0 g]|] eqn:Hm; [discriminate|].
    intros H [|k] Hk; simpl; [exact Hm|]. apply (IH _ H). lia.
Qed.

(** ** One step of each generator *)

Section Steps.

Variable doc beginTag endTag : text.

Lemma beginTagNext_Some (index : nat) (b : BeginTagOccurrence) :
  beginTagNext doc beginTag index = Some b ->
  Nat.min index (length doc) <= b_index b /\
  b_endIndex b = b_index b + length beginTag /\
  occurs_at beginTag doc (b_index b) /\
  forall q, Nat.min index (length doc) <= q -> q < b_index b ->
            ~ occurs_at beginTag doc q.
Proof.
  unfold beginTagNext.
  destruct (indexOf Ascii.eqb doc beginTag index) as [i|] eqn:Hi; [|discriminate].
  intros [= <-]. simpl.
  apply indexOf_Some in Hi as (H1 & H2 & H3 & H4).
  assert (Ho : occurs_at beginTag doc i) by (apply occurs_at_prefixb; now split).
  split; [exact H1|]. split; [reflexivity|]. split; [exact Ho|].
  intros q Hq1 Hq2 Hq. apply occurs_at_prefixb in Hq as [_ Hq].
  rewrite H4 in Hq by assumption. discriminate.
Qed.

Lemma beginTagNext_None (index : nat) :
  beginTagNext doc beginTag index = None ->
  forall q, index <= q -> ~ occurs_at beginTag doc q.
Proof.
  unfold beginTagNext.
  destruct (indexOf Ascii.eqb doc beginTag index) as [i|] eqn:Hi; [discriminate|].
  intros _ q Hq Ho. apply occurs_at_prefixb in Ho as [Hl Ho].
  rewrite (indexOf_None _ _ _ _ _ Hi) in Ho; [discriminate| |exact Hl].
  etransitivity; [apply Nat.le_min_l | exact Hq].
Qed.

Lemma beginTagNext_first (index j : nat) :
  index <= j -> occurs_at beginTag doc j ->
  (forall q, index <= q -> q < j -> ~ occurs_at beginTag doc q) ->
  beginTagNext doc beginTag index = Some (BeginOcc j (j + length beginTag)).
Proof.
  intros Hij Ho Hmin. unfold beginTagNext.
  apply occurs_at_prefixb in Ho as [Hl Ho].
  rewrite (indexOf_first _ _ doc beginTag index j); try assumption.
  - reflexivity.
  - intros q Hq1 Hq2.
    destruct (prefixb Ascii.eqb beginTag (skipn q doc)) eqn:Hp; [|reflexivity].
    exfalso. apply (Hmin q Hq1 Hq2). apply occurs_at_prefixb. split; [lia|exact Hp].
Qed.

Lemma endTagNext_Some (index : nat) (e : EndTagOccurrence) :
  index <= length doc ->
  endTagNext doc endTag index = Some e ->
  index <= e_index e /\
  e_endIndex e = e_index e + regexp_length (endTagRegExp endTag) /\
  e_endIndex e <= length doc /\
  (exists m, match_here (endTagRegExp endTag) (skipn (e_index e) doc)
             = Some (m, e_fingerprint e)) /\
  forall q, index <= q -> q < e_index e ->
            match_here (endTagRegExp endTag) (skipn q doc) = None.
Proof.
  intros Hidx. unfold endTagNext. rewrite substringFrom_skipn.
  destruct (exec (endTagRegExp endTag) (skipn index doc)) as [m|] eqn:Hx;
    [|discriminate].
  intros [= <-]. simpl. unfold exec in Hx.
  apply exec_from_Some in Hx as (k & Hk1 & Hk2 & Hk3 & Hk4).
  simpl in Hk1. rewrite Hk1. rewrite skipn_skipn in Hk3.
  rewrite length_skipn in Hk2.
  pose proof (match_here_firstn _ _ _ _ Hk3) as [Hm Hlen].
  assert (Hfit : regexp_length (endTagRegExp endTag) <= length doc - (k + index)).
  { rewrite <- Hlen, Hm, length_firstn, length_skipn. apply Nat.le_min_r. }
  repeat split; try lia.
  - exists (m_0 m). now rewrite (Nat.add_comm index k).
  - intros q Hq1 Hq2. specialize (Hk4 (q - index)).
    rewrite skipn_skipn in Hk4. replace (q - index + index) with q in Hk4 by lia.
    apply Hk4. lia.
Qed.

Lemma endTagNext_None (index : nat) :
  endTagNext doc endTag index = None ->
  forall q, index <= q -> q <= length doc ->
            match_here (endTagRegExp endTag) (skipn q doc) = None.
Proof.
  unfold endTagNext. rewrite substringFrom_skipn.
  destruct (exec (endTagRegExp endTag) (skipn index doc)) as [m|] eqn:Hx;
    [discriminate|].
  intros _ q Hq1 Hq2. unfold exec in Hx.
  pose proof (exec_from_None _ _ _ Hx (q - index)) as Hn.
  rewrite skipn_skipn, length_skipn in Hn.
  replace (q - index + index) with q in Hn by lia. apply Hn. lia.
Qed.

Lemma endTagNext_first (index j : nat) (m : text) (g : option text) :
  index <= j -> j <= length doc ->
  match_here (endTagRegExp endTag) (skipn j doc) = Some (m, g) ->
  (forall q, index <= q -> q < j ->
             match_here (endTagRegExp endTag) (skipn q doc) = None) ->
  endTagNext doc endTag index
  = Some (EndOcc j (j + regexp_length (endTagRegExp endTag)) g).
Proof.
  intros Hij Hj Hm Hmin.
  destruct (endTagNext doc endTag index) as [e|] eqn:He.
  - apply endTagNext_Some in He as (H1 & H2 & H3 & [m' H4] & H5); [|lia].
    destruct e as [ei ee ef]. simpl in *.
    destruct (Nat.lt_trichotomy ei j) as [Hlt | [-> | Hgt]].
    + rewrite Hmin in H4 by lia. discriminate.
    + rewrite Hm in H4. injection H4 as _ <-. now rewrite H2.
    + rewrite H5 in Hm by lia. discriminate.
  - rewrite (endTagNext_None _ He j) in Hm by lia. discriminate.
Qed.

End Steps.

(** ** What the two loops maintain *)

Section LoopFacts.

Variable doc beginTag : text.
Variable expected : option text.
Variable endTag : text.

Local Abbreviation state_step := (stateStep expected).
Local Abbreviation endLoop_post := (endLoopPost doc expected).
Local Abbreviation beginLoop_post := (beginLoopPost doc beginTag expected).

Lemma state_step_refl (fi : MashState) : state_step fi fi.
Proof. now left. Qed.

Lemma state_step_trans (a b c : MashState) :
  state_step a b -> state_step b c -> state_step a c.
Proof.
  unfold stateStep. intros [-> | (-> & Hb)] Hc; [exact Hc|].
  destruct Hc as [-> | (Hb' & _)]; [now right|].
  destruct Hb as [[-> _] | ->]; discriminate.
Qed.

Lemma endLoop_inv (fuel : nat) (b : BeginTagOccurrence) :
  forall index fb fe fi r,
    index <= length doc ->
    endLoop doc expected endTag fuel b index fb fe fi = Ret r ->
    endLoop_post b index fb fe fi r.
Proof.
  induction fuel as [|fuel IH]; intros index fb fe fi r Hidx; simpl;
    [discriminate|].
  destruct (endTagNext doc endTag index) as [e|] eqn:He.
  - apply endTagNext_Some in He as (H1 & H2 & H3 & _ & _); [|exact Hidx].
    destruct (negb (sourceTextTampered doc expected b e) &&
              negb (fingerprintInvalid doc b e)) eqn:Hp.
    + intros [= <-]. simpl. exists e. repeat split; try lia. exact Hp.
    + intros H. apply IH in H; [|lia].
      destruct r as [info | fb' fe' fi']; simpl in *.
      * destruct H as (e' & -> & Hle & Hrest). exists e'. split; [reflexivity|].
        split; [lia | exact Hrest].
      * destruct H as (-> & Hst & Hfe & Hfe').
        split; [reflexivity|]. split; [|split].
        -- eapply state_step_trans; [|exact Hst].
           destruct fi; try apply state_step_refl.
           destruct (sourceTextTampered doc expected b e) eqn:Ht.
           ++ right. split; [reflexivity|]. left. split; [reflexivity|].
              unfold sourceTextTampered in Ht. destruct expected; congruence.
           ++ simpl in Hp. apply negb_false_iff in Hp.
              rewrite Hp. right. split; [reflexivity|]. now right.
        -- intros x ->. now apply Hfe.
        -- intros -> e' ->. specialize (Hfe e eq_refl). injection Hfe as <-. lia.
  - intros [= <-]. simpl. split; [reflexivity|]. split; [apply state_step_refl|].
    split; [tauto|]. intros -> e [=].
Qed.

Lemma beginLoop_inv (fuel : nat) :
  forall index fb fe fi r,
    index <= length doc ->
    beginLoop doc beginTag expected endTag fuel index fb fe fi = Ret r ->
    beginLoop_post index fb fe fi r.
Proof.
  induction fuel as [|fuel IH]; intros index fb fe fi r Hidx;
    [discriminate|].
  cbn [beginLoop].
  destruct (beginTagNext doc beginTag index) as [b|] eqn:Hb.
  - pose proof (beginTagNext_Some _ _ _ _ Hb) as (H1 & H2 & H3 & _).
    rewrite Nat.min_l in H1 by exact Hidx.
    pose proof H3 as [Hfit _].
    destruct (endLoop doc expected endTag (S fuel) b (b_endIndex b) _ fe fi)
      as [[info | fb1 fe1 fi1] | |] eqn:Hend; try discriminate.
    + intros [= <-]. apply endLoop_inv in Hend; [|lia].
      destruct Hend as (e & -> & He1 & He2 & He3 & He4).
      exists b, e. repeat split; try lia; try assumption; apply H3.
    + apply endLoop_inv in Hend; [|lia].
      destruct Hend as (-> & Hst & Hfe & Hfe').
      intros H. apply IH in H; [|lia].
      destruct r as [info | fb' fe' fi']; cbn [beginLoopPost] in *.
      * destruct H as (b' & e' & -> & Hb1 & Hrest). exists b', e'.
        split; [reflexivity|]. split; [lia | exact Hrest].
      * destruct H as (-> & Hst' & Hfe2 & Hfe2' & _).
        split; [now destruct fb|]. split; [|split; [|split]].
        -- eapply state_step_trans; eassumption.
        -- intros x Hx. apply Hfe2. now apply Hfe.
        -- intros -> e' He'. destruct fe1 as [e1|].
           ++ specialize (Hfe2 e1 eq_refl). rewrite Hfe2 in He'.
              injection He' as <-. now apply (Hfe' eq_refl).
           ++ now apply (Hfe2' eq_refl).
        -- intros Hn. rewrite Hb in Hn. discriminate.
  - intros [= <-]. cbn [beginLoopPost]. rewrite Hb. split; [now destruct fb|].
    split; [apply state_step_refl|]. split; [tauto|]. split; [|tauto].
    intros -> e [=].
Qed.

End LoopFacts.

(** ** The ways [_getMashInfo] returns *)

Lemma getMashInfo_cases (doc beginTag : text) (expected : option text)
    (endTag : text) (fuel : nat) (info : MashInfo) :
  _getMashInfo doc beginTag expected endTag fuel = Ret info ->
  locateCase doc beginTag expected endTag info.
Proof.
  unfold _getMashInfo.
  destruct (beginLoop doc beginTag expected endTag fuel 0 None None Unmashed)
    as [[i | fb fe fi] | |] eqn:Hloop; try discriminate.
  - intros [= <-]. apply beginLoop_inv in Hloop; [|lia].
    destruct Hloop as (b & e & -> & _ & H1 & H2 & H3 & H4 & H5 & H6).
    now constructor.
  - apply beginLoop_inv in Hloop; [|lia].
    destruct Hloop as (-> & Hst & _ & Hfe & Hnone).
    destruct (beginTagNext doc beginTag 0) as [b|] eqn:Hb.
    + destruct fe as [e|]; intros [= <-].
      * constructor; [exact Hb | now apply (Hfe eq_refl) | exact Hst].
      * now constructor.
    + destruct (Hnone eq_refl) as [-> ->].
      destruct (endTagNext doc endTag 0) as [e|] eqn:He; intros [= <-];
        now constructor.
Qed.

Lemma endLoop_no_assert (doc : text) (expected : option text) (endTag : text)
    (b : BeginTagOccurrence) (fuel : nat) :
  forall index fb fe fi,
    endLoop doc expected endTag fuel b index fb fe fi <> AssertFail.
Proof.
  induction fuel as [|fuel IH]; intros index fb fe fi; simpl; [discriminate|].
  destruct (endTagNext doc endTag index) as [e|]; [|discriminate].
  destruct (negb (sourceTextTampered doc expected b e) &&
            negb (fingerprintInvalid doc b e)); [discriminate | apply IH].
Qed.

Lemma beginLoop_no_assert (doc beginTag : text) (expected : option text)
    (endTag : text) (fuel : nat) :
  forall index fb fe fi,
    beginLoop doc beginTag expected endTag fuel index fb fe fi <> AssertFail.
Proof.
  induction fuel as [|fuel IH]; intros index fb fe fi; cbn [beginLoop];
    [discriminate|].
  destruct (beginTagNext doc beginTag index) as [b|]; [|discriminate].
  destruct (endLoop doc expected endTag (S fuel) b (b_endIndex b) _ fe fi)
    as [[info | fb1 fe1 fi1] | |] eqn:Hend; try discriminate.
  - apply IH.
  - now apply endLoop_no_assert in Hend.
Qed.

(** [_getMashInfo] never fails an assertion. *)
Lemma getMashInfo_no_assert (doc beginTag : text) (expected : option text)
    (endTag : text) (fuel : nat) :
  _getMashInfo doc beginTag expected endTag fuel <> AssertFail.
Proof.
  unfold _getMashInfo.
  destruct (beginLoop doc beginTag expected endTag fuel 0 None None Unmashed)
    as [[i | fb fe fi] | |] eqn:Hloop; try discriminate.
  - apply beginLoop_inv in Hloop; [|lia].
    destruct Hloop as (-> & _ & _ & _ & Hnone).
    destruct (beginTagNext doc beginTag 0) as [b|] eqn:Hb.
    + destruct fe; discriminate.
    + destruct (Hnone eq_refl) as [-> _].
      destruct (endTagNext doc endTag 0); discriminate.
  - now apply beginLoop_no_assert in Hloop.
Qed.

(** ** The splice *)

Lemma insertText_Some (doc : text) (i : nat) (beginTag sourceText endTag : text) :
  _insertText doc (Some i) beginTag sourceText endTag
  = firstn i doc ++ mashBlock beginTag sourceText endTag ++ skipn i doc.
Proof.
  unfold _insertText, mashBlock, materializedEndTag, substring_to, substring_from.
  rewrite substring_0, substringFrom_skipn.
  now repeat rewrite <- app_assoc.
Qed.

Lemma appendText_app (doc beginTag sourceText endTag : text) :
  _appendText doc beginTag sourceText endTag
  = doc ++ mashBlock beginTag sourceText endTag.
Proof.
  unfold _appendText. rewrite insertText_Some, firstn_all, skipn_all.
  now rewrite app_nil_r.
Qed.

Lemma replace_first (s pre post repl : text) (pat : text) :
  s = pre ++ pat ++ post ->
  (forall q, q < length pre -> ~ occurs_at pat s q) ->
  replace Ascii.eqb s pat repl = pre ++ repl ++ post.
Proof.
  intros Hs Hfirst. unfold replace.
  rewrite (indexOf_first _ _ s pat 0 (length pre)).
  - subst s. rewrite firstn_app, Nat.sub_diag, firstn_all. simpl.
    rewrite app_nil_r. f_equal. f_equal.
    rewrite skipn_app. rewrite skipn_all2 by lia. simpl.
    replace (length pre + length pat - length pre) with (length pat) by lia.
    rewrite skipn_app, skipn_all, Nat.sub_diag. reflexivity.
  - lia.
  - subst s. rewrite length_app. lia.
  - subst s. apply occurs_at_prefixb. apply occurs_at_app.
  - intros q _ Hq.
    destruct (prefixb Ascii.eqb pat (skipn q s)) eqn:Hp; [|reflexivity].
    exfalso. apply (Hfirst q Hq). apply occurs_at_prefixb. split; [|exact Hp].
    subst s. rewrite length_app. lia.
Qed.

(** What [mash] returns in each state of the located info. *)
Lemma mash_dispatch (fuel : nat) (doc beginTag sourceText endTag : text)
    (info : MashInfo) :
  _getMashInfo doc beginTag None endTag fuel = Ret info ->
  mash fuel doc beginTag sourceText endTag =
  match state info with
  | Unmashed => Ret (doc ++ mashBlock beginTag sourceText endTag)
  | BeginTagMissing =>
      Ret (_insertText doc (endOfEndTagIndex info) beginTag sourceText endTag)
  | EndTagMissing | FingerprintInvalid =>
      Ret (_insertText doc (beginTagIndex info) beginTag sourceText endTag)
  | SourceTextTampered => AssertFail
  | Mashed =>
      Ret (_insertText
             (substring_to doc (beginTagIndex info) ++
              substring_from doc (endOfEndTagIndex info))
             (beginTagIndex info) beginTag sourceText endTag)
  end.
Proof.
  intros H. unfold mash. rewrite H.
  destruct (state info); try reflexivity. now rewrite appendText_app.
Qed.

Lemma stateStep_None_not_tampered (fi : MashState) :
  stateStep None Unmashed fi -> fi = Unmashed \/ fi = FingerprintInvalid.
Proof.
  intros [-> | (_ & [[_ H] | ->])]; [now left | congruence | now right].
Qed.

Lemma stateStep_not_Mashed (expected : option text) (fi : MashState) :
  stateStep expected Unmashed fi -> fi <> Mashed.
Proof.
  intros [-> | (_ & [[-> _] | ->])]; discriminate.
Qed.

(** ** C4 *)

(** C4: for an insertion offset [i] within the document, [_insertText]
    returns [document[0:i] + beginTag + sourceText + materialized end tag +
    document[i:]]; the materialized end tag is the template with its
    placeholder replaced by the digest, which has 40 characters, all of
    them lowercase hexadecimal; and whatever [mash] returns is such a
    splice. *)
Theorem C4_splice (doc : text) (i : nat) (beginTag sourceText endTag : text) :
  i <= length doc ->
  _insertText doc (Some i) beginTag sourceText endTag
  = firstn i doc ++ beginTag ++ sourceText ++
    materializedEndTag endTag sourceText ++ skipn i doc /\
  length (firstn i doc) = i /\
  (forall pre post,
      endTag = pre ++ FINGERPRINT_PLACEHOLDER ++ post ->
      (forall q, q < length pre -> ~ occurs_at FINGERPRINT_PLACEHOLDER endTag q) ->
      materializedEndTag endTag sourceText
      = pre ++ _fingerprint sourceText ++ post) /\
  length (_fingerprint sourceText) = 40 /\
  forallb isLowerHexDigit (_fingerprint sourceText) = true /\
  (forall fuel result,
      mash fuel doc beginTag sourceText endTag = Ret result ->
      exists d j, j <= length d /\
                  result = _insertText d (Some j) beginTag sourceText endTag).
Proof.
  intros Hi. split; [|split; [|split; [|split; [|split]]]].
  - rewrite insertText_Some. unfold mashBlock. now repeat rewrite <- app_assoc.
  - apply firstn_length_le. exact Hi.
  - intros pre post Hs Hfirst. unfold materializedEndTag.
    now apply replace_first.
  - apply fingerprint_length.
  - apply fingerprint_lower.
  - intros fuel result Hm.
    destruct (_getMashInfo doc beginTag None endTag fuel) as [info| |] eqn:Hinfo;
      try (unfold mash in Hm; rewrite Hinfo in Hm; discriminate).
    rewrite (mash_dispatch _ _ _ _ _ _ Hinfo) in Hm.
    apply getMashInfo_cases in Hinfo.
    destruct Hinfo as [b e H1 H2 H3 H4 H5 H6 | H1 H2 | e H1 H2 | b H1 | b e fi H1 H2 H3];
      cbn [state createInfo option_map beginTagIndex endOfEndTagIndex] in Hm.
    + injection Hm as <-. eexists _, (b_index b). split; [|reflexivity].
      unfold substring_to, substring_from. rewrite substring_0, substringFrom_skipn.
      rewrite length_app, length_firstn, length_skipn.
      destruct H1 as [H1 _]. lia.
    + injection Hm as <-. exists doc, (length doc). split; [lia|].
      now rewrite insertText_Some, firstn_all, skipn_all, app_nil_r.
    + injection Hm as <-. exists doc, (e_endIndex e). split; [|reflexivity].
      apply endTagNext_Some in H2; [|lia]. lia.
    + injection Hm as <-. exists doc, (b_index b). split; [|reflexivity].
      apply beginTagNext_Some in H1 as (_ & _ & [Ho _] & _). lia.
    + apply beginTagNext_Some in H1 as (_ & _ & [Ho _] & _).
      apply stateStep_None_not_tampered in H3 as [-> | ->].
      * injection Hm as <-. exists doc, (length doc). split; [lia|].
        now rewrite insertText_Some, firstn_all, skipn_all, app_nil_r.
      * injection Hm as <-. exists doc, (b_index b). split; [lia | reflexivity].
Qed.

Lemma C4_splice_witness :
  1 <= length (T "ab") /\
  _insertText (T "ab") (Some 1) (T "<") (T "x") (T "(%fingerprint%)")
  = firstn 1 (T "ab") ++ T "<" ++ T "x" ++
    materializedEndTag (T "(%fingerprint%)") (T "x") ++ skipn 1 (T "ab").
Proof.
  split; [simpl; lia|].
  apply (C4_splice (T "ab") 1 (T "<") (T "x") (T "(%fingerprint%)")).
  simpl; lia.
Defined.

Example C4_splice_value :
  _insertText (T "ab") (Some 1) (T "<") (T "x") (T "(%fingerprint%)")
  = T "a<x(11f6ad8ec52a2984abaafd7c3b516503785c2072)b".
Proof. vm_compute. reflexivity. Qed.

Lemma getMashInfo_None_not_tampered (fuel : nat) (doc beginTag endTag : text)
    (info : MashInfo) :
  _getMashInfo doc beginTag None endTag fuel = Ret info ->
  state info <> SourceTextTampered.
Proof.
  intros H. apply getMashInfo_cases in H.
  destruct H as [b e _ _ _ _ _ _ | _ _ | e _ _ | b _ | b e fi _ _ H3];
    try discriminate.
  cbn [state createInfo].
  apply stateStep_None_not_tampered in H3 as [-> | ->]; discriminate.
Qed.

(** ** C2 *)

(** Cutting [[b, e)] out and splicing at [b]. *)
Lemma replace_span (doc beginTag sourceText endTag : text) (b e : nat) :
  b <= e -> e <= length doc ->
  _insertText (substring_to doc (Some b) ++ substring_from doc (Some e))
              (Some b) beginTag sourceText endTag
  = firstn b doc ++ mashBlock beginTag sourceText endTag ++ skipn e doc.
Proof.
  intros Hbe He.
  assert (Hlen : length (firstn b doc) = b) by (apply firstn_length_le; lia).
  rewrite insertText_Some. unfold substring_to, substring_from.
  rewrite substring_0, substringFrom_skipn.
  rewrite firstn_app, Hlen, Nat.sub_diag. simpl. rewrite app_nil_r.
  rewrite firstn_firstn, Nat.min_id.
  rewrite skipn_app, Hlen, Nat.sub_diag. simpl.
  rewrite skipn_all2 by lia. reflexivity.
Qed.

(** C2: when [_getMashInfo] without an expected source text returns the
    state [Mashed] with the offsets [b] = [beginTagIndex] and
    [e] = [endOfEndTagIndex], [mash] returns the document with [[b, e)]
    removed and the new block put at [b]: the text before [b] and the text
    from [e] on are kept as they are, in their order. *)
Theorem C2_replace_in_place (fuel : nat) (doc beginTag sourceText endTag : text)
    (info : MashInfo) :
  _getMashInfo doc beginTag None endTag fuel = Ret info ->
  state info = Mashed ->
  exists b e result,
    beginTagIndex info = Some b /\ endOfEndTagIndex info = Some e /\
    b <= e /\ e <= length doc /\
    mash fuel doc beginTag sourceText endTag = Ret result /\
    result = firstn b doc ++ mashBlock beginTag sourceText endTag ++ skipn e doc /\
    firstn b result = firstn b doc /\
    skipn (b + length (mashBlock beginTag sourceText endTag)) result
    = skipn e doc.
Proof.
  intros Hinfo Hst.
  rewrite (mash_dispatch _ _ _ sourceText _ _ Hinfo), Hst.
  apply getMashInfo_cases in Hinfo.
  destruct Hinfo as [b e H1 H2 H3 H4 H5 H6 | H1 H2 | e H1 H2 | b H1 | b e fi H1 H2 H3];
    cbn [state createInfo] in Hst; try discriminate.
  - destruct H1 as [H1 _].
    exists (b_index b), (e_endIndex e). eexists.
    cbn [createInfo beginTagIndex endOfEndTagIndex option_map].
    split; [reflexivity|]. split; [reflexivity|]. split; [lia|].
    split; [lia|]. split; [reflexivity|].
    assert (Hlen : length (firstn (b_index b) doc) = b_index b)
      by (apply firstn_length_le; lia).
    rewrite replace_span by lia. split; [reflexivity|]. split.
    + rewrite firstn_app, Hlen, Nat.sub_diag. simpl. rewrite app_nil_r.
      now rewrite firstn_firstn, Nat.min_id.
    + rewrite app_assoc, skipn_app.
      rewrite skipn_all2 by (rewrite length_app; lia).
      rewrite length_app, Hlen. simpl.
      now rewrite Nat.sub_diag.
  - subst fi. now apply stateStep_not_Mashed in H3.
Qed.

Lemma C2_replace_in_place_witness :
  exists b e result,
    beginTagIndex (Info Mashed (Some 2) (Some 5) (Some 6) (Some 48)) = Some b /\
    endOfEndTagIndex (Info Mashed (Some 2) (Some 5) (Some 6) (Some 48)) = Some e /\
    b <= e /\
    e <= length (T "ab<b>x(11f6ad8ec52a2984abaafd7c3b516503785c2072)cd") /\
    mash 60 (T "ab<b>x(11f6ad8ec52a2984abaafd7c3b516503785c2072)cd")
         (T "<b>") (T "y") (T "(%fingerprint%)") = Ret result /\
    result = firstn b (T "ab<b>x(11f6ad8ec52a2984abaafd7c3b516503785c2072)cd") ++
             mashBlock (T "<b>") (T "y") (T "(%fingerprint%)") ++
             skipn e (T "ab<b>x(11f6ad8ec52a2984abaafd7c3b516503785c2072)cd") /\
    firstn b result
    = firstn b (T "ab<b>x(11f6ad8ec52a2984abaafd7c3b516503785c2072)cd") /\
    skipn (b + length (mashBlock (T "<b>") (T "y") (T "(%fingerprint%)"))) result
    = skipn e (T "ab<b>x(11f6ad8ec52a2984abaafd7c3b516503785c2072)cd").
Proof.
  apply (C2_replace_in_place 60
           (T "ab<b>x(11f6ad8ec52a2984abaafd7c3b516503785c2072)cd")
           (T "<b>") (T "y") (T "(%fingerprint%)")
           (Info Mashed (Some 2) (Some 5) (Some 6) (Some 48))).
  - vm_compute. reflexivity.
  - reflexivity.
Defined.

Example C2_value :
  mash 60 (T "ab<b>x(11f6ad8ec52a2984abaafd7c3b516503785c2072)cd")
       (T "<b>") (T "y") (T "(%fingerprint%)")
  = Ret (T "ab<b>y(95cb0bfd2977c761298d9624e4b4d4c72a39974a)cd").
Proof. vm_compute. reflexivity. Qed.

(** ** Documents without a begin tag *)

Lemma no_begin_beginTagNext (doc beginTag : text) (index : nat) :
  (forall q, ~ occurs_at beginTag doc q) ->
  beginTagNext doc beginTag index = None.
Proof.
  intros Hno. destruct (beginTagNext doc beginTag index) as [b|] eqn:Hb;
    [|reflexivity].
  apply beginTagNext_Some in Hb as (_ & _ & Ho & _). now apply Hno in Ho.
Qed.

Lemma getMashInfo_no_begin (doc beginTag : text) (expected : option text)
    (endTag : text) (fuel : nat) :
  0 < fuel ->
  beginTagNext doc beginTag 0 = None ->
  _getMashInfo doc beginTag expected endTag fuel =
  match endTagNext doc endTag 0 with
  | None => Ret (createInfo Unmashed None None)
  | Some e => Ret (createInfo BeginTagMissing None (Some e))
  end.
Proof.
  intros Hf Hb. destruct fuel as [|fuel]; [lia|].
  unfold _getMashInfo. cbn [beginLoop]. now rewrite Hb.
Qed.

(** ** C6 *)

(** C6: in a document with no begin-tag occurrence and at least one match
    of the end-tag pattern, [_getMashInfo] returns [BeginTagMissing] with
    the offsets of the leftmost match, and [mash] puts the new block right
    after that match ([endOfEndTagIndex]), the rest of the document
    following it. *)
Theorem C6_begin_tag_missing (fuel : nat) (doc beginTag sourceText endTag : text)
    (expected : option text) :
  0 < fuel ->
  (forall q, ~ occurs_at beginTag doc q) ->
  (exists q, matches_at (endTagRegExp endTag) doc q) ->
  exists ei,
    matches_at (endTagRegExp endTag) doc ei /\
    (forall q, q < ei -> ~ matches_at (endTagRegExp endTag) doc q) /\
    ei + regexp_length (endTagRegExp endTag) <= length doc /\
    _getMashInfo doc beginTag expected endTag fuel
    = Ret (Info BeginTagMissing None None (Some ei)
                (Some (ei + regexp_length (endTagRegExp endTag)))) /\
    mash fuel doc beginTag sourceText endTag
    = Ret (firstn (ei + regexp_length (endTagRegExp endTag)) doc ++
           mashBlock beginTag sourceText endTag ++
           skipn (ei + regexp_length (endTagRegExp endTag)) doc).
Proof.
  intros Hf Hno [q [Hq1 Hq2]].
  pose proof (no_begin_beginTagNext doc beginTag 0 Hno) as Hb.
  destruct (endTagNext doc endTag 0) as [e|] eqn:He.
  - pose proof (endTagNext_Some _ _ _ _ (Nat.le_0_l _) He)
      as (_ & H2 & H3 & [m H4] & H5).
    exists (e_index e). split; [|split; [|split; [|split]]].
    + split; [lia|]. rewrite H4. discriminate.
    + intros q' Hlt [_ Hm]. apply Hm. apply H5; lia.
    + lia.
    + rewrite getMashInfo_no_begin, He by assumption.
      unfold createInfo. simpl. now rewrite H2.
    + rewrite (mash_dispatch fuel doc beginTag sourceText endTag
                 (createInfo BeginTagMissing None (Some e))).
      * cbn [state createInfo endOfEndTagIndex option_map].
        now rewrite insertText_Some, H2.
      * now rewrite getMashInfo_no_begin, He.
  - exfalso. apply Hq2. apply (endTagNext_None _ _ _ He); lia.
Qed.

Lemma C6_begin_tag_missing_witness :
  exists ei,
    matches_at (endTagRegExp (T "(%fingerprint%)"))
               (T "ab(11f6ad8ec52a2984abaafd7c3b516503785c2072)cd") ei /\
    (forall q, q < ei ->
       ~ matches_at (endTagRegExp (T "(%fingerprint%)"))
                    (T "ab(11f6ad8ec52a2984abaafd7c3b516503785c2072)cd") q) /\
    ei + regexp_length (endTagRegExp (T "(%fingerprint%)"))
    <= length (T "ab(11f6ad8ec52a2984abaafd7c3b516503785c2072)cd") /\
    _getMashInfo (T "ab(11f6ad8ec52a2984abaafd7c3b516503785c2072)cd")
                 (T "<b>") None (T "(%fingerprint%)") 1
    = Ret (Info BeginTagMissing None None (Some ei)
                (Some (ei + regexp_length (endTagRegExp (T "(%fingerprint%)"))))) /\
    mash 1 (T "ab(11f6ad8ec52a2984abaafd7c3b516503785c2072)cd")
         (T "<b>") (T "y") (T "(%fingerprint%)")
    = Ret (firstn (ei + regexp_length (endTagRegExp (T "(%fingerprint%)")))
                  (T "ab(11f6ad8ec52a2984abaafd7c3b516503785c2072)cd") ++
           mashBlock (T "<b>") (T "y") (T "(%fingerprint%)") ++
           skipn (ei + regexp_length (endTagRegExp (T "(%fingerprint%)")))
                 (T "ab(11f6ad8ec52a2984abaafd7c3b516503785c2072)cd")).
Proof.
  apply (C6_begin_tag_missing 1
           (T "ab(11f6ad8ec52a2984abaafd7c3b516503785c2072)cd")
           (T "<b>") (T "y") (T "(%fingerprint%)") None).
  - lia.
  - intros q Ho. apply occurs_at_prefixb in Ho as [Hl Ho].
    simpl in Hl.
    do 47 (destruct q as [|q]; [discriminate Ho|]). lia.
  - exists 2. split; [simpl; lia | vm_compute; discriminate].
Defined.

Example C6_value :
  mash 1 (T "ab(11f6ad8ec52a2984abaafd7c3b516503785c2072)cd")
       (T "<b>") (T "y") (T "(%fingerprint%)")
  = Ret (T "ab(11f6ad8ec52a2984abaafd7c3b516503785c2072)<b>y(95cb0bfd2977c761298d9624e4b4d4c72a39974a)cd").
Proof. vm_compute. reflexivity. Qed.

(** ** C7 *)

(** C7: when [_getMashInfo] without an expected source text returns
    [EndTagMissing] or [FingerprintInvalid], [beginTagIndex] is the offset
    of the first begin-tag occurrence and [mash] puts the new block there:
    the document from that begin tag on follows the new block unchanged. *)
Theorem C7_insert_before_remnant (fuel : nat)
    (doc beginTag sourceText endTag : text) (info : MashInfo) :
  _getMashInfo doc beginTag None endTag fuel = Ret info ->
  state info = EndTagMissing \/ state info = FingerprintInvalid ->
  exists b,
    beginTagIndex info = Some b /\
    occurs_at beginTag doc b /\
    (forall q, q < b -> ~ occurs_at beginTag doc q) /\
    mash fuel doc beginTag sourceText endTag
    = Ret (firstn b doc ++ mashBlock beginTag sourceText endTag ++ skipn b doc) /\
    firstn (length beginTag) (skipn b doc) = beginTag.
Proof.
  intros Hinfo Hst.
  rewrite (mash_dispatch _ _ _ sourceText _ _ Hinfo).
  apply getMashInfo_cases in Hinfo.
  assert (Hfirst : forall b, beginTagNext doc beginTag 0 = Some b ->
            occurs_at beginTag doc (b_index b) /\
            (forall q, q < b_index b -> ~ occurs_at beginTag doc q) /\
            firstn (length beginTag) (skipn (b_index b) doc) = beginTag).
  { intros b Hb. apply beginTagNext_Some in Hb as (_ & _ & Ho & Hmin).
    split; [exact Ho|]. split; [|apply Ho].
    intros q Hq. apply Hmin; [|exact Hq]. rewrite Nat.min_0_l. lia. }
  destruct Hinfo as [b e H1 H2 H3 H4 H5 H6 | H1 H2 | e H1 H2 | b H1 | b e fi H1 H2 H3];
    cbn [state createInfo] in Hst; try (destruct Hst; discriminate).
  - destruct (Hfirst b H1) as (Ho & Hmin & Hpre).
    exists (b_index b). cbn [state createInfo beginTagIndex option_map].
    rewrite insertText_Some. auto.
  - destruct (Hfirst b H1) as (Ho & Hmin & Hpre).
    exists (b_index b). cbn [state createInfo beginTagIndex option_map].
    destruct Hst as [-> | ->]; rewrite insertText_Some; auto.
Qed.

Lemma C7_insert_before_remnant_witness :
  exists b,
    beginTagIndex (Info FingerprintInvalid (Some 2) (Some 5) (Some 13) (Some 55))
    = Some b /\
    occurs_at (T "<b>") (T "ab<b>tampered(11f6ad8ec52a2984abaafd7c3b516503785c2072)cd") b /\
    (forall q, q < b ->
       ~ occurs_at (T "<b>")
           (T "ab<b>tampered(11f6ad8ec52a2984abaafd7c3b516503785c2072)cd") q) /\
    mash 60 (T "ab<b>tampered(11f6ad8ec52a2984abaafd7c3b516503785c2072)cd")
         (T "<b>") (T "y") (T "(%fingerprint%)")
    = Ret (firstn b (T "ab<b>tampered(11f6ad8ec52a2984abaafd7c3b516503785c2072)cd") ++
           mashBlock (T "<b>") (T "y") (T "(%fingerprint%)") ++
           skipn b (T "ab<b>tampered(11f6ad8ec52a2984abaafd7c3b516503785c2072)cd")) /\
    firstn (length (T "<b>"))
           (skipn b (T "ab<b>tampered(11f6ad8ec52a2984abaafd7c3b516503785c2072)cd"))
    = T "<b>".
Proof.
  apply (C7_insert_before_remnant 60
           (T "ab<b>tampered(11f6ad8ec52a2984abaafd7c3b516503785c2072)cd")
           (T "<b>") (T "y") (T "(%fingerprint%)")
           (Info FingerprintInvalid (Some 2) (Some 5) (Some 13) (Some 55))).
  - vm_compute. reflexivity.
  - right. reflexivity.
Defined.

Example C7_value :
  mash 60 (T "ab<b>tampered(11f6ad8ec52a2984abaafd7c3b516503785c2072)cd")
       (T "<b>") (T "y") (T "(%fingerprint%)")
  = Ret (T "ab<b>y(95cb0bfd2977c761298d9624e4b4d4c72a39974a)<b>tampered(11f6ad8ec52a2984abaafd7c3b516503785c2072)cd").
Proof. vm_compute. reflexivity. Qed.

Example C7_end_tag_missing :
  _getMashInfo (T "ab<b>x(11f6ad8ec5") (T "<b>") None (T "(%fingerprint%)") 60
  = Ret (Info EndTagMissing (Some 2) (Some 5) None None) /\
  mash 60 (T "ab<b>x(11f6ad8ec5") (T "<b>") (T "y") (T "(%fingerprint%)")
  = Ret (T "ab<b>y(95cb0bfd2977c761298d9624e4b4d4c72a39974a)<b>x(11f6ad8ec5").
Proof. split; vm_compute; reflexivity. Qed.

(** ** Termination *)

Lemma regexp_length_app (r1 r2 : regexp) :
  regexp_length (r1 ++ r2) = regexp_length r1 + regexp_length r2.
Proof.
  induction r1 as [|[c|n] r1 IH]; simpl; rewrite ?IH; lia.
Qed.

Lemma regexp_length_Lit (s : text) : regexp_length (map Lit s) = length s.
Proof. induction s; simpl; congruence. Qed.

Lemma endTagRegExp_length_pos (endTag : text) :
  endTag <> [] -> 0 < regexp_length (endTagRegExp endTag).
Proof.
  intros Hne. unfold endTagRegExp, replace.
  destruct (indexOf atom_eqb (escapeStringRegexp endTag)
              (escapeStringRegexp FINGERPRINT_PLACEHOLDER) 0) as [i|].
  - repeat rewrite regexp_length_app. simpl.
    unfold FINGERPRINT_VALUE_IN_HEX_LENGTH. lia.
  - unfold escapeStringRegexp. rewrite regexp_length_Lit.
    destruct endTag; [congruence | simpl; lia].
Qed.

Section Termination.

Variable doc beginTag : text.
Variable expected : option text.
Variable endTag : text.

Hypothesis beginTag_nonempty : beginTag <> [].
Hypothesis endTag_nonempty : endTag <> [].

Lemma beginTag_length_pos : 0 < length beginTag.
Proof. destruct beginTag; [congruence | simpl; lia]. Qed.

Lemma endLoop_terminates (b : BeginTagOccurrence) (fuel : nat) :
  forall index fb fe fi,
    index <= length doc -> length doc - index < fuel ->
    exists r, endLoop doc expected endTag fuel b index fb fe fi = Ret r.
Proof.
  pose proof (endTagRegExp_length_pos endTag endTag_nonempty) as Hpos.
  induction fuel as [|fuel IH]; intros index fb fe fi Hidx Hfuel; [lia|].
  simpl. destruct (endTagNext doc endTag index) as [e|] eqn:He; [|eauto].
  apply endTagNext_Some in He as (H1 & H2 & H3 & _); [|exact Hidx].
  destruct (negb (sourceTextTampered doc expected b e) &&
            negb (fingerprintInvalid doc b e)); [eauto|].
  apply IH; lia.
Qed.

Lemma beginLoop_terminates (fuel : nat) :
  forall index fb fe fi,
    index <= length doc -> length doc - index < fuel ->
    exists r, beginLoop doc beginTag expected endTag fuel index fb fe fi = Ret r.
Proof.
  pose proof beginTag_length_pos as Hpos.
  induction fuel as [|fuel IH]; intros index fb fe fi Hidx Hfuel; [lia|].
  cbn [beginLoop].
  destruct (beginTagNext doc beginTag index) as [b|] eqn:Hb; [|eauto].
  apply beginTagNext_Some in Hb as (H1 & H2 & [H3 _] & _).
  rewrite Nat.min_l in H1 by exact Hidx.
  destruct (endLoop_terminates b (S fuel) (b_endIndex b)
              (match fb with Some _ => fb | None => Some b end) fe fi)
    as [[info | fb1 fe1 fi1] Hr]; try lia; rewrite Hr; [eauto|].
  apply IH; lia.
Qed.

Lemma getMashInfo_terminates (fuel : nat) :
  length doc < fuel ->
  exists info, _getMashInfo doc beginTag expected endTag fuel = Ret info.
Proof.
  intros Hfuel. unfold _getMashInfo.
  destruct (beginLoop_terminates fuel 0 None None Unmashed) as [r Hr]; try lia.
  pose proof (getMashInfo_no_assert doc beginTag expected endTag fuel) as Hna.
  unfold _getMashInfo in Hna. rewrite Hr in *.
  destruct r as [info | [b|] [e|] fi]; eauto; try congruence.
  destruct (endTagNext doc endTag 0); eauto.
Qed.

End Termination.

(** ** The result does not depend on the bound *)

Lemma endLoop_mono (doc : text) (expected : option text) (endTag : text)
    (b : BeginTagOccurrence) (fuel : nat) :
  forall fuel' index fb fe fi r,
    fuel <= fuel' ->
    endLoop doc expected endTag fuel b index fb fe fi = Ret r ->
    endLoop doc expected endTag fuel' b index fb fe fi = Ret r.
Proof.
  induction fuel as [|fuel IH]; intros fuel' index fb fe fi r Hle; simpl;
    [discriminate|].
  destruct fuel' as [|fuel']; [lia|]. simpl.
  destruct (endTagNext doc endTag index) as [e|]; [|auto].
  destruct (negb (sourceTextTampered doc expected b e) &&
            negb (fingerprintInvalid doc b e)); [auto|].
  apply IH. lia.
Qed.

Lemma beginLoop_mono (doc beginTag : text) (expected : option text)
    (endTag : text) (fuel : nat) :
  forall fuel' index fb fe fi r,
    fuel <= fuel' ->
    beginLoop doc beginTag expected endTag fuel index fb fe fi = Ret r ->
    beginLoop doc beginTag expected endTag fuel' index fb fe fi = Ret r.
Proof.
  induction fuel as [|fuel IH]; intros fuel' index fb fe fi r Hle;
    [discriminate|].
  destruct fuel' as [|fuel']; [lia|]. cbn [beginLoop].
  destruct (beginTagNext doc beginTag index) as [b|]; [|auto].
  destruct (endLoop doc expected endTag (S fuel) b (b_endIndex b) _ fe fi)
    as [[info | fb1 fe1 fi1] | |] eqn:Hend; try discriminate.
  - apply (endLoop_mono _ _ _ _ _ (S fuel')) in Hend; [|lia].
    rewrite Hend. auto.
  - apply (endLoop_mono _ _ _ _ _ (S fuel')) in Hend; [|lia].
    rewrite Hend. apply IH. lia.
Qed.

Lemma getMashInfo_mono (doc beginTag : text) (expected : option text)
    (endTag : text) (fuel fuel' : nat) (info : MashInfo) :
  fuel <= fuel' ->
  _getMashInfo doc beginTag expected endTag fuel = Ret info ->
  _getMashInfo doc beginTag expected endTag fuel' = Ret info.
Proof.
  intros Hle. unfold _getMashInfo.
  destruct (beginLoop doc beginTag expected endTag fuel 0 None None Unmashed)
    as [r| |] eqn:Hr; try discriminate.
  rewrite (beginLoop_mono _ _ _ _ _ _ _ _ _ _ _ Hle Hr). auto.
Qed.

Lemma mash_of_info (fuel : nat) (doc beginTag sourceText endTag : text)
    (info : MashInfo) :
  _getMashInfo doc beginTag None endTag fuel = Ret info ->
  exists result, mash fuel doc beginTag sourceText endTag = Ret result.
Proof.
  intros H. rewrite (mash_dispatch _ _ _ sourceText _ _ H).
  pose proof (getMashInfo_None_not_tampered fuel doc beginTag endTag info H)
    as Hst.
  revert Hst. clear H. destruct (state info); eauto. congruence.
Qed.

Lemma mash_mono (fuel fuel' : nat) (doc beginTag sourceText endTag result : text) :
  fuel <= fuel' ->
  mash fuel doc beginTag sourceText endTag = Ret result ->
  mash fuel' doc beginTag sourceText endTag = Ret result.
Proof.
  intros Hle. unfold mash.
  destruct (_getMashInfo doc beginTag None endTag fuel) as [info| |] eqn:Hinfo;
    try discriminate.
  now rewrite (getMashInfo_mono _ _ _ _ _ _ _ Hle Hinfo).
Qed.

Lemma textIsMashed_mono (fuel fuel' : nat) (doc beginTag sourceText endTag : text)
    (answer : bool) :
  fuel <= fuel' ->
  textIsMashed fuel doc beginTag sourceText endTag = Ret answer ->
  textIsMashed fuel' doc beginTag sourceText endTag = Ret answer.
Proof.
  intros Hle. unfold textIsMashed.
  destruct (_getMashInfo doc beginTag (Some sourceText) endTag fuel)
    as [info| |] eqn:Hinfo; try discriminate.
  now rewrite (getMashInfo_mono _ _ _ _ _ _ _ Hle Hinfo).
Qed.

(** Two runs that return, return the same. *)
Lemma textIsMashed_det (fuel fuel' : nat) (doc beginTag sourceText endTag : text)
    (a a' : bool) :
  textIsMashed fuel doc beginTag sourceText endTag = Ret a ->
  textIsMashed fuel' doc beginTag sourceText endTag = Ret a' ->
  a = a'.
Proof.
  intros H H'.
  apply (textIsMashed_mono _ (Nat.max fuel fuel')) in H; [|apply Nat.le_max_l].
  apply (textIsMashed_mono _ (Nat.max fuel fuel')) in H'; [|apply Nat.le_max_r].
  congruence.
Qed.

(** ** C8 *)

(** C8: [_getMashInfo] called without an expected source text never
    returns the state [SourceTextTampered], and [mash] never fails an
    assertion, the [assert(false)] of that state included; with non-empty
    tags [mash] returns a document under every bound above the length of
    the document. *)
Theorem C8_never_tampered (fuel : nat) (doc beginTag endTag : text) :
  (forall info,
      _getMashInfo doc beginTag None endTag fuel = Ret info ->
      state info <> SourceTextTampered) /\
  (forall sourceText, mash fuel doc beginTag sourceText endTag <> AssertFail) /\
  (beginTag <> [] -> endTag <> [] -> length doc < fuel ->
   forall sourceText,
     exists result, mash fuel doc beginTag sourceText endTag = Ret result).
Proof.
  split; [apply getMashInfo_None_not_tampered|]. split.
  - intros sourceText.
    destruct (_getMashInfo doc beginTag None endTag fuel) as [info| |] eqn:Hinfo.
    + rewrite (mash_dispatch _ _ _ _ _ _ Hinfo).
      pose proof (getMashInfo_None_not_tampered _ _ _ _ _ Hinfo) as Hst.
      destruct (state info); congruence.
    + now apply getMashInfo_no_assert in Hinfo.
    + unfold mash. rewrite Hinfo. discriminate.
  - intros Hb He Hfuel sourceText.
    destruct (getMashInfo_terminates doc beginTag None endTag Hb He fuel Hfuel)
      as [info Hinfo].
    exact (mash_of_info _ _ _ sourceText _ _ Hinfo).
Qed.

Lemma C8_never_tampered_witness :
  _getMashInfo (T "<b>tampered(11f6ad8ec52a2984abaafd7c3b516503785c2072)")
               (T "<b>") None (T "(%fingerprint%)") 60
  = Ret (Info FingerprintInvalid (Some 0) (Some 3) (Some 11) (Some 53)) /\
  FingerprintInvalid <> SourceTextTampered.
Proof.
  split; [vm_compute; reflexivity|].
  exact (proj1 (C8_never_tampered 60
                  (T "<b>tampered(11f6ad8ec52a2984abaafd7c3b516503785c2072)")
                  (T "<b>") (T "(%fingerprint%)"))
               (Info FingerprintInvalid (Some 0) (Some 3) (Some 11) (Some 53))
               ltac:(vm_compute; reflexivity)).
Defined.

(** With the expected source text supplied, the same document is reported
    tampered. *)
Example tampered_with_expected :
  _getMashInfo (T "<b>tampered(11f6ad8ec52a2984abaafd7c3b516503785c2072)")
               (T "<b>") (Some (T "x")) (T "(%fingerprint%)") 60
  = Ret (Info SourceTextTampered (Some 0) (Some 3) (Some 11) (Some 53)).
Proof. vm_compute. reflexivity. Qed.

(** ** C9 *)

(** C9, amended: with a non-empty begin tag and a non-empty end-tag
    template, [_getMashInfo], [mash] and [textIsMashed] return, and return
    the same value, under every bound above the length of the document:
    neither loop runs more than [length doc + 1] times. *)
Theorem C9_terminates (doc beginTag sourceText endTag : text)
    (expected : option text) :
  beginTag <> [] -> endTag <> [] ->
  exists info result answer,
    forall fuel, length doc < fuel ->
      _getMashInfo doc beginTag expected endTag fuel = Ret info /\
      mash fuel doc beginTag sourceText endTag = Ret result /\
      textIsMashed fuel doc beginTag sourceText endTag = Ret answer.
Proof.
  intros Hb He.
  destruct (getMashInfo_terminates doc beginTag expected endTag Hb He
              (S (length doc))) as [info Hinfo]; [lia|].
  destruct (getMashInfo_terminates doc beginTag None endTag Hb He
              (S (length doc))) as [info0 Hinfo0]; [lia|].
  destruct (getMashInfo_terminates doc beginTag (Some sourceText) endTag Hb He
              (S (length doc))) as [info1 Hinfo1]; [lia|].
  destruct (mash_of_info _ _ _ sourceText _ _ Hinfo0) as [result Hres].
  exists info, result, (MashState_eqb (state info1) Mashed).
  intros fuel Hfuel.
  split; [|split].
  - apply (getMashInfo_mono _ _ _ _ (S (length doc))); [lia | exact Hinfo].
  - apply (mash_mono (S (length doc))); [lia | exact Hres].
  - apply (textIsMashed_mono (S (length doc))); [lia|].
    unfold textIsMashed. now rewrite Hinfo1.
Qed.

Lemma C9_terminates_witness :
  T "<b>" <> [] /\ T "(%fingerprint%)" <> [] /\
  exists info result answer,
    forall fuel, length (T "ab<b>x") < fuel ->
      _getMashInfo (T "ab<b>x") (T "<b>") None (T "(%fingerprint%)") fuel
      = Ret info /\
      mash fuel (T "ab<b>x") (T "<b>") (T "y") (T "(%fingerprint%)")
      = Ret result /\
      textIsMashed fuel (T "ab<b>x") (T "<b>") (T "y") (T "(%fingerprint%)")
      = Ret answer.
Proof.
  split; [discriminate|]. split; [discriminate|].
  apply (C9_terminates (T "ab<b>x") (T "<b>") (T "y") (T "(%fingerprint%)") None);
    discriminate.
Defined.

(** With an empty begin tag the generator yields the occurrence at offset 0
    again and again: on a document without a valid pair the scan never
    ends. *)
Lemma empty_beginTag_loops (fuel : nat) :
  forall fb fe fi,
    beginLoop (T "abc") (T "") None (T "(%fingerprint%)") fuel 0 fb fe fi
    = OutOfFuel.
Proof.
  induction fuel as [|fuel IH]; intros fb fe fi; [reflexivity|].
  cbn [beginLoop].
  assert (Hb : beginTagNext (T "abc") (T "") 0 = Some (BeginOcc 0 0))
    by reflexivity.
  rewrite Hb. cbn [endLoop b_endIndex b_index].
  assert (He : endTagNext (T "abc") (T "(%fingerprint%)") 0 = None)
    by (vm_compute; reflexivity).
  rewrite He. apply IH.
Qed.

(** C9, as stated, fails: [mash] on the document [abc] with the empty begin
    tag returns under no bound. *)
Lemma C9_counterexample :
  ~ (exists fuel result,
        mash fuel (T "abc") (T "") (T "x") (T "(%fingerprint%)") = Ret result).
Proof.
  intros (fuel & result & H). unfold mash, _getMashInfo in H.
  rewrite empty_beginTag_loops in H. discriminate.
Qed.

(** ** The scan as a search through the pairs *)

Lemma find_app_case {A : Type} (f : A -> bool) (l1 l2 : list A) :
  find f (l1 ++ l2) =
  match find f l1 with
  | Some x => Some x
  | None => find f l2
  end.
Proof.
  induction l1 as [|x l1 IH]; simpl; [reflexivity|].
  now destruct (f x).
Qed.

Lemma find_map_pair {A B : Type} (f : A * B -> bool) (a : A) (l : list B) :
  find f (map (pair a) l) = option_map (pair a) (find (fun y => f (a, y)) l).
Proof.
  induction l as [|y l IH]; simpl; [reflexivity|].
  now destruct (f (a, y)).
Qed.

Lemma find_In_Some {A : Type} (f : A -> bool) (l : list A) (x : A) :
  In x l -> f x = true -> exists y, find f l = Some y.
Proof.
  induction l as [|z l IH]; simpl; [tauto|].
  intros [-> | Hin] Hx.
  - rewrite Hx. eauto.
  - destruct (f z); eauto.
Qed.

Lemma map_snd_pair {A B : Type} (a : A) (l : list B) :
  map snd (map (pair a) l) = l.
Proof. induction l; simpl; congruence. Qed.

Lemma firstEndOf_app (fe : option EndTagOccurrence)
    (l1 l2 : list EndTagOccurrence) :
  firstEndOf (firstEndOf fe l1) l2 = firstEndOf fe (l1 ++ l2).
Proof. destruct fe; [reflexivity|]. now destruct l1. Qed.

Lemma invalidStateOf_fail (doc : text) (expected : option text)
    (p : BeginTagOccurrence * EndTagOccurrence) :
  passes doc expected p = false ->
  invalidStateOf doc expected p = SourceTextTampered \/
  invalidStateOf doc expected p = FingerprintInvalid.
Proof.
  unfold passes, invalidStateOf.
  destruct (sourceTextTampered doc expected (fst p) (snd p)); [now left|].
  destruct (fingerprintInvalid doc (fst p) (snd p)); [now right | discriminate].
Qed.

Lemma firstInvalidOf_app (doc : text) (expected : option text) (fi : MashState)
    (l1 l2 : list (BeginTagOccurrence * EndTagOccurrence)) :
  find (passes doc expected) l1 = None ->
  firstInvalidOf doc expected (firstInvalidOf doc expected fi l1) l2
  = firstInvalidOf doc expected fi (l1 ++ l2).
Proof.
  intros Hnone. destruct l1 as [|p l1]; simpl.
  - now destruct fi.
  - simpl in Hnone. destruct (passes doc expected p) eqn:Hp; [discriminate|].
    destruct fi; try reflexivity. simpl.
    destruct (invalidStateOf_fail _ _ _ Hp) as [-> | ->]; reflexivity.
Qed.

Section Characterisation.

Variable doc beginTag : text.
Variable expected : option text.
Variable endTag : text.

Hypothesis beginTag_nonempty : beginTag <> [].
Hypothesis endTag_nonempty : endTag <> [].

Lemma endTagOccurrences_stable (f1 : nat) :
  forall f2 index,
    index <= length doc -> length doc - index < f1 -> length doc - index < f2 ->
    endTagOccurrences f1 doc endTag index = endTagOccurrences f2 doc endTag index.
Proof.
  pose proof (endTagRegExp_length_pos endTag endTag_nonempty) as Hpos.
  induction f1 as [|f1 IH]; intros f2 index Hidx H1 H2; [lia|].
  destruct f2 as [|f2]; [lia|]. simpl.
  destruct (endTagNext doc endTag index) as [e|] eqn:He; [|reflexivity].
  apply endTagNext_Some in He as (He1 & He2 & He3 & _); [|exact Hidx].
  f_equal. apply IH; lia.
Qed.

Lemma beginTagOccurrences_stable (f1 : nat) :
  forall f2 index,
    index <= length doc -> length doc - index < f1 -> length doc - index < f2 ->
    beginTagOccurrences f1 doc beginTag index
    = beginTagOccurrences f2 doc beginTag index.
Proof.
  pose proof (beginTag_length_pos beginTag beginTag_nonempty) as Hpos.
  induction f1 as [|f1 IH]; intros f2 index Hidx H1 H2; [lia|].
  destruct f2 as [|f2]; [lia|]. simpl.
  destruct (beginTagNext doc beginTag index) as [b|] eqn:Hb; [|reflexivity].
  apply beginTagNext_Some in Hb as (Hb1 & Hb2 & [Hb3 _] & _).
  rewrite Nat.min_l in Hb1 by exact Hidx.
  f_equal. apply IH; lia.
Qed.

Lemma endTagOccurrences_S (fuel index : nat) :
  endTagOccurrences (S fuel) doc endTag index =
  match endTagNext doc endTag index with
  | None => []
  | Some e => e :: endTagOccurrences fuel doc endTag (e_endIndex e)
  end.
Proof. reflexivity. Qed.

Lemma beginTagOccurrences_S (fuel index : nat) :
  beginTagOccurrences (S fuel) doc beginTag index =
  match beginTagNext doc beginTag index with
  | None => []
  | Some b => b :: beginTagOccurrences fuel doc beginTag (b_endIndex b)
  end.
Proof. reflexivity. Qed.

Lemma endTagOccurrences_step (index : nat) :
  index <= length doc ->
  endTagOccurrences (S (length doc)) doc endTag index =
  match endTagNext doc endTag index with
  | None => []
  | Some e => e :: endTagOccurrences (S (length doc)) doc endTag (e_endIndex e)
  end.
Proof.
  pose proof (endTagRegExp_length_pos endTag endTag_nonempty) as Hpos.
  intros Hidx. rewrite endTagOccurrences_S.
  destruct (endTagNext doc endTag index) as [e|] eqn:He; [|reflexivity].
  apply endTagNext_Some in He as (He1 & He2 & He3 & _); [|exact Hidx].
  f_equal. apply endTagOccurrences_stable; lia.
Qed.

Lemma pairsFrom_step (index : nat) :
  index <= length doc ->
  pairsFrom doc beginTag endTag index =
  match beginTagNext doc beginTag index with
  | None => []
  | Some b =>
      map (pair b)
          (endTagOccurrences (S (length doc)) doc endTag (b_endIndex b)) ++
      pairsFrom doc beginTag endTag (b_endIndex b)
  end.
Proof.
  pose proof (beginTag_length_pos beginTag beginTag_nonempty) as Hpos.
  intros Hidx. unfold pairsFrom. rewrite beginTagOccurrences_S.
  destruct (beginTagNext doc beginTag index) as [b|] eqn:Hb; [|reflexivity].
  apply beginTagNext_Some in Hb as (Hb1 & Hb2 & [Hb3 _] & _).
  rewrite Nat.min_l in Hb1 by exact Hidx.
  cbn [flat_map]. f_equal. f_equal.
  apply beginTagOccurrences_stable; lia.
Qed.

Lemma endLoop_char (b : BeginTagOccurrence) (fuel : nat) :
  forall index fb fe fi,
    index <= length doc -> length doc - index < fuel ->
    endLoop doc expected endTag fuel b index fb fe fi =
    Ret (let occs := endTagOccurrences (S (length doc)) doc endTag index in
         match find (fun e => passes doc expected (b, e)) occs with
         | Some e => Found (createInfo Mashed (Some b) (Some e))
         | None =>
             Exhausted fb (firstEndOf fe occs)
                       (firstInvalidOf doc expected fi (map (pair b) occs))
         end).
Proof.
  pose proof (endTagRegExp_length_pos endTag endTag_nonempty) as Hpos.
  induction fuel as [|fuel IH]; intros index fb fe fi Hidx Hfuel; [lia|].
  cbv zeta. rewrite endTagOccurrences_step by exact Hidx. cbn [endLoop].
  destruct (endTagNext doc endTag index) as [e|] eqn:He.
  - apply endTagNext_Some in He as (He1 & He2 & He3 & _); [|exact Hidx].
    cbn [find]. unfold passes at 1. cbn [fst snd].
    destruct (negb (sourceTextTampered doc expected b e) &&
              negb (fingerprintInvalid doc b e)) eqn:Hp; [reflexivity|].
    rewrite IH by lia. cbv zeta.
    destruct (find (fun e0 => passes doc expected (b, e0))
                (endTagOccurrences (S (length doc)) doc endTag (e_endIndex e)));
      [reflexivity|].
    f_equal. f_equal.
    + now destruct fe.
    + assert (Hfail : passes doc expected (b, e) = false) by exact Hp.
      pose proof (invalidStateOf_fail _ _ _ Hfail) as Hinv.
      cbn [map]. destruct fi; try reflexivity.
      cbn [firstInvalidOf]. unfold invalidStateOf in *. cbn [fst snd] in *.
      destruct Hinv as [-> | ->]; reflexivity.
  - cbn [find map]. f_equal. f_equal; [now destruct fe | now destruct fi].
Qed.

Lemma beginLoop_char (fuel : nat) :
  forall index fb fe fi,
    index <= length doc -> length doc - index < fuel ->
    beginLoop doc beginTag expected endTag fuel index fb fe fi =
    Ret (let pairs := pairsFrom doc beginTag endTag index in
         match find (passes doc expected) pairs with
         | Some (b, e) => Found (createInfo Mashed (Some b) (Some e))
         | None =>
             Exhausted
               (match fb with
                | Some _ => fb
                | None => beginTagNext doc beginTag index
                end)
               (firstEndOf fe (map snd pairs))
               (firstInvalidOf doc expected fi pairs)
         end).
Proof.
  pose proof (beginTag_length_pos beginTag beginTag_nonempty) as Hpos.
  induction fuel as [|fuel IH]; intros index fb fe fi Hidx Hfuel; [lia|].
  cbv zeta. rewrite pairsFrom_step by exact Hidx. cbn [beginLoop].
  destruct (beginTagNext doc beginTag index) as [b|] eqn:Hb.
  - apply beginTagNext_Some in Hb as (Hb1 & Hb2 & [Hb3 _] & _).
    rewrite Nat.min_l in Hb1 by exact Hidx.
    rewrite endLoop_char by lia. cbv zeta.
    rewrite find_app_case, find_map_pair.
    destruct (find (fun y => passes doc expected (b, y))
                (endTagOccurrences (S (length doc)) doc endTag (b_endIndex b)))
      as [e|] eqn:Hfind; cbn [option_map]; [reflexivity|].
    rewrite <- Hb2. rewrite IH by lia. cbv zeta.
    destruct (find (passes doc expected)
                (pairsFrom doc beginTag endTag (b_endIndex b))) as [[b' e']|];
      [reflexivity|].
    f_equal. f_equal.
    + now destruct fb.
    + rewrite map_app, map_snd_pair. apply firstEndOf_app.
    + apply firstInvalidOf_app. rewrite find_map_pair, Hfind. reflexivity.
  - cbn [find map]. f_equal.
    f_equal; [now destruct fb | now destruct fe | now destruct fi].
Qed.

Lemma getMashInfo_char (fuel : nat) :
  length doc < fuel ->
  _getMashInfo doc beginTag expected endTag fuel
  = Ret (locateSpec doc beginTag expected endTag).
Proof.
  intros Hfuel. unfold _getMashInfo, locateSpec, firstValidPair, candidatePairs.
  rewrite beginLoop_char by lia. cbv zeta.
  destruct (find (passes doc expected) (pairsFrom doc beginTag endTag 0))
    as [[b e]|]; [reflexivity|].
  rewrite pairsFrom_step by lia. cbn [beginTagOccurrences].
  destruct (beginTagNext doc beginTag 0) as [b|] eqn:Hb.
  - destruct (map (pair b)
                (endTagOccurrences (S (length doc)) doc endTag (b_endIndex b)) ++
              pairsFrom doc beginTag endTag (b_endIndex b)) as [|p pairs];
      reflexivity.
  - cbn [map firstEndOf hd_error firstInvalidOf].
    now destruct (endTagNext doc endTag 0).
Qed.

End Characterisation.

(** ** What the enumerated occurrences are *)

Lemma beginTagOccurrences_In (doc beginTag : text) (fuel : nat) :
  forall index b,
    index <= length doc ->
    In b (beginTagOccurrences fuel doc beginTag index) ->
    index <= b_index b /\ occurs_at beginTag doc (b_index b) /\
    b_endIndex b = b_index b + length beginTag.
Proof.
  induction fuel as [|fuel IH]; intros index b Hidx; simpl; [tauto|].
  destruct (beginTagNext doc beginTag index) as [b0|] eqn:Hb; [|simpl; tauto].
  apply beginTagNext_Some in Hb as (H1 & H2 & H3 & _).
  rewrite Nat.min_l in H1 by exact Hidx.
  intros [<- | Hin]; [auto|].
  pose proof H3 as [Hfit _].
  apply IH in Hin; [|lia]. destruct Hin as (Hi & Hrest). split; [lia | exact Hrest].
Qed.

Lemma endTagOccurrences_In (doc endTag : text) (fuel : nat) :
  forall index e,
    index <= length doc ->
    In e (endTagOccurrences fuel doc endTag index) ->
    index <= e_index e /\
    e_endIndex e = e_index e + regexp_length (endTagRegExp endTag) /\
    e_endIndex e <= length doc /\
    exists m, match_here (endTagRegExp endTag) (skipn (e_index e) doc)
              = Some (m, e_fingerprint e).
Proof.
  induction fuel as [|fuel IH]; intros index e Hidx; simpl; [tauto|].
  destruct (endTagNext doc endTag index) as [e0|] eqn:He; [|simpl; tauto].
  apply endTagNext_Some in He as (H1 & H2 & H3 & H4 & _); [|exact Hidx].
  intros [<- | Hin]; [auto|].
  apply IH in Hin; [|lia]. destruct Hin as (Hi & Hrest). split; [lia | exact Hrest].
Qed.

Lemma candidatePairs_In (doc beginTag endTag : text)
    (b : BeginTagOccurrence) (e : EndTagOccurrence) :
  In (b, e) (candidatePairs doc beginTag endTag) ->
  occurs_at beginTag doc (b_index b) /\
  b_endIndex b = b_index b + length beginTag /\
  b_endIndex b <= e_index e /\
  matches_at (endTagRegExp endTag) doc (e_index e) /\
  e_endIndex e = e_index e + regexp_length (endTagRegExp endTag) /\
  e_endIndex e <= length doc /\
  exists m, match_here (endTagRegExp endTag) (skipn (e_index e) doc)
            = Some (m, e_fingerprint e).
Proof.
  unfold candidatePairs, pairsFrom. rewrite in_flat_map.
  intros (b' & Hb & Hin). apply in_map_iff in Hin as (e' & [= <- <-] & He).
  apply beginTagOccurrences_In in Hb as (_ & Ho & Hend); [|lia].
  pose proof Ho as [Hfit _].
  apply endTagOccurrences_In in He as (H1 & H2 & H3 & [m H4]); [|lia].
  repeat split; try assumption; try lia.
  - apply Ho.
  - rewrite H4. discriminate.
  - now exists m.
Qed.


Lemma locateSpec_not_Mashed (doc beginTag : text) (expected : option text)
    (endTag : text) :
  firstValidPair doc beginTag expected endTag = None ->
  state (locateSpec doc beginTag expected endTag) <> Mashed.
Proof.
  intros Hnone. unfold locateSpec. rewrite Hnone.
  destruct (beginTagOccurrences (S (length doc)) doc beginTag 0) as [|b bs].
  - destruct (endTagNext doc endTag 0); discriminate.
  - destruct (candidatePairs doc beginTag endTag) as [|p ps] eqn:Hp;
      [discriminate|].
    cbn [state createInfo]. unfold firstValidPair in Hnone.
    rewrite Hp in Hnone. cbn [find] in Hnone.
    destruct (passes doc expected p) eqn:Hpass; [discriminate|].
    destruct (invalidStateOf_fail _ _ _ Hpass) as [-> | ->]; discriminate.
Qed.


(** ** The end tag [mash] writes matches the end-tag pattern *)

Lemma prefixb_map_Lit (p s : text) :
  prefixb atom_eqb (map Lit p) (map Lit s) = prefixb Ascii.eqb p s.
Proof.
  revert s. induction p as [|c p IH]; intros [|d s]; simpl; try reflexivity.
  now rewrite IH.
Qed.

Lemma indexOf_aux_map_Lit (p s : text) (i : nat) :
  indexOf_aux atom_eqb (map Lit p) (map Lit s) i = indexOf_aux Ascii.eqb p s i.
Proof.
  revert i. induction s as [|d s IH]; intros i.
  - pose proof (prefixb_map_Lit p []) as H. cbn [map] in H.
    cbn [indexOf_aux map]. now rewrite H.
  - pose proof (prefixb_map_Lit p (d :: s)) as H. cbn [map] in H.
    cbn [indexOf_aux map]. now rewrite H, IH.
Qed.

Lemma indexOf_map_Lit (s p : text) (from : nat) :
  indexOf atom_eqb (map Lit s) (map Lit p) from = indexOf Ascii.eqb s p from.
Proof.
  unfold indexOf. rewrite length_map, skipn_map. apply indexOf_aux_map_Lit.
Qed.

Lemma placeholder_split (endTag : text) :
  hasPlaceholder endTag ->
  exists pre post,
    endTag = pre ++ FINGERPRINT_PLACEHOLDER ++ post /\
    (forall r, replace Ascii.eqb endTag FINGERPRINT_PLACEHOLDER r
               = pre ++ r ++ post) /\
    endTagRegExp endTag
    = map Lit pre ++ HexGroup FINGERPRINT_VALUE_IN_HEX_LENGTH :: map Lit post.
Proof.
  intros [q Hq].
  destruct (indexOf Ascii.eqb endTag FINGERPRINT_PLACEHOLDER 0) as [i|] eqn:Hi.
  - pose proof (indexOf_Some _ _ _ _ _ _ Hi) as (_ & Hl & Hp & _).
    apply (prefixb_app _ _ ascii_eqb_spec) in Hp as [post Hpost].
    exists (firstn i endTag), post.
    assert (Hskip : skipn (i + length FINGERPRINT_PLACEHOLDER) endTag = post).
    { rewrite Nat.add_comm, <- skipn_skipn, Hpost.
      rewrite skipn_app, skipn_all, Nat.sub_diag. reflexivity. }
    split; [|split].
    + rewrite <- Hpost. symmetry. apply firstn_skipn.
    + intros r. unfold replace. now rewrite Hi, Hskip.
    + unfold endTagRegExp, replace, escapeStringRegexp.
      rewrite indexOf_map_Lit, Hi, length_map, firstn_map, skipn_map, Hskip.
      reflexivity.
  - exfalso. apply occurs_at_prefixb in Hq as [Hl Hp].
    rewrite (indexOf_None _ _ _ _ _ Hi q) in Hp; [discriminate | | exact Hl].
    rewrite Nat.min_0_l. lia.
Qed.

Lemma match_here_Lit_app (a : text) (re : regexp) (s : text) :
  match_here (map Lit a ++ re) (a ++ s) =
  match match_here re s with
  | Some (m, g) => Some (a ++ m, g)
  | None => None
  end.
Proof.
  induction a as [|c a IH]; simpl.
  - now destruct (match_here re s) as [[m g]|].
  - rewrite Ascii.eqb_refl, IH. now destruct (match_here re s) as [[m g]|].
Qed.

Lemma match_here_Lit (s rest : text) :
  match_here (map Lit s) (s ++ rest) = Some (s, None).
Proof.
  rewrite <- (app_nil_r (map Lit s)), match_here_Lit_app. simpl.
  now rewrite app_nil_r.
Qed.

(** An end tag with any 40 hexadecimal characters in the place of the
    placeholder is matched, and the characters are captured. *)
Lemma match_here_end_tag (pre post h rest : text) :
  length h = FINGERPRINT_VALUE_IN_HEX_LENGTH ->
  forallb isHexDigit h = true ->
  match_here (map Lit pre ++ HexGroup FINGERPRINT_VALUE_IN_HEX_LENGTH :: map Lit post)
             (pre ++ h ++ post ++ rest)
  = Some (pre ++ h ++ post, Some h).
Proof.
  intros Hlen Hhex. rewrite match_here_Lit_app. cbn [match_here].
  rewrite firstn_app, <- Hlen, Nat.sub_diag, firstn_all. simpl firstn.
  rewrite app_nil_r, Nat.eqb_refl, Hhex. cbn [andb].
  rewrite skipn_app, skipn_all, Nat.sub_diag. simpl skipn.
  cbn [app]. now rewrite match_here_Lit.
Qed.

(** ** Occurrences the scan is sure to visit *)

Lemma beginTagOccurrences_reach (doc beginTag : text) :
  beginTag <> [] ->
  forall fuel index p,
    index <= p -> occurs_at beginTag doc p ->
    (forall q, index <= q -> q < p -> occurs_at beginTag doc q ->
               q + length beginTag <= p) ->
    p - index < fuel ->
    In (BeginOcc p (p + length beginTag))
       (beginTagOccurrences fuel doc beginTag index).
Proof.
  intros Hne. pose proof (beginTag_length_pos beginTag Hne) as Hpos.
  induction fuel as [|fuel IH]; intros index p Hip Hocc Hstr Hfuel; [lia|].
  simpl. pose proof Hocc as [Hfit _].
  destruct (beginTagNext doc beginTag index) as [b|] eqn:Hb.
  - apply beginTagNext_Some in Hb as (H1 & H2 & H3 & H4).
    rewrite Nat.min_l in H1, H4 by lia.
    destruct (Nat.lt_trichotomy (b_index b) p) as [Hlt | [Heq | Hgt]].
    + right. pose proof (Hstr (b_index b) H1 Hlt H3) as Hnext.
      apply IH; try assumption; try lia.
      intros q Hq1 Hq2. apply Hstr; lia.
    + left. destruct b as [bi be]. simpl in *. subst. reflexivity.
    + exfalso. now apply (H4 p).
  - exfalso. now apply (beginTagNext_None _ _ _ Hb p).
Qed.

Lemma endTagOccurrences_reach (doc endTag : text) :
  endTag <> [] ->
  forall fuel index j m g,
    index <= j -> j <= length doc ->
    match_here (endTagRegExp endTag) (skipn j doc) = Some (m, g) ->
    (forall q, index <= q -> q < j -> matches_at (endTagRegExp endTag) doc q ->
               q + regexp_length (endTagRegExp endTag) <= j) ->
    j - index < fuel ->
    In (EndOcc j (j + regexp_length (endTagRegExp endTag)) g)
       (endTagOccurrences fuel doc endTag index).
Proof.
  intros Hne. pose proof (endTagRegExp_length_pos endTag Hne) as Hpos.
  induction fuel as [|fuel IH]; intros index j m g Hij Hj Hm Hstr Hfuel; [lia|].
  simpl.
  destruct (endTagNext doc endTag index) as [e|] eqn:He.
  - apply endTagNext_Some in He as (H1 & H2 & H3 & [m' H4] & H5); [|lia].
    destruct (Nat.lt_trichotomy (e_index e) j) as [Hlt | [Heq | Hgt]].
    + right.
      assert (Hmatch : matches_at (endTagRegExp endTag) doc (e_index e)).
      { split; [lia|]. rewrite H4. discriminate. }
      pose proof (Hstr (e_index e) H1 Hlt Hmatch) as Hnext.
      apply (IH _ _ m); try assumption; try lia.
      intros q Hq1 Hq2. apply Hstr; lia.
    + left. destruct e as [ei ee ef]. simpl in *. subst.
      rewrite Hm in H4. now injection H4 as _ <-.
    + exfalso. rewrite H5 in Hm by lia. discriminate.
  - exfalso. rewrite (endTagNext_None _ _ _ He j) in Hm by lia. discriminate.
Qed.

(** ** A written block is found again *)

Section BlockDetected.

Variable X Y beginTag sourceText endTag : text.

Let doc : text := X ++ mashBlock beginTag sourceText endTag ++ Y.
Let bx : nat := length X.
Let px : nat := length X + length beginTag.
Let ex : nat := length X + length beginTag + length sourceText.

Hypothesis beginTag_nonempty : beginTag <> [].
Hypothesis endTag_placeholder : hasPlaceholder endTag.

Lemma block_begin_occurs : occurs_at beginTag doc bx.
Proof.
  unfold doc, mashBlock, bx. rewrite <- app_assoc. apply occurs_at_app.
Qed.

Lemma block_skipn_end :
  skipn ex doc = materializedEndTag endTag sourceText ++ Y.
Proof.
  unfold doc, mashBlock, ex.
  replace (X ++ (beginTag ++ sourceText ++ materializedEndTag endTag sourceText) ++ Y)
    with ((X ++ beginTag ++ sourceText) ++
          materializedEndTag endTag sourceText ++ Y)
    by (repeat rewrite <- app_assoc; reflexivity).
  rewrite skipn_app.
  replace (length X + length beginTag + length sourceText)
    with (length (X ++ beginTag ++ sourceText))
    by (repeat rewrite length_app; lia).
  now rewrite skipn_all, Nat.sub_diag.
Qed.

Lemma block_length :
  length doc = ex + length (materializedEndTag endTag sourceText) + length Y.
Proof.
  unfold doc, mashBlock, ex. repeat rewrite length_app. lia.
Qed.

Lemma block_end_matches :
  match_here (endTagRegExp endTag) (skipn ex doc)
  = Some (materializedEndTag endTag sourceText, Some (_fingerprint sourceText)).
Proof.
  rewrite block_skipn_end.
  destruct (placeholder_split endTag endTag_placeholder)
    as (pre & post & _ & Hmat & Hre).
  unfold materializedEndTag. rewrite Hre, Hmat. repeat rewrite <- app_assoc.
  apply match_here_end_tag; [apply fingerprint_length | apply fingerprint_hex].
Qed.

Lemma block_payload :
  potentialSourceText doc (BeginOcc bx px)
    (EndOcc ex (ex + regexp_length (endTagRegExp endTag))
            (Some (_fingerprint sourceText)))
  = sourceText.
Proof.
  unfold potentialSourceText. cbn [b_endIndex e_index].
  rewrite substring_le; [| unfold px, ex; lia | rewrite block_length; lia].
  unfold doc, mashBlock, px, ex.
  replace (X ++ (beginTag ++ sourceText ++ materializedEndTag endTag sourceText) ++ Y)
    with ((X ++ beginTag) ++
          sourceText ++ materializedEndTag endTag sourceText ++ Y)
    by (repeat rewrite <- app_assoc; reflexivity).
  rewrite skipn_app.
  replace (length X + length beginTag) with (length (X ++ beginTag))
    by (rewrite length_app; lia).
  rewrite skipn_all, Nat.sub_diag. cbn [skipn app].
  replace (length (X ++ beginTag) + length sourceText - length (X ++ beginTag))
    with (length sourceText) by lia.
  rewrite firstn_app, Nat.sub_diag, firstn_all. simpl. apply app_nil_r.
Qed.

Lemma block_passes (expected : option text) :
  expected = None \/ expected = Some sourceText ->
  passes doc expected
    (BeginOcc bx px,
     EndOcc ex (ex + regexp_length (endTagRegExp endTag))
            (Some (_fingerprint sourceText))) = true.
Proof.
  intros Hexp. unfold passes, sourceTextTampered, fingerprintInvalid.
  cbn [fst snd e_fingerprint]. rewrite block_payload.
  rewrite text_eqb_refl. destruct Hexp as [-> | ->]; [reflexivity|].
  now rewrite text_eqb_refl.
Qed.

Lemma endTag_nonempty_of_placeholder : endTag <> [].
Proof.
  destruct (placeholder_split endTag endTag_placeholder) as (pre & post & H & _).
  rewrite H. intros Hnil. apply app_eq_nil in Hnil as [_ Hnil]. discriminate.
Qed.

Lemma block_in_pairs :
  beginClear doc beginTag bx -> endClear doc endTag px ex ->
  In (BeginOcc bx px,
      EndOcc ex (ex + regexp_length (endTagRegExp endTag))
             (Some (_fingerprint sourceText)))
     (candidatePairs doc beginTag endTag).
Proof.
  intros Hb He. unfold candidatePairs, pairsFrom. apply in_flat_map.
  exists (BeginOcc bx px). split.
  - apply beginTagOccurrences_reach; try assumption; try lia.
    + apply block_begin_occurs.
    + intros q _ Hq Ho. now apply Hb.
    + rewrite block_length. unfold bx, ex. lia.
  - apply in_map. cbn [b_endIndex].
    apply (endTagOccurrences_reach doc endTag endTag_nonempty_of_placeholder
             _ _ _ (materializedEndTag endTag sourceText)).
    + unfold px, ex. lia.
    + rewrite block_length. lia.
    + apply block_end_matches.
    + intros q Hq1 Hq2 Hm. now apply He.
    + rewrite block_length. unfold px, ex. lia.
Qed.

Lemma block_detected (expected : option text) (fuel : nat) :
  expected = None \/ expected = Some sourceText ->
  beginClear doc beginTag bx -> endClear doc endTag px ex ->
  length doc < fuel ->
  exists info,
    _getMashInfo doc beginTag expected endTag fuel = Ret info /\
    state info = Mashed.
Proof.
  intros Hexp Hb He Hfuel.
  rewrite (getMashInfo_char doc beginTag expected endTag beginTag_nonempty
             endTag_nonempty_of_placeholder fuel Hfuel).
  eexists. split; [reflexivity|].
  unfold locateSpec, firstValidPair.
  destruct (find_In_Some (passes doc expected) _ _
              (block_in_pairs Hb He) (block_passes expected Hexp)) as [[b e] Hf].
  now rewrite Hf.
Qed.

End BlockDetected.

(** ** Where [mash] writes *)

Lemma mash_shape (fuel : nat) (doc beginTag sourceText endTag : text)
    (info : MashInfo) :
  _getMashInfo doc beginTag None endTag fuel = Ret info ->
  exists i j,
    spliceSpan info doc = (i, j) /\ i <= j /\ j <= length doc /\
    mash fuel doc beginTag sourceText endTag
    = Ret (firstn i doc ++ mashBlock beginTag sourceText endTag ++ skipn j doc).
Proof.
  intros Hinfo.
  pose proof (getMashInfo_cases _ _ _ _ _ _ Hinfo) as Hcase.
  destruct Hcase as [b e H1 H2 H3 H4 H5 H6 | H1 H2 | e H1 H2 | b H1 | b e fi H1 H2 H3].
  - destruct H1 as [H1 _].
    exists (b_index b), (e_endIndex e).
    rewrite (mash_dispatch _ _ _ sourceText _ _ Hinfo).
    cbn [state createInfo beginTagIndex endOfEndTagIndex option_map].
    rewrite replace_span by lia. repeat split; try lia; reflexivity.
  - exists (length doc), (length doc).
    rewrite (mash_dispatch _ _ _ sourceText _ _ Hinfo).
    cbn [state createInfo]. rewrite firstn_all, skipn_all, app_nil_r. auto.
  - apply endTagNext_Some in H2 as (_ & _ & H2 & _); [|lia].
    exists (e_endIndex e), (e_endIndex e).
    rewrite (mash_dispatch _ _ _ sourceText _ _ Hinfo).
    cbn [state createInfo endOfEndTagIndex option_map].
    rewrite insertText_Some. auto.
  - apply beginTagNext_Some in H1 as (_ & _ & [H1 _] & _).
    exists (b_index b), (b_index b).
    rewrite (mash_dispatch _ _ _ sourceText _ _ Hinfo).
    cbn [state createInfo beginTagIndex option_map].
    rewrite insertText_Some. repeat split; try lia; reflexivity.
  - apply beginTagNext_Some in H1 as (_ & _ & [H1 _] & _).
    rewrite (mash_dispatch _ _ _ sourceText _ _ Hinfo).
    apply stateStep_None_not_tampered in H3 as [-> | ->].
    + exists (length doc), (length doc).
      cbn [state createInfo]. rewrite firstn_all, skipn_all, app_nil_r. auto.
    + exists (b_index b), (b_index b).
      cbn [state createInfo beginTagIndex option_map].
      rewrite insertText_Some. repeat split; try lia; reflexivity.
Qed.

(** ** A written block that is the first pair of the document *)

Section BlockFirst.

Variable X Y beginTag sourceText endTag : text.

Let doc : text := X ++ mashBlock beginTag sourceText endTag ++ Y.
Let bx : nat := length X.
Let px : nat := length X + length beginTag.
Let ex : nat := length X + length beginTag + length sourceText.

Hypothesis beginTag_nonempty : beginTag <> [].
Hypothesis endTag_placeholder : hasPlaceholder endTag.
Hypothesis no_begin_before : beginAbsent doc beginTag bx.
Hypothesis no_end_inside : endAbsent doc endTag px ex.

Lemma block_first_located (fuel : nat) :
  length doc < fuel ->
  _getMashInfo doc beginTag None endTag fuel
  = Ret (Info Mashed (Some bx) (Some px) (Some ex)
              (Some (ex + regexp_length (endTagRegExp endTag)))).
Proof.
  intros Hfuel.
  pose proof (endTag_nonempty_of_placeholder endTag endTag_placeholder) as Hne.
  pose proof (block_length X Y beginTag sourceText endTag) as Hlen.
  fold doc in Hlen. cbv zeta in Hlen.
  rewrite (getMashInfo_char doc beginTag None endTag beginTag_nonempty Hne
             fuel Hfuel).
  f_equal. unfold locateSpec, firstValidPair, candidatePairs.
  rewrite pairsFrom_step by (first [assumption | lia]).
  rewrite (beginTagNext_first doc beginTag 0 bx).
  - cbn [b_endIndex].
    rewrite endTagOccurrences_step; [| assumption |].
    + rewrite (endTagNext_first doc endTag (bx + length beginTag) ex
                 (materializedEndTag endTag sourceText)
                 (Some (_fingerprint sourceText))).
      * cbn [map app find].
        assert (Hp : passes doc None
                       (BeginOcc bx (bx + length beginTag),
                        EndOcc ex (ex + regexp_length (endTagRegExp endTag))
                               (Some (_fingerprint sourceText))) = true)
          by (apply (block_passes X Y beginTag sourceText endTag None);
              now left).
        rewrite Hp. reflexivity.
      * unfold bx, ex. lia.
      * unfold ex. lia.
      * apply (block_end_matches X Y beginTag sourceText endTag
                 endTag_placeholder).
      * intros q Hq1 Hq2.
        destruct (match_here (endTagRegExp endTag) (skipn q doc)) eqn:Hm;
          [|reflexivity].
        exfalso. apply (no_end_inside q); [exact Hq1 | exact Hq2 |].
        split; [unfold ex in *; lia|]. rewrite Hm. discriminate.
    + unfold bx. lia.
  - lia.
  - apply (block_begin_occurs X Y beginTag sourceText endTag).
  - intros q _ Hq. now apply no_begin_before.
Qed.

Lemma block_first_remash (fuel : nat) :
  length doc < fuel ->
  mash fuel doc beginTag sourceText endTag = Ret doc.
Proof.
  intros Hfuel.
  rewrite (mash_dispatch _ _ _ sourceText _ _ (block_first_located fuel Hfuel)).
  cbn [state beginTagIndex endOfEndTagIndex]. f_equal.
  pose proof (block_end_matches X Y beginTag sourceText endTag
                endTag_placeholder) as Hm.
  apply match_here_firstn in Hm as [_ Hl].
  unfold substring_to, substring_from.
  rewrite insertText_Some, substring_0, substringFrom_skipn.
  assert (Hpre : firstn bx doc = X).
  { unfold doc, bx. now rewrite firstn_app, Nat.sub_diag, firstn_all, app_nil_r. }
  assert (Hpost : skipn (ex + regexp_length (endTagRegExp endTag)) doc = Y).
  { rewrite <- Hl. unfold doc, ex.
    rewrite app_assoc, skipn_app.
    replace (length X + length beginTag + length sourceText +
             length (materializedEndTag endTag sourceText))
      with (length (X ++ mashBlock beginTag sourceText endTag))
      by (unfold mashBlock; repeat rewrite length_app; lia).
    now rewrite skipn_all, Nat.sub_diag. }
  rewrite Hpre, Hpost.
  rewrite firstn_app, skipn_app. unfold bx, doc.
  rewrite Nat.sub_diag, firstn_all, skipn_all. simpl.
  now rewrite app_nil_r.
Qed.

End BlockFirst.

(** ** A written block located with its source text expected *)

Section BlockExpected.

Variable X Y beginTag sourceText endTag : text.

Let doc : text := X ++ mashBlock beginTag sourceText endTag ++ Y.
Let bx : nat := length X.
Let px : nat := length X + length beginTag.
Let ex : nat := length X + length beginTag + length sourceText.
Let b : BeginTagOccurrence := BeginOcc bx px.
Let e : EndTagOccurrence :=
  EndOcc ex (ex + regexp_length (endTagRegExp endTag))
         (Some (_fingerprint sourceText)).

Hypothesis beginTag_nonempty : beginTag <> [].
Hypothesis endTag_placeholder : hasPlaceholder endTag.
Hypothesis no_begin_before : beginAbsent doc beginTag bx.
Hypothesis no_end_across : endClear doc endTag px ex.



End BlockExpected.

(** ** C3 *)



(** A whole earlier block inside the source text (a case of the test
    suite) does not move the boundaries either. *)
Example C3_block_inside_payload :
  _getMashInfo (T "ab<b><b>c(84a516841ba77a5b4648de2cd0dfcb30ea46dbb4)(73811187a149c9ed1aa8becf26743a05908632a2)")
               (T "<b>") (Some (T "<b>c(84a516841ba77a5b4648de2cd0dfcb30ea46dbb4)"))
               (T "(%fingerprint%)") 200
  = Ret (Info Mashed (Some 2) (Some 5) (Some 51) (Some 93)).
Proof. vm_compute. reflexivity. Qed.

(** A begin tag and an end tag with a wrong fingerprint inside the source
    text (the case of the test suite) do not move the boundaries. *)
Example C3_markers_inside_payload :
  _getMashInfo (T "<b>a<b>(0000000000000000000000000000000000000000)c(fc56e72416a6eff4db704edfc2b109e2112ca7e4)")
               (T "<b>") None (T "(%fingerprint%)") 100
  = Ret (Info Mashed (Some 0) (Some 3) (Some 50) (Some 92)).
Proof. vm_compute. reflexivity. Qed.

Lemma textIsMashed_of_info (fuel : nat) (doc beginTag sourceText endTag : text)
    (info : MashInfo) :
  _getMashInfo doc beginTag (Some sourceText) endTag fuel = Ret info ->
  textIsMashed fuel doc beginTag sourceText endTag
  = Ret (MashState_eqb (state info) Mashed).
Proof. intros H. unfold textIsMashed. now rewrite H. Qed.

Lemma beginAbsent_clear (doc beginTag : text) (i : nat) :
  beginAbsent doc beginTag i -> beginClear doc beginTag i.
Proof. intros H q Hq Ho. now apply H in Ho. Qed.

Lemma endAbsent_clear (doc endTag : text) (lo hi : nat) :
  endAbsent doc endTag lo hi -> endClear doc endTag lo hi.
Proof. intros H q Hq1 Hq2 Hm. now apply (H q) in Hm. Qed.

(** A block written at [X] is reported mashed for its source text. *)
Lemma written_block_mashed (X Y beginTag sourceText endTag : text) (fuel : nat) :
  beginTag <> [] -> hasPlaceholder endTag ->
  beginClear (X ++ mashBlock beginTag sourceText endTag ++ Y) beginTag (length X) ->
  endClear (X ++ mashBlock beginTag sourceText endTag ++ Y) endTag
           (length X + length beginTag)
           (length X + length beginTag + length sourceText) ->
  length (X ++ mashBlock beginTag sourceText endTag ++ Y) < fuel ->
  textIsMashed fuel (X ++ mashBlock beginTag sourceText endTag ++ Y)
               beginTag sourceText endTag = Ret true /\
  exists info,
    _getMashInfo (X ++ mashBlock beginTag sourceText endTag ++ Y)
                 beginTag None endTag fuel = Ret info /\
    state info = Mashed.
Proof.
  intros Hb He Hbc Hec Hfuel. split.
  - destruct (block_detected X Y beginTag sourceText endTag Hb He
                (Some sourceText) fuel (or_intror eq_refl) Hbc Hec Hfuel)
      as (info & Hinfo & Hst).
    rewrite (textIsMashed_of_info _ _ _ _ _ _ Hinfo), Hst. reflexivity.
  - exact (block_detected X Y beginTag sourceText endTag Hb He
             None fuel (or_introl eq_refl) Hbc Hec Hfuel).
Qed.

(** ** C1 *)

(** C1, amended: for a non-empty begin tag and an end-tag template that
    holds the placeholder, [mash] returns the document with the new block
    in the place of [[i, j)], the span the located state selects.  When in
    the result no begin-tag occurrence overlaps the new begin tag from the
    left, and no end-tag match starts in the new source text and ends
    after it, [textIsMashed] is true of the result for that source text
    and a second [mash] takes the replacing branch (state [Mashed]); when
    moreover no begin tag occurs before the new block and no end-tag match
    starts in the new source text, the second [mash] returns the document
    unchanged. *)
Theorem C1_remash (fuel : nat) (doc beginTag sourceText endTag : text) :
  beginTag <> [] -> hasPlaceholder endTag -> length doc < fuel ->
  exists info i j result,
    _getMashInfo doc beginTag None endTag fuel = Ret info /\
    spliceSpan info doc = (i, j) /\ i <= j /\ j <= length doc /\
    result = firstn i doc ++ mashBlock beginTag sourceText endTag ++ skipn j doc /\
    mash fuel doc beginTag sourceText endTag = Ret result /\
    (beginClear result beginTag i ->
     endClear result endTag (i + length beginTag)
              (i + length beginTag + length sourceText) ->
     forall fuel', length result < fuel' ->
       textIsMashed fuel' result beginTag sourceText endTag = Ret true /\
       (exists info',
           _getMashInfo result beginTag None endTag fuel' = Ret info' /\
           state info' = Mashed) /\
       (beginAbsent result beginTag i ->
        endAbsent result endTag (i + length beginTag)
                  (i + length beginTag + length sourceText) ->
        mash fuel' result beginTag sourceText endTag = Ret result)).
Proof.
  intros Hb He Hfuel.
  destruct (getMashInfo_terminates doc beginTag None endTag Hb
              (endTag_nonempty_of_placeholder endTag He) fuel Hfuel)
    as [info Hinfo].
  destruct (mash_shape fuel doc beginTag sourceText endTag info Hinfo)
    as (i & j & Hspan & Hij & Hj & Hmash).
  exists info, i, j. eexists. split; [exact Hinfo|]. split; [exact Hspan|].
  split; [exact Hij|]. split; [exact Hj|]. split; [reflexivity|].
  split; [exact Hmash|].
  assert (Hlen : length (firstn i doc) = i) by (apply firstn_length_le; lia).
  revert Hlen. generalize (firstn i doc) (skipn j doc). intros X Y Hlen.
  subst i. intros Hbc Hec fuel' Hfuel'.
  destruct (written_block_mashed X Y beginTag sourceText endTag fuel'
              Hb He Hbc Hec Hfuel') as [Hmashed Hstate].
  split; [exact Hmashed|]. split; [exact Hstate|].
  intros Hba Hea.
  exact (block_first_remash X Y beginTag sourceText endTag Hb He Hba Hea
           fuel' Hfuel').
Qed.

Lemma C1_remash_witness :
  T "<b>" <> [] /\ hasPlaceholder (T "(%fingerprint%)") /\
  length (T "ab") < 3 /\
  mash 3 (T "ab") (T "<b>") (T "x") (T "(%fingerprint%)")
  = Ret (T "ab<b>x(11f6ad8ec52a2984abaafd7c3b516503785c2072)") /\
  textIsMashed 60 (T "ab<b>x(11f6ad8ec52a2984abaafd7c3b516503785c2072)")
               (T "<b>") (T "x") (T "(%fingerprint%)") = Ret true /\
  mash 60 (T "ab<b>x(11f6ad8ec52a2984abaafd7c3b516503785c2072)")
       (T "<b>") (T "x") (T "(%fingerprint%)")
  = Ret (T "ab<b>x(11f6ad8ec52a2984abaafd7c3b516503785c2072)").
Proof.
  assert (Hp : hasPlaceholder (T "(%fingerprint%)")).
  { exists 1. split; [simpl; lia | reflexivity]. }
  split; [discriminate|]. split; [exact Hp|]. split; [simpl; lia|].
  destruct (C1_remash 3 (T "ab") (T "<b>") (T "x") (T "(%fingerprint%)")
              ltac:(discriminate) Hp ltac:(simpl; lia))
    as (info & i & j & result & Hinfo & Hspan & _ & _ & Hres & Hmash & Hrest).
  assert (Hi : info = Info Unmashed None None None None).
  { assert (H : _getMashInfo (T "ab") (T "<b>") None (T "(%fingerprint%)") 3
                = Ret (Info Unmashed None None None None))
      by (vm_compute; reflexivity).
    rewrite H in Hinfo. now injection Hinfo. }
  subst info. vm_compute in Hspan. injection Hspan as <- <-.
  assert (Hr : result = T "ab<b>x(11f6ad8ec52a2984abaafd7c3b516503785c2072)")
    by (rewrite Hres; vm_compute; reflexivity).
  rewrite Hr in Hrest, Hmash. clear Hr Hres result.
  split; [exact Hmash|].
  assert (Hba : beginAbsent (T "ab<b>x(11f6ad8ec52a2984abaafd7c3b516503785c2072)")
                            (T "<b>") 2).
  { intros q Hq [_ Ho].
    destruct q as [|[|q]]; [discriminate Ho | discriminate Ho | lia]. }
  assert (Hea : endAbsent (T "ab<b>x(11f6ad8ec52a2984abaafd7c3b516503785c2072)")
                          (T "(%fingerprint%)") (2 + length (T "<b>"))
                          (2 + length (T "<b>") + length (T "x"))).
  { intros q Hq1 Hq2 [_ Hm]. simpl in Hq1, Hq2.
    assert (q = 5) by lia. subst q. apply Hm. vm_compute. reflexivity. }
  destruct (Hrest (beginAbsent_clear _ _ _ Hba) (endAbsent_clear _ _ _ _ Hea)
              60 ltac:(simpl; lia)) as (H1 & _ & H3).
  split; [exact H1 | exact (H3 Hba Hea)].
Defined.

Example C1_remash_value :
  mash 3 (T "ab") (T "<b>") (T "x") (T "(%fingerprint%)")
  = Ret (T "ab<b>x(11f6ad8ec52a2984abaafd7c3b516503785c2072)") /\
  textIsMashed 60 (T "ab<b>x(11f6ad8ec52a2984abaafd7c3b516503785c2072)")
               (T "<b>") (T "x") (T "(%fingerprint%)") = Ret true /\
  mash 60 (T "ab<b>x(11f6ad8ec52a2984abaafd7c3b516503785c2072)")
       (T "<b>") (T "x") (T "(%fingerprint%)")
  = Ret (T "ab<b>x(11f6ad8ec52a2984abaafd7c3b516503785c2072)").
Proof. repeat split; vm_compute; reflexivity. Qed.

(** C1, as stated, fails: the document [<] holds neither tag; with the
    begin tag [<<], [mash] appends the block and the result reads
    [<<<x(...)], where the scan finds the begin tag at offset 0, one
    character early, takes [<x] for the source text, and reports the
    result not mashed for [x]. *)
Lemma C1_counterexample :
  ~ (forall (doc beginTag sourceText endTag : text) (fuel : nat) (result : text),
        hasPlaceholder endTag ->
        mash fuel doc beginTag sourceText endTag = Ret result ->
        exists fuel',
          textIsMashed fuel' result beginTag sourceText endTag = Ret true).
Proof.
  intros H.
  destruct (H (T "<") (T "<<") (T "x") (T "(%fingerprint%)") 2
              (T "<<<x(11f6ad8ec52a2984abaafd7c3b516503785c2072)"))
    as [fuel' Hm].
  - exists 1. split; [simpl; lia | reflexivity].
  - vm_compute. reflexivity.
  - assert (Hf : textIsMashed 60
                   (T "<<<x(11f6ad8ec52a2984abaafd7c3b516503785c2072)")
                   (T "<<") (T "x") (T "(%fingerprint%)") = Ret false)
      by (vm_compute; reflexivity).
    pose proof (textIsMashed_det _ _ _ _ _ _ _ _ Hm Hf). discriminate.
Qed.

(** On that result a second [mash] with the same source text does not
    replace: it finds the pair invalid and writes a second block. *)
Example C1_duplicate :
  mash 60 (T "<<<x(11f6ad8ec52a2984abaafd7c3b516503785c2072)")
       (T "<<") (T "x") (T "(%fingerprint%)")
  = Ret (T "<<x(11f6ad8ec52a2984abaafd7c3b516503785c2072)<<<x(11f6ad8ec52a2984abaafd7c3b516503785c2072)").
Proof. vm_compute. reflexivity. Qed.

(** ** C5 *)

Lemma no_match_endTagNext (doc endTag : text) (index : nat) :
  index <= length doc ->
  (forall q, ~ matches_at (endTagRegExp endTag) doc q) ->
  endTagNext doc endTag index = None.
Proof.
  intros Hidx Hno.
  destruct (endTagNext doc endTag index) as [e|] eqn:He; [|reflexivity].
  apply endTagNext_Some in He as (_ & H2 & H3 & [m H4] & _); [|exact Hidx].
  exfalso. apply (Hno (e_index e)). split; [lia|]. rewrite H4. discriminate.
Qed.

Lemma no_occurrence_nonempty (doc beginTag : text) :
  (forall q, ~ occurs_at beginTag doc q) -> beginTag <> [].
Proof.
  intros Hno ->. apply (Hno 0). split; [simpl; lia | reflexivity].
Qed.

(** C5, amended: for a document with no begin-tag occurrence and no
    end-tag match, [textIsMashed] is false for every source text and
    [mash] appends the new block at the very end.  The result is reported
    mashed for the source text when the template holds the placeholder, no
    begin-tag occurrence of the result starts in the document and runs
    into the new begin tag, and no end-tag match starts in the new source
    text and ends after it. *)
Theorem C5_append_when_absent (fuel : nat)
    (doc beginTag sourceText endTag : text) :
  0 < fuel ->
  (forall q, ~ occurs_at beginTag doc q) ->
  (forall q, ~ matches_at (endTagRegExp endTag) doc q) ->
  textIsMashed fuel doc beginTag sourceText endTag = Ret false /\
  mash fuel doc beginTag sourceText endTag
  = Ret (doc ++ mashBlock beginTag sourceText endTag) /\
  (hasPlaceholder endTag ->
   beginClear (doc ++ mashBlock beginTag sourceText endTag) beginTag
              (length doc) ->
   endClear (doc ++ mashBlock beginTag sourceText endTag) endTag
            (length doc + length beginTag)
            (length doc + length beginTag + length sourceText) ->
   forall fuel',
     length (doc ++ mashBlock beginTag sourceText endTag) < fuel' ->
     textIsMashed fuel' (doc ++ mashBlock beginTag sourceText endTag)
                  beginTag sourceText endTag = Ret true).
Proof.
  intros Hfuel Hnb Hne.
  pose proof (no_begin_beginTagNext doc beginTag 0 Hnb) as Hb.
  pose proof (no_match_endTagNext doc endTag 0 (Nat.le_0_l _) Hne) as He.
  assert (Hinfo : forall expected,
             _getMashInfo doc beginTag expected endTag fuel
             = Ret (createInfo Unmashed None None)).
  { intros expected. now rewrite getMashInfo_no_begin, He. }
  split; [|split].
  - now rewrite (textIsMashed_of_info _ _ _ _ _ _ (Hinfo (Some sourceText))).
  - now rewrite (mash_dispatch _ _ _ sourceText _ _ (Hinfo None)).
  - intros Hp Hbc Hec fuel' Hfuel'.
    pose proof (written_block_mashed doc [] beginTag sourceText endTag fuel'
                  (no_occurrence_nonempty _ _ Hnb) Hp) as H.
    rewrite app_nil_r in H. now apply H.
Qed.

Lemma C5_append_when_absent_witness :
  0 < 1 /\
  (forall q, ~ occurs_at (T "<b>") (T "ab") q) /\
  (forall q, ~ matches_at (endTagRegExp (T "(%fingerprint%)")) (T "ab") q) /\
  textIsMashed 1 (T "ab") (T "<b>") (T "x") (T "(%fingerprint%)") = Ret false /\
  mash 1 (T "ab") (T "<b>") (T "x") (T "(%fingerprint%)")
  = Ret (T "ab" ++ mashBlock (T "<b>") (T "x") (T "(%fingerprint%)")) /\
  textIsMashed 60 (T "ab" ++ mashBlock (T "<b>") (T "x") (T "(%fingerprint%)"))
               (T "<b>") (T "x") (T "(%fingerprint%)") = Ret true.
Proof.
  assert (Hnb : forall q, ~ occurs_at (T "<b>") (T "ab") q).
  { intros q [Hq _]. simpl in Hq. lia. }
  assert (Hne : forall q,
             ~ matches_at (endTagRegExp (T "(%fingerprint%)")) (T "ab") q).
  { intros q [Hq Hm]. simpl in Hq.
    destruct q as [|[|[|q]]]; try lia; apply Hm; vm_compute; reflexivity. }
  split; [lia|]. split; [exact Hnb|]. split; [exact Hne|].
  destruct (C5_append_when_absent 1 (T "ab") (T "<b>") (T "x")
              (T "(%fingerprint%)") ltac:(lia) Hnb Hne) as (H1 & H2 & H3).
  split; [exact H1|]. split; [exact H2|].
  apply H3.
  - exists 1. split; [simpl; lia | reflexivity].
  - intros q Hq [_ Ho]. simpl in Hq.
    destruct q as [|[|q]]; [discriminate Ho | discriminate Ho | lia].
  - intros q Hq1 Hq2 [_ Hm]. simpl in Hq1, Hq2.
    assert (q = 5) by lia. subst q. exfalso. apply Hm. vm_compute. reflexivity.
  - vm_compute. lia.
Defined.

(** C5, as stated, fails: the empty document holds neither tag; with the
    end-tag template [-%fingerprint%-] and a source text of a dash and 40
    hexadecimal characters, the pattern matches from the start of the
    written source text up to the dash of the written end tag, the scan
    goes on after that dash, and the written end tag is never visited. *)
Lemma C5_counterexample :
  ~ (forall (doc beginTag sourceText endTag : text),
        (forall q, ~ occurs_at beginTag doc q) ->
        (forall q, ~ matches_at (endTagRegExp endTag) doc q) ->
        forall (fuel : nat) (result : text),
          mash fuel doc beginTag sourceText endTag = Ret result ->
          exists fuel',
            textIsMashed fuel' result beginTag sourceText endTag = Ret true).
Proof.
  intros H.
  destruct (H (T "") (T "<b>") (T "-0000000000000000000000000000000000000000")
              (T "-%fingerprint%-"))
    with (fuel := 1)
         (result := T "<b>-0000000000000000000000000000000000000000-afec13df3cf1c6d9cb811b458308f2710dd0986d-")
    as [fuel' Hm].
  - intros q [Hq _]. simpl in Hq. lia.
  - intros q [Hq Hm]. simpl in Hq. assert (q = 0) by lia. subst q.
    apply Hm. vm_compute. reflexivity.
  - vm_compute. reflexivity.
  - assert (Hf : textIsMashed 200
                   (T "<b>-0000000000000000000000000000000000000000-afec13df3cf1c6d9cb811b458308f2710dd0986d-")
                   (T "<b>") (T "-0000000000000000000000000000000000000000")
                   (T "-%fingerprint%-") = Ret false)
      by (vm_compute; reflexivity).
    pose proof (textIsMashed_det _ _ _ _ _ _ _ _ Hm Hf). discriminate.
Qed.

(** The same happens when the begin tag overlaps itself: the document [<]
    with the begin tag [<<]. *)
Example C5_begin_overlap :
  mash 1 (T "<") (T "<<") (T "x") (T "(%fingerprint%)")
  = Ret (T "<<<x(11f6ad8ec52a2984abaafd7c3b516503785c2072)") /\
  textIsMashed 60 (T "<<<x(11f6ad8ec52a2984abaafd7c3b516503785c2072)")
               (T "<<") (T "x") (T "(%fingerprint%)") = Ret false.
Proof. split; vm_compute; reflexivity. Qed.

(** ** C10 *)

Lemma upperHexDigit_hex (c : ascii) :
  isLowerHexDigit c = true -> isHexDigit (upperHexDigit c) = true.
Proof.
  destruct c as [[] [] [] [] [] [] [] []]; vm_compute; intros H;
    first [reflexivity | discriminate H].
Qed.

Lemma toUpperHex_length (s : text) : length (toUpperHex s) = length s.
Proof. apply length_map. Qed.

Lemma toUpperHex_hex (s : text) :
  forallb isLowerHexDigit s = true -> forallb isHexDigit (toUpperHex s) = true.
Proof.
  induction s as [|c s IH]; simpl; [reflexivity|].
  rewrite andb_true_iff. intros [Hc Hs].
  now rewrite (upperHexDigit_hex c Hc), IH.
Qed.

Lemma find_all_false {A : Type} (f : A -> bool) (l : list A) :
  (forall x, In x l -> f x = false) -> find f l = None.
Proof.
  induction l as [|x l IH]; simpl; [reflexivity|].
  intros H. rewrite (H x) by now left. apply IH. intros y Hy. apply H. now right.
Qed.

Section Uppercase.

Variable X Y beginTag sourceText endTag : text.

Let up : text := toUpperHex (_fingerprint sourceText).
Let doc : text := X ++ beginTag ++ sourceText ++ upperEndTag endTag sourceText ++ Y.
Let bx : nat := length X.
Let px : nat := length X + length beginTag.
Let ex : nat := length X + length beginTag + length sourceText.
Let b : BeginTagOccurrence := BeginOcc bx px.
Let e : EndTagOccurrence :=
  EndOcc ex (ex + regexp_length (endTagRegExp endTag)) (Some up).

Hypothesis endTag_placeholder : hasPlaceholder endTag.
Hypothesis digest_has_letter : up <> _fingerprint sourceText.

Lemma upper_skipn_end : skipn ex doc = upperEndTag endTag sourceText ++ Y.
Proof.
  unfold doc, ex.
  replace (X ++ beginTag ++ sourceText ++ upperEndTag endTag sourceText ++ Y)
    with ((X ++ beginTag ++ sourceText) ++ upperEndTag endTag sourceText ++ Y)
    by (repeat rewrite <- app_assoc; reflexivity).
  rewrite skipn_app.
  replace (length X + length beginTag + length sourceText)
    with (length (X ++ beginTag ++ sourceText))
    by (repeat rewrite length_app; lia).
  now rewrite skipn_all, Nat.sub_diag.
Qed.

Lemma upper_length :
  length doc = ex + length (upperEndTag endTag sourceText) + length Y.
Proof. unfold doc, ex. repeat rewrite length_app. lia. Qed.

Lemma upper_end_matches :
  match_here (endTagRegExp endTag) (skipn ex doc)
  = Some (upperEndTag endTag sourceText, Some up).
Proof.
  rewrite upper_skipn_end.
  destruct (placeholder_split endTag endTag_placeholder)
    as (pre & post & _ & Hrep & Hre).
  unfold upperEndTag. rewrite Hre, Hrep. repeat rewrite <- app_assoc.
  apply match_here_end_tag.
  - unfold up. rewrite toUpperHex_length. apply fingerprint_length.
  - apply toUpperHex_hex, fingerprint_lower.
Qed.

Lemma upper_payload (e' : EndTagOccurrence) :
  e_index e' = ex -> potentialSourceText doc b e' = sourceText.
Proof.
  intros He. unfold potentialSourceText. cbn [b_endIndex b]. rewrite He.
  rewrite substring_le; [| unfold px, ex; lia | rewrite upper_length; lia].
  unfold doc, px, ex.
  replace (X ++ beginTag ++ sourceText ++ upperEndTag endTag sourceText ++ Y)
    with ((X ++ beginTag) ++ sourceText ++ upperEndTag endTag sourceText ++ Y)
    by (repeat rewrite <- app_assoc; reflexivity).
  rewrite skipn_app.
  replace (length X + length beginTag) with (length (X ++ beginTag))
    by (rewrite length_app; lia).
  rewrite skipn_all, Nat.sub_diag. cbn [skipn app].
  replace (length (X ++ beginTag) + length sourceText - length (X ++ beginTag))
    with (length sourceText) by lia.
  rewrite firstn_app, Nat.sub_diag, firstn_all. simpl. apply app_nil_r.
Qed.

Lemma upper_pair_invalid :
  fingerprintInvalid doc b e = true /\
  sourceTextTampered doc (Some sourceText) b e = false /\
  sourceTextTampered doc None b e = false.
Proof.
  unfold fingerprintInvalid, sourceTextTampered.
  rewrite (upper_payload e eq_refl). cbn [e_fingerprint e].
  rewrite text_eqb_refl. repeat split.
  apply negb_true_iff. now apply text_eqb_neq.
Qed.

Lemma upper_not_mashed (fuel : nat) :
  beginTag <> [] ->
  (forall q, occurs_at beginTag doc q -> q = bx) ->
  length doc < fuel ->
  textIsMashed fuel doc beginTag sourceText endTag = Ret false.
Proof.
  intros Hne Honly Hfuel.
  pose proof (endTag_nonempty_of_placeholder endTag endTag_placeholder) as Hne'.
  rewrite (textIsMashed_of_info fuel doc beginTag sourceText endTag _
             (getMashInfo_char doc beginTag (Some sourceText) endTag Hne Hne'
                fuel Hfuel)).
  assert (Hnone : firstValidPair doc beginTag (Some sourceText) endTag = None).
  { apply find_all_false. intros [b' e'] Hin.
    apply candidatePairs_In in Hin
      as (Hocc & Hbe & Hle & _ & Hend & Hfit & [m Hm]).
    apply Honly in Hocc.
    assert (Hb' : b' = b).
    { destruct b' as [bi be]. cbn [b_index b_endIndex] in *. subst.
      reflexivity. }
    subst b'.
    destruct (Nat.eq_dec (e_index e') ex) as [Heq | Hneq].
    - unfold passes. cbn [fst snd].
      assert (Hinv : fingerprintInvalid doc b e' = true).
      { unfold fingerprintInvalid. rewrite (upper_payload e' Heq).
        rewrite Heq, upper_end_matches in Hm. injection Hm as _ <-.
        apply negb_true_iff. now apply text_eqb_neq. }
      rewrite Hinv. apply andb_false_r.
    - unfold passes. cbn [fst snd].
      assert (Ht : sourceTextTampered doc (Some sourceText) b e' = true).
      { unfold sourceTextTampered. apply negb_true_iff, text_eqb_neq.
        intros Heq. apply Hneq.
        assert (Hl : length (potentialSourceText doc b e') = length sourceText)
          by now rewrite <- Heq.
        unfold potentialSourceText in Hl. cbn [b_endIndex b] in *.
        rewrite substring_le in Hl by lia.
        rewrite length_firstn, length_skipn in Hl. unfold ex, px in *. lia. }
      rewrite Ht. reflexivity. }
  pose proof (locateSpec_not_Mashed doc beginTag (Some sourceText) endTag Hnone)
    as Hstate.
  destruct (state (locateSpec doc beginTag (Some sourceText) endTag));
    try reflexivity. congruence.
Qed.

Lemma upper_begin_occurs : occurs_at beginTag doc bx.
Proof. unfold doc, bx. apply occurs_at_app. Qed.

Lemma upper_in_pairs :
  beginTag <> [] ->
  beginClear doc beginTag bx -> endClear doc endTag px ex ->
  In (b, e) (candidatePairs doc beginTag endTag).
Proof.
  intros Hne Hb He. unfold candidatePairs, pairsFrom. apply in_flat_map.
  exists b. split.
  - apply beginTagOccurrences_reach; try assumption; try lia.
    + apply upper_begin_occurs.
    + intros q _ Hq Ho. now apply Hb.
    + rewrite upper_length. unfold bx, ex. lia.
  - apply in_map. cbn [b_endIndex b].
    apply (endTagOccurrences_reach doc endTag
             (endTag_nonempty_of_placeholder endTag endTag_placeholder)
             _ _ _ (upperEndTag endTag sourceText)).
    + unfold px, ex. lia.
    + rewrite upper_length. lia.
    + apply upper_end_matches.
    + intros q Hq1 Hq2 Hm. now apply He.
    + rewrite upper_length. unfold px, ex. lia.
Qed.

End Uppercase.

(** C10: in a document where a begin tag and a source text are followed by
    the end tag with the digest of that source text in upper case (a
    digest that has a letter), the end-tag pattern matches that end tag and
    captures the upper-case digest; the nested scan visits the pair when no
    other occurrence overlaps it; the fingerprint check fails on the pair,
    whose state is [FingerprintInvalid] with and without the expected
    source text; and when the begin tag occurs nowhere else in the
    document, [textIsMashed] is false for that source text. *)
Theorem C10_uppercase_fingerprint (X Y beginTag sourceText endTag : text)
    (fuel : nat) :
  hasPlaceholder endTag ->
  toUpperHex (_fingerprint sourceText) <> _fingerprint sourceText ->
  let doc := X ++ beginTag ++ sourceText ++ upperEndTag endTag sourceText ++ Y in
  let b := BeginOcc (length X) (length X + length beginTag) in
  let e := EndOcc (length X + length beginTag + length sourceText)
                  (length X + length beginTag + length sourceText +
                   regexp_length (endTagRegExp endTag))
                  (Some (toUpperHex (_fingerprint sourceText))) in
  occurs_at beginTag doc (length X) /\
  match_here (endTagRegExp endTag)
             (skipn (length X + length beginTag + length sourceText) doc)
  = Some (upperEndTag endTag sourceText,
          Some (toUpperHex (_fingerprint sourceText))) /\
  (beginTag <> [] ->
   beginClear doc beginTag (length X) ->
   endClear doc endTag (length X + length beginTag)
            (length X + length beginTag + length sourceText) ->
   In (b, e) (candidatePairs doc beginTag endTag)) /\
  potentialSourceText doc b e = sourceText /\
  fingerprintInvalid doc b e = true /\
  invalidStateOf doc None (b, e) = FingerprintInvalid /\
  invalidStateOf doc (Some sourceText) (b, e) = FingerprintInvalid /\
  passes doc (Some sourceText) (b, e) = false /\
  passes doc None (b, e) = false /\
  (beginTag <> [] ->
   (forall q, occurs_at beginTag doc q -> q = length X) ->
   length doc < fuel ->
   textIsMashed fuel doc beginTag sourceText endTag = Ret false).
Proof.
  intros Hp Hup doc b e.
  pose proof (upper_pair_invalid X Y beginTag sourceText endTag Hup)
    as (Hinv & Ht & Ht').
  fold doc b e in Hinv, Ht, Ht'.
  split; [apply upper_begin_occurs|].
  split; [apply (upper_end_matches X Y beginTag sourceText endTag Hp)|].
  split; [intros Hne; apply (upper_in_pairs X Y beginTag sourceText endTag Hp Hne)|].
  split; [apply (upper_payload X Y beginTag sourceText endTag); reflexivity|].
  split; [exact Hinv|].
  unfold invalidStateOf, passes. cbn [fst snd]. rewrite Hinv, Ht, Ht'.
  repeat split.
  intros Hne Honly Hfuel.
  exact (upper_not_mashed X Y beginTag sourceText endTag Hp Hup fuel Hne
           Honly Hfuel).
Qed.

Lemma C10_uppercase_fingerprint_witness :
  hasPlaceholder (T "(%fingerprint%)") /\
  toUpperHex (_fingerprint (T "x")) <> _fingerprint (T "x") /\
  fingerprintInvalid
    (T "ab" ++ T "<b>" ++ T "x" ++ upperEndTag (T "(%fingerprint%)") (T "x") ++
     T "cd")
    (BeginOcc 2 5)
    (EndOcc 6 (6 + regexp_length (endTagRegExp (T "(%fingerprint%)")))
            (Some (toUpperHex (_fingerprint (T "x"))))) = true /\
  textIsMashed 100
    (T "ab" ++ T "<b>" ++ T "x" ++ upperEndTag (T "(%fingerprint%)") (T "x") ++
     T "cd")
    (T "<b>") (T "x") (T "(%fingerprint%)") = Ret false.
Proof.
  assert (Hp : hasPlaceholder (T "(%fingerprint%)")).
  { exists 1. split; [simpl; lia | reflexivity]. }
  assert (Hup : toUpperHex (_fingerprint (T "x")) <> _fingerprint (T "x"))
    by (vm_compute; discriminate).
  split; [exact Hp|]. split; [exact Hup|].
  destruct (C10_uppercase_fingerprint (T "ab") (T "cd") (T "<b>") (T "x")
              (T "(%fingerprint%)") 100 Hp Hup)
    as (_ & _ & _ & _ & Hinv & _ & _ & _ & _ & Hnot).
  split; [exact Hinv|].
  apply Hnot; [discriminate | | vm_compute; lia].
  assert (Hdoc : T "ab" ++ T "<b>" ++ T "x" ++
                 upperEndTag (T "(%fingerprint%)") (T "x") ++ T "cd"
                 = T "ab<b>x(11F6AD8EC52A2984ABAAFD7C3B516503785C2072)cd")
    by (vm_compute; reflexivity).
  rewrite Hdoc. intros q Ho. apply occurs_at_prefixb in Ho as [Hq Ho].
  change (length (T "ab")) with 2.
  do 53 (destruct q as [|q]; [first [reflexivity | discriminate Ho] |]).
  simpl in Hq. lia.
Defined.

Example C10_value :
  _getMashInfo (T "ab<b>x(11F6AD8EC52A2984ABAAFD7C3B516503785C2072)cd")
               (T "<b>") None (T "(%fingerprint%)") 100
  = Ret (Info FingerprintInvalid (Some 2) (Some 5) (Some 6) (Some 48)) /\
  textIsMashed 100 (T "ab<b>x(11F6AD8EC52A2984ABAAFD7C3B516503785C2072)cd")
               (T "<b>") (T "x") (T "(%fingerprint%)") = Ret false /\
  textIsMashed 100 (T "ab<b>x(11f6ad8ec52a2984abaafd7c3b516503785c2072)cd")
               (T "<b>") (T "x") (T "(%fingerprint%)") = Ret true.
Proof. repeat split; vm_compute; reflexivity. Qed.

(** * Further properties of the scan and the merge *)

(** ** The pair of a [Mashed] result *)

Lemma endLoop_Found_match (doc : text) (expected : option text) (endTag : text)
    (b : BeginTagOccurrence) (fuel : nat) :
  forall index fb fe fi info,
    index <= length doc ->
    endLoop doc expected endTag fuel b index fb fe fi = Ret (Found info) ->
    exists e,
      info = createInfo Mashed (Some b) (Some e) /\
      index <= e_index e /\
      e_endIndex e = e_index e + regexp_length (endTagRegExp endTag) /\
      e_endIndex e <= length doc /\
      (exists m, match_here (endTagRegExp endTag) (skipn (e_index e) doc)
                 = Some (m, e_fingerprint e)) /\
      passes doc expected (b, e) = true.
Proof.
  induction fuel as [|fuel IH]; intros index fb fe fi info Hidx; simpl;
    [discriminate|].
  destruct (endTagNext doc endTag index) as [e|] eqn:He; [|discriminate].
  apply endTagNext_Some in He as (H1 & H2 & H3 & H4 & _); [|exact Hidx].
  destruct (negb (sourceTextTampered doc expected b e) &&
            negb (fingerprintInvalid doc b e)) eqn:Hp.
  - intros [= <-]. exists e. repeat split; try assumption.
  - intros H. apply IH in H; [|lia].
    destruct H as (e' & -> & Hle & Hrest). exists e'.
    split; [reflexivity|]. split; [lia | exact Hrest].
Qed.

Lemma beginLoop_Found_match (doc beginTag : text) (expected : option text)
    (endTag : text) (fuel : nat) :
  forall index fb fe fi info,
    index <= length doc ->
    beginLoop doc beginTag expected endTag fuel index fb fe fi
    = Ret (Found info) ->
    exists b e,
      info = createInfo Mashed (Some b) (Some e) /\
      occurs_at beginTag doc (b_index b) /\
      b_endIndex b = b_index b + length beginTag /\
      b_endIndex b <= e_index e /\
      e_endIndex e = e_index e + regexp_length (endTagRegExp endTag) /\
      e_endIndex e <= length doc /\
      (exists m, match_here (endTagRegExp endTag) (skipn (e_index e) doc)
                 = Some (m, e_fingerprint e)) /\
      passes doc expected (b, e) = true.
Proof.
  induction fuel as [|fuel IH]; intros index fb fe fi info Hidx;
    [discriminate|].
  cbn [beginLoop].
  destruct (beginTagNext doc beginTag index) as [b|] eqn:Hb; [|discriminate].
  pose proof (beginTagNext_Some _ _ _ _ Hb) as (H1 & H2 & H3 & _).
  rewrite Nat.min_l in H1 by exact Hidx. pose proof H3 as [Hfit _].
  destruct (endLoop doc expected endTag (S fuel) b (b_endIndex b) _ fe fi)
    as [[i | fb1 fe1 fi1] | |] eqn:Hend; try discriminate.
  - intros [= <-]. apply endLoop_Found_match in Hend; [|lia].
    destruct Hend as (e & -> & He1 & He2 & He3 & He4 & He5).
    exists b, e. repeat split; try assumption; apply H3.
  - intros H. apply IH in H; [exact H | lia].
Qed.

Lemma getMashInfo_Mashed_match (doc beginTag : text) (expected : option text)
    (endTag : text) (fuel : nat) (info : MashInfo) :
  _getMashInfo doc beginTag expected endTag fuel = Ret info ->
  state info = Mashed ->
  exists b e,
    info = createInfo Mashed (Some b) (Some e) /\
    occurs_at beginTag doc (b_index b) /\
    b_endIndex b = b_index b + length beginTag /\
    b_endIndex b <= e_index e /\
    e_endIndex e = e_index e + regexp_length (endTagRegExp endTag) /\
    e_endIndex e <= length doc /\
    (exists m, match_here (endTagRegExp endTag) (skipn (e_index e) doc)
               = Some (m, e_fingerprint e)) /\
    passes doc expected (b, e) = true.
Proof.
  intros Hinfo Hst. pose proof (getMashInfo_cases _ _ _ _ _ _ Hinfo) as Hcase.
  unfold _getMashInfo in Hinfo.
  destruct (beginLoop doc beginTag expected endTag fuel 0 None None Unmashed)
    as [[i | fb fe fi] | |] eqn:Hloop; try discriminate.
  - injection Hinfo as <-.
    apply beginLoop_Found_match in Hloop; [exact Hloop | lia].
  - exfalso.
    destruct Hcase as [b e _ _ _ _ _ _ | _ _ | e _ _ | b _ | b e fi' _ _ H3];
      cbn [state createInfo] in Hst; try discriminate.
    + apply beginLoop_inv in Hloop; [|lia].
      destruct Hloop as (_ & Hstep & _).
      destruct fb as [b'|], fe as [e'|]; try discriminate.
      * injection Hinfo as Hfi _ _ _ _. subst fi.
        now apply stateStep_not_Mashed in Hstep.
      * destruct (endTagNext doc endTag 0); discriminate.
    + subst fi'. now apply stateStep_not_Mashed in H3.
Qed.

Lemma match_here_Lit_inv (a s m : text) (g : option text) :
  match_here (map Lit a) s = Some (m, g) -> m = a /\ g = None.
Proof.
  revert s m g. induction a as [|c a IH]; intros s m g; simpl.
  - intros [= <- <-]. auto.
  - destruct s as [|d s]; [discriminate|].
    destruct (Ascii.eqb c d) eqn:Hcd; [|discriminate].
    apply Ascii.eqb_eq in Hcd. subst d.
    destruct (match_here (map Lit a) s) as [[m' g']|] eqn:Hm; [|discriminate].
    intros [= <- <-]. apply IH in Hm as [-> ->]. auto.
Qed.

Lemma match_here_end_tag_inv (pre post s m : text) (n : nat) (g : option text) :
  match_here (map Lit pre ++ HexGroup n :: map Lit post) s = Some (m, g) ->
  exists h, g = Some h /\ m = pre ++ h ++ post /\
            length h = n /\ forallb isHexDigit h = true.
Proof.
  revert s m g. induction pre as [|c pre IH]; intros s m g.
  - cbn [map app match_here].
    destruct (Nat.eqb (length (firstn n s)) n) eqn:Hn; [|discriminate].
    destruct (forallb isHexDigit (firstn n s)) eqn:Hh; [|discriminate].
    cbn [andb].
    destruct (match_here (map Lit post) (skipn n s)) as [[m' g']|] eqn:Hm;
      [|discriminate].
    intros [= <- <-]. apply match_here_Lit_inv in Hm as [-> _].
    exists (firstn n s). apply Nat.eqb_eq in Hn. auto.
  - cbn [map app match_here].
    destruct s as [|d s]; [discriminate|].
    destruct (Ascii.eqb c d) eqn:Hcd; [|discriminate].
    apply Ascii.eqb_eq in Hcd. subst d.
    destruct (match_here (map Lit pre ++ HexGroup n :: map Lit post) s)
      as [[m' g']|] eqn:Hm; [|discriminate].
    intros [= <- <-]. apply IH in Hm as (h & -> & -> & Hl & Hh).
    exists h. auto.
Qed.

(** A template either holds the placeholder, or its pattern is the
    template itself, character by character, and nothing is replaced. *)
Lemma placeholder_cases (endTag : text) :
  hasPlaceholder endTag \/
  (~ hasPlaceholder endTag /\
   endTagRegExp endTag = map Lit endTag /\
   forall r, replace Ascii.eqb endTag FINGERPRINT_PLACEHOLDER r = endTag).
Proof.
  destruct (indexOf Ascii.eqb endTag FINGERPRINT_PLACEHOLDER 0) as [i|] eqn:Hi.
  - left. apply indexOf_Some in Hi as (_ & Hl & Hp & _).
    exists i. apply occurs_at_prefixb. now split.
  - right. split; [|split].
    + intros [q Hq]. apply occurs_at_prefixb in Hq as [Hl Hp].
      rewrite (indexOf_None _ _ _ _ _ Hi q) in Hp; [discriminate | | exact Hl].
      rewrite Nat.min_0_l. lia.
    + unfold endTagRegExp, replace, escapeStringRegexp.
      now rewrite indexOf_map_Lit, Hi.
    + intros r. unfold replace. now rewrite Hi.
Qed.

(** The text a match of the end-tag pattern spans is the template with the
    captured characters in the place of the placeholder. *)
Lemma end_match_is_materialized (endTag s m h : text) :
  match_here (endTagRegExp endTag) s = Some (m, Some h) ->
  hasPlaceholder endTag /\
  m = replace Ascii.eqb endTag FINGERPRINT_PLACEHOLDER h /\
  length h = FINGERPRINT_VALUE_IN_HEX_LENGTH /\
  forallb isHexDigit h = true.
Proof.
  intros Hm. destruct (placeholder_cases endTag) as [Hp | (_ & Hre & _)].
  - split; [exact Hp|].
    destruct (placeholder_split endTag Hp) as (pre & post & _ & Hrep & Hre).
    rewrite Hre in Hm. apply match_here_end_tag_inv in Hm
      as (h' & [= <-] & -> & Hl & Hh).
    rewrite Hrep. auto.
  - rewrite Hre in Hm. apply match_here_Lit_inv in Hm as [_ Hg]. discriminate.
Qed.

(** The document around a pair whose fingerprint is valid. *)
Lemma mashed_pair_text (doc beginTag endTag : text)
    (b : BeginTagOccurrence) (e : EndTagOccurrence) (m : text) :
  occurs_at beginTag doc (b_index b) ->
  b_endIndex b = b_index b + length beginTag ->
  b_endIndex b <= e_index e ->
  e_endIndex e = e_index e + regexp_length (endTagRegExp endTag) ->
  e_endIndex e <= length doc ->
  match_here (endTagRegExp endTag) (skipn (e_index e) doc)
  = Some (m, e_fingerprint e) ->
  fingerprintInvalid doc b e = false ->
  hasPlaceholder endTag /\
  m = materializedEndTag endTag (potentialSourceText doc b e) /\
  length m = regexp_length (endTagRegExp endTag) /\
  potentialSourceText doc b e
  = firstn (e_index e - b_endIndex b) (skipn (b_endIndex b) doc) /\
  doc = firstn (b_index b) doc ++
        mashBlock beginTag (potentialSourceText doc b e) endTag ++
        skipn (e_endIndex e) doc.
Proof.
  intros [Hfit Hocc] Hbe Hle Hee Hed Hm Hf.
  assert (Hpay : potentialSourceText doc b e
                 = firstn (e_index e - b_endIndex b) (skipn (b_endIndex b) doc)).
  { unfold potentialSourceText. apply substring_le; lia. }
  unfold fingerprintInvalid in Hf.
  destruct (e_fingerprint e) as [f|] eqn:Hfp; [|discriminate].
  apply negb_false_iff, text_eqb_eq in Hf.
  pose proof (match_here_firstn _ _ _ _ Hm) as [Hmf Hml].
  apply end_match_is_materialized in Hm as (Hp & Hmat & _ & _).
  assert (Hmat' : m = materializedEndTag endTag (potentialSourceText doc b e))
    by (unfold materializedEndTag; now rewrite <- Hf).
  split; [exact Hp|]. split; [exact Hmat'|]. split; [exact Hml|].
  split; [exact Hpay|].
  assert (H1 : skipn (b_index b) doc = beginTag ++ skipn (b_endIndex b) doc).
  { rewrite <- (firstn_skipn (length beginTag) (skipn (b_index b) doc)) at 1.
    rewrite Hocc, skipn_skipn. do 2 f_equal. lia. }
  assert (H2 : skipn (b_endIndex b) doc
               = potentialSourceText doc b e ++ skipn (e_index e) doc).
  { rewrite <- (firstn_skipn (e_index e - b_endIndex b)
                  (skipn (b_endIndex b) doc)) at 1.
    rewrite <- Hpay, skipn_skipn. do 2 f_equal. lia. }
  assert (H3 : skipn (e_index e) doc = m ++ skipn (e_endIndex e) doc).
  { rewrite <- (firstn_skipn (regexp_length (endTagRegExp endTag))
                  (skipn (e_index e) doc)) at 1.
    rewrite <- Hmf, skipn_skipn. do 2 f_equal. lia. }
  unfold mashBlock. rewrite <- Hmat'. repeat rewrite <- app_assoc.
  rewrite <- H3, <- H2, <- H1. symmetry. apply firstn_skipn.
Qed.

(** X1: a [Mashed] result is never a false positive.  Whatever the inputs,
    when [_getMashInfo] returns the state [Mashed], the four offsets
    [b <= pb <= e <= ee] lie in the document, the document reads
    [document[0:b] + beginTag + payload + the end tag materialized for
    that payload + document[ee:]] with [payload = document[pb:e]], the
    template holds the placeholder, and an expected source text, when one
    is supplied, is that payload. *)
Theorem located_block_well_formed (doc beginTag : text)
    (expected : option text) (endTag : text) (fuel : nat) (info : MashInfo) :
  _getMashInfo doc beginTag expected endTag fuel = Ret info ->
  state info = Mashed ->
  exists b pb e ee payload,
    info = Info Mashed (Some b) (Some pb) (Some e) (Some ee) /\
    pb = b + length beginTag /\ pb <= e /\ e <= ee /\ ee <= length doc /\
    payload = firstn (e - pb) (skipn pb doc) /\
    length payload = e - pb /\
    ee = e + length (materializedEndTag endTag payload) /\
    doc = firstn b doc ++ mashBlock beginTag payload endTag ++ skipn ee doc /\
    hasPlaceholder endTag /\
    (forall s, expected = Some s -> s = payload).
Proof.
  intros Hinfo Hst.
  destruct (getMashInfo_Mashed_match _ _ _ _ _ _ Hinfo Hst)
    as (b & e & -> & Hocc & Hbe & Hle & Hee & Hed & [m Hm] & Hpass).
  unfold passes in Hpass. cbn [fst snd] in Hpass.
  apply andb_true_iff in Hpass as [Ht Hf].
  apply negb_true_iff in Ht, Hf.
  destruct (mashed_pair_text doc beginTag endTag b e m Hocc Hbe Hle Hee Hed
              Hm Hf) as (Hp & Hmat & Hml & Hpay & Hdoc).
  pose proof Hocc as [Hfit _].
  exists (b_index b), (b_endIndex b), (e_index e), (e_endIndex e),
         (potentialSourceText doc b e).
  split; [reflexivity|]. split; [exact Hbe|]. split; [exact Hle|].
  split; [lia|]. split; [exact Hed|]. split; [exact Hpay|].
  split; [rewrite Hpay, length_firstn, length_skipn; lia|].
  split; [rewrite <- Hmat, Hml; exact Hee|].
  split; [exact Hdoc|]. split; [exact Hp|].
  intros s ->. unfold sourceTextTampered in Ht.
  now apply negb_false_iff, text_eqb_eq in Ht.
Qed.

Lemma located_block_well_formed_witness :
  _getMashInfo (T "ab<b>x(11f6ad8ec52a2984abaafd7c3b516503785c2072)cd")
               (T "<b>") (Some (T "x")) (T "(%fingerprint%)") 60
  = Ret (Info Mashed (Some 2) (Some 5) (Some 6) (Some 48)) /\
  T "ab<b>x(11f6ad8ec52a2984abaafd7c3b516503785c2072)cd"
  = firstn 2 (T "ab<b>x(11f6ad8ec52a2984abaafd7c3b516503785c2072)cd") ++
    mashBlock (T "<b>") (T "x") (T "(%fingerprint%)") ++
    skipn 48 (T "ab<b>x(11f6ad8ec52a2984abaafd7c3b516503785c2072)cd").
Proof.
  assert (H : _getMashInfo (T "ab<b>x(11f6ad8ec52a2984abaafd7c3b516503785c2072)cd")
                (T "<b>") (Some (T "x")) (T "(%fingerprint%)") 60
              = Ret (Info Mashed (Some 2) (Some 5) (Some 6) (Some 48)))
    by (vm_compute; reflexivity).
  split; [exact H|].
  destruct (located_block_well_formed _ _ _ _ _ _ H eq_refl)
    as (b & pb & e & ee & payload & Hi & _ & _ & _ & _ & _ & _ & _ & Hdoc & _ & Hexp).
  injection Hi as <- <- <- <-. rewrite <- (Hexp (T "x") eq_refl) in Hdoc.
  exact Hdoc.
Defined.

(** ** With and without the expected source text *)

Lemma getMashInfo_Mashed_Found (doc beginTag : text) (expected : option text)
    (endTag : text) (fuel : nat) (info : MashInfo) :
  _getMashInfo doc beginTag expected endTag fuel = Ret info ->
  state info = Mashed ->
  beginLoop doc beginTag expected endTag fuel 0 None None Unmashed
  = Ret (Found info).
Proof.
  intros Hinfo Hst. unfold _getMashInfo in Hinfo.
  destruct (beginLoop doc beginTag expected endTag fuel 0 None None Unmashed)
    as [[i | fb fe fi] | |] eqn:Hloop; try discriminate.
  - now injection Hinfo as <-.
  - exfalso. apply beginLoop_inv in Hloop; [|lia].
    destruct Hloop as (_ & Hstep & _).
    destruct fb as [b'|], fe as [e'|]; try discriminate.
    + injection Hinfo as <-. cbn [state createInfo] in Hst. subst fi.
      now apply stateStep_not_Mashed in Hstep.
    + injection Hinfo as <-. discriminate.
    + destruct (endTagNext doc endTag 0); injection Hinfo as <-; discriminate.
Qed.

Lemma getMashInfo_of_Found (doc beginTag : text) (expected : option text)
    (endTag : text) (fuel : nat) (info : MashInfo) :
  beginLoop doc beginTag expected endTag fuel 0 None None Unmashed
  = Ret (Found info) ->
  _getMashInfo doc beginTag expected endTag fuel = Ret info.
Proof. intros H. unfold _getMashInfo. now rewrite H. Qed.

Section ExpectedOrNot.

Variable doc beginTag endTag : text.

(** A pair that passes with a source text expected passes without one. *)
Lemma endLoop_Some_to_None (s : text) (b : BeginTagOccurrence) (fuel : nat) :
  forall index fb fe fi fb' fe' fi' r,
    endLoop doc (Some s) endTag fuel b index fb fe fi = Ret r ->
    exists r',
      endLoop doc None endTag fuel b index fb' fe' fi' = Ret r' /\
      (forall i, r = Found i -> exists i', r' = Found i').
Proof.
  induction fuel as [|fuel IH]; intros index fb fe fi fb' fe' fi' r; simpl;
    [discriminate|].
  destruct (endTagNext doc endTag index) as [e|].
  - destruct (fingerprintInvalid doc b e).
    + rewrite andb_false_r. cbn [negb andb]. apply IH.
    + destruct (negb (text_eqb s (potentialSourceText doc b e))).
      * cbn [negb andb]. intros H.
        eexists. split; [reflexivity|]. eauto.
      * cbn [negb andb]. intros [= <-].
        eexists. split; [reflexivity|]. eauto.
  - intros [= <-]. eexists. split; [reflexivity|]. discriminate.
Qed.

Lemma beginLoop_Some_to_None (s : text) (fuel : nat) :
  forall index fb fe fi fb' fe' fi' r,
    beginLoop doc beginTag (Some s) endTag fuel index fb fe fi = Ret r ->
    exists r',
      beginLoop doc beginTag None endTag fuel index fb' fe' fi' = Ret r' /\
      (forall i, r = Found i -> exists i', r' = Found i').
Proof.
  induction fuel as [|fuel IH]; intros index fb fe fi fb' fe' fi' r;
    [discriminate|].
  cbn [beginLoop].
  destruct (beginTagNext doc beginTag index) as [b|].
  - destruct (endLoop doc (Some s) endTag (S fuel) b (b_endIndex b) _ fe fi)
      as [[i | fb1 fe1 fi1] | |] eqn:Hend; try discriminate.
    + intros [= <-].
      destruct (endLoop_Some_to_None s b (S fuel) _ _ _ _
                  (match fb' with Some _ => fb' | None => Some b end) fe' fi'
                  _ Hend) as (r' & Hr' & Hf).
      destruct (Hf i eq_refl) as [i' ->].
      rewrite Hr'. eexists. split; [reflexivity|]. eauto.
    + intros Hrest.
      destruct (endLoop_Some_to_None s b (S fuel) _ _ _ _
                  (match fb' with Some _ => fb' | None => Some b end) fe' fi'
                  _ Hend) as (r' & Hr' & _).
      rewrite Hr'. destruct r' as [i' | fb2 fe2 fi2].
      * eexists. split; [reflexivity|]. eauto.
      * apply (IH _ _ _ _ fb2 fe2 fi2) in Hrest. exact Hrest.
  - intros [= <-]. eexists. split; [reflexivity|]. discriminate.
Qed.

(** The pair found without an expected source text is found again when
    the text between its tags is the one expected. *)
Lemma endLoop_None_to_Some (b : BeginTagOccurrence) (fuel : nat) :
  forall index fb fe fi r,
    endLoop doc None endTag fuel b index fb fe fi = Ret r ->
    match r with
    | Found info =>
        exists e,
          info = createInfo Mashed (Some b) (Some e) /\
          forall fb' fe' fi',
            endLoop doc (Some (potentialSourceText doc b e)) endTag fuel b
                    index fb' fe' fi' = Ret (Found info)
    | Exhausted _ _ _ =>
        forall s fb' fe' fi',
          exists fb2 fe2 fi2,
            endLoop doc (Some s) endTag fuel b index fb' fe' fi'
            = Ret (Exhausted fb2 fe2 fi2)
    end.
Proof.
  induction fuel as [|fuel IH]; intros index fb fe fi r; simpl; [discriminate|].
  destruct (endTagNext doc endTag index) as [e|].
  - destruct (fingerprintInvalid doc b e) eqn:Hinv; cbn [negb andb].
    + intros H. apply IH in H. destruct r as [info | ? ? ?].
      * destruct H as (e' & -> & H). exists e'. split; [reflexivity|].
        intros fb' fe' fi'. rewrite andb_false_r. apply H.
      * intros s fb' fe' fi'. rewrite andb_false_r. apply H.
    + intros [= <-]. exists e. split; [reflexivity|].
      intros fb' fe' fi'. now rewrite text_eqb_refl.
  - intros [= <-]. intros s fb' fe' fi'. eauto.
Qed.

Lemma beginLoop_None_to_Some (fuel : nat) :
  forall index fb fe fi r,
    beginLoop doc beginTag None endTag fuel index fb fe fi = Ret r ->
    match r with
    | Found info =>
        exists b e,
          info = createInfo Mashed (Some b) (Some e) /\
          forall fb' fe' fi',
            beginLoop doc beginTag (Some (potentialSourceText doc b e)) endTag
                      fuel index fb' fe' fi' = Ret (Found info)
    | Exhausted _ _ _ =>
        forall s fb' fe' fi',
          exists fb2 fe2 fi2,
            beginLoop doc beginTag (Some s) endTag fuel index fb' fe' fi'
            = Ret (Exhausted fb2 fe2 fi2)
    end.
Proof.
  induction fuel as [|fuel IH]; intros index fb fe fi r; [discriminate|].
  cbn [beginLoop].
  destruct (beginTagNext doc beginTag index) as [b|].
  - destruct (endLoop doc None endTag (S fuel) b (b_endIndex b) _ fe fi)
      as [[i | fb1 fe1 fi1] | |] eqn:Hend; try discriminate.
    + intros [= <-]. apply endLoop_None_to_Some in Hend.
      destruct Hend as (e & -> & H). exists b, e. split; [reflexivity|].
      intros fb' fe' fi'. now rewrite H.
    + intros Hrest. apply endLoop_None_to_Some in Hend.
      apply IH in Hrest. destruct r as [info | ? ? ?].
      * destruct Hrest as (b' & e' & -> & H). exists b', e'.
        split; [reflexivity|]. intros fb' fe' fi'.
        destruct (Hend (potentialSourceText doc b' e')
                    (match fb' with Some _ => fb' | None => Some b end) fe' fi')
          as (fb2 & fe2 & fi2 & ->).
        apply H.
      * intros s fb' fe' fi'.
        destruct (Hend s (match fb' with Some _ => fb' | None => Some b end)
                    fe' fi') as (fb2 & fe2 & fi2 & ->).
        apply Hrest.
  - intros [= <-]. intros s fb' fe' fi'. eauto.
Qed.

End ExpectedOrNot.

Lemma MashState_eqb_Mashed (st : MashState) :
  MashState_eqb st Mashed = true <-> st = Mashed.
Proof. destruct st; simpl; split; congruence. Qed.

Lemma textIsMashed_true (fuel : nat) (doc beginTag sourceText endTag : text) :
  textIsMashed fuel doc beginTag sourceText endTag = Ret true ->
  exists info,
    _getMashInfo doc beginTag (Some sourceText) endTag fuel = Ret info /\
    state info = Mashed.
Proof.
  unfold textIsMashed.
  destruct (_getMashInfo doc beginTag (Some sourceText) endTag fuel)
    as [info| |]; try discriminate.
  intros [= H]. exists info. split; [reflexivity|].
  now apply MashState_eqb_Mashed.
Qed.

Lemma placeholder_regexp_length (endTag : text) :
  hasPlaceholder endTag ->
  FINGERPRINT_VALUE_IN_HEX_LENGTH <= regexp_length (endTagRegExp endTag).
Proof.
  intros Hp. destruct (placeholder_split endTag Hp) as (pre & post & _ & _ & ->).
  rewrite regexp_length_app. cbn [regexp_length].
  unfold FINGERPRINT_VALUE_IN_HEX_LENGTH. lia.
Qed.

(** X2: a document that [textIsMashed] reports mashed for some source text
    is updated in place.  [mash] on it, with any new source text, takes the
    replacing branch: it returns [document[0:b] + new block + document[ee:]]
    for a span [[b, ee)] of the document that is at least a begin tag and
    40 characters long, so the new block is never put beside the old
    one. *)
Theorem mashed_document_is_replaced (fuel : nat)
    (doc beginTag sourceText endTag newText : text) :
  textIsMashed fuel doc beginTag sourceText endTag = Ret true ->
  exists info b ee,
    _getMashInfo doc beginTag None endTag fuel = Ret info /\
    state info = Mashed /\
    beginTagIndex info = Some b /\ endOfEndTagIndex info = Some ee /\
    b + length beginTag + 40 <= ee /\ ee <= length doc /\
    mash fuel doc beginTag newText endTag
    = Ret (firstn b doc ++ mashBlock beginTag newText endTag ++ skipn ee doc).
Proof.
  intros Hm. apply textIsMashed_true in Hm as (info & Hinfo & Hst).
  apply getMashInfo_Mashed_Found in Hinfo; [|exact Hst].
  destruct (beginLoop_Some_to_None doc beginTag endTag sourceText fuel
              _ _ _ _ None None Unmashed _ Hinfo) as (r' & Hr' & Hf).
  destruct (Hf info eq_refl) as [info' ->].
  apply getMashInfo_of_Found in Hr'.
  pose proof (beginLoop_Found_match doc beginTag None endTag fuel 0 None None
                Unmashed info' (Nat.le_0_l _)) as Hmatch.
  assert (Hst' : state info' = Mashed).
  { unfold _getMashInfo in Hr'.
    destruct (beginLoop doc beginTag None endTag fuel 0 None None Unmashed)
      as [[i | fb fe fi] | |] eqn:Hloop; try discriminate.
    - injection Hr' as <-.
      destruct (Hmatch eq_refl) as (b & e & -> & _). reflexivity.
    - exfalso. clear Hmatch.
      destruct (beginLoop_Some_to_None doc beginTag endTag sourceText fuel
                  _ _ _ _ None None Unmashed _ Hinfo) as (r2 & Hr2 & Hf2).
      rewrite Hloop in Hr2. injection Hr2 as <-.
      destruct (Hf2 info eq_refl) as [i' Hi']. discriminate. }
  destruct (getMashInfo_Mashed_match _ _ _ _ _ _ Hr' Hst')
    as (b & e & -> & [Hfit _] & Hbe & Hle & Hee & Hed & [m Hm] & Hpass).
  exists (createInfo Mashed (Some b) (Some e)), (b_index b), (e_endIndex e).
  split; [exact Hr'|]. split; [reflexivity|]. split; [reflexivity|].
  split; [reflexivity|].
  assert (Hlen : 40 <= regexp_length (endTagRegExp endTag)).
  { unfold passes in Hpass. cbn [fst snd] in Hpass.
    apply andb_true_iff in Hpass as [_ Hf']. apply negb_true_iff in Hf'.
    unfold fingerprintInvalid in Hf'.
    destruct (e_fingerprint e) as [f|]; [|discriminate].
    apply end_match_is_materialized in Hm as (Hp & _).
    exact (placeholder_regexp_length endTag Hp). }
  split; [lia|]. split; [exact Hed|].
  rewrite (mash_dispatch _ _ _ newText _ _ Hr').
  cbn [state createInfo beginTagIndex endOfEndTagIndex option_map].
  rewrite replace_span by lia. reflexivity.
Qed.

Lemma mashed_document_is_replaced_witness :
  textIsMashed 60 (T "ab<b>x(11f6ad8ec52a2984abaafd7c3b516503785c2072)cd")
               (T "<b>") (T "x") (T "(%fingerprint%)") = Ret true /\
  exists info b ee,
    _getMashInfo (T "ab<b>x(11f6ad8ec52a2984abaafd7c3b516503785c2072)cd")
                 (T "<b>") None (T "(%fingerprint%)") 60 = Ret info /\
    state info = Mashed /\
    beginTagIndex info = Some b /\ endOfEndTagIndex info = Some ee /\
    b + length (T "<b>") + 40 <= ee /\
    ee <= length (T "ab<b>x(11f6ad8ec52a2984abaafd7c3b516503785c2072)cd") /\
    mash 60 (T "ab<b>x(11f6ad8ec52a2984abaafd7c3b516503785c2072)cd")
         (T "<b>") (T "y") (T "(%fingerprint%)")
    = Ret (firstn b (T "ab<b>x(11f6ad8ec52a2984abaafd7c3b516503785c2072)cd") ++
           mashBlock (T "<b>") (T "y") (T "(%fingerprint%)") ++
           skipn ee (T "ab<b>x(11f6ad8ec52a2984abaafd7c3b516503785c2072)cd")).
Proof.
  assert (H : textIsMashed 60
                (T "ab<b>x(11f6ad8ec52a2984abaafd7c3b516503785c2072)cd")
                (T "<b>") (T "x") (T "(%fingerprint%)") = Ret true)
    by (vm_compute; reflexivity).
  split; [exact H|].
  exact (mashed_document_is_replaced 60
           (T "ab<b>x(11f6ad8ec52a2984abaafd7c3b516503785c2072)cd")
           (T "<b>") (T "x") (T "(%fingerprint%)") (T "y") H).
Defined.

(** X3: the text between the tags of a located block is reported mashed.
    When [_getMashInfo] without an expected source text returns [Mashed],
    then for [payload = document[endOfBeginTagIndex : endTagIndex]]
    [textIsMashed] is true, and [_getMashInfo] with that payload expected
    returns the same offsets. *)
Theorem located_payload_is_mashed (fuel : nat) (doc beginTag endTag : text)
    (info : MashInfo) :
  _getMashInfo doc beginTag None endTag fuel = Ret info ->
  state info = Mashed ->
  exists pb e,
    endOfBeginTagIndex info = Some pb /\ endTagIndex info = Some e /\
    _getMashInfo doc beginTag (Some (substring doc pb e)) endTag fuel
    = Ret info /\
    textIsMashed fuel doc beginTag (substring doc pb e) endTag = Ret true.
Proof.
  intros Hinfo Hst.
  apply getMashInfo_Mashed_Found in Hinfo; [|exact Hst].
  apply beginLoop_None_to_Some in Hinfo.
  destruct Hinfo as (b & e & -> & H).
  exists (b_endIndex b), (e_index e).
  split; [reflexivity|]. split; [reflexivity|].
  specialize (H None None Unmashed). apply getMashInfo_of_Found in H.
  unfold potentialSourceText in H. split; [exact H|].
  now rewrite (textIsMashed_of_info _ _ _ _ _ _ H).
Qed.

Lemma located_payload_is_mashed_witness :
  _getMashInfo (T "ab<b>x(11f6ad8ec52a2984abaafd7c3b516503785c2072)cd")
               (T "<b>") None (T "(%fingerprint%)") 60
  = Ret (Info Mashed (Some 2) (Some 5) (Some 6) (Some 48)) /\
  textIsMashed 60 (T "ab<b>x(11f6ad8ec52a2984abaafd7c3b516503785c2072)cd")
               (T "<b>")
               (substring (T "ab<b>x(11f6ad8ec52a2984abaafd7c3b516503785c2072)cd") 5 6)
               (T "(%fingerprint%)") = Ret true.
Proof.
  assert (H : _getMashInfo (T "ab<b>x(11f6ad8ec52a2984abaafd7c3b516503785c2072)cd")
                (T "<b>") None (T "(%fingerprint%)") 60
              = Ret (Info Mashed (Some 2) (Some 5) (Some 6) (Some 48)))
    by (vm_compute; reflexivity).
  split; [exact H|].
  destruct (located_payload_is_mashed _ _ _ _ _ H eq_refl)
    as (pb & e & Hpb & He & _ & Hm).
  injection Hpb as <-. injection He as <-. exact Hm.
Defined.

(** ** Updating a written block *)

Section BlockUpdate.

Variable X Y beginTag oldText newText endTag : text.

Let doc : text := X ++ mashBlock beginTag oldText endTag ++ Y.
Let bx : nat := length X.
Let px : nat := length X + length beginTag.
Let ex : nat := length X + length beginTag + length oldText.

Hypothesis beginTag_nonempty : beginTag <> [].
Hypothesis endTag_placeholder : hasPlaceholder endTag.
Hypothesis no_begin_before : beginAbsent doc beginTag bx.
Hypothesis no_end_inside : endAbsent doc endTag px ex.

Lemma block_first_update (fuel : nat) :
  length doc < fuel ->
  mash fuel doc beginTag newText endTag
  = Ret (X ++ mashBlock beginTag newText endTag ++ Y).
Proof.
  intros Hfuel.
  pose proof (block_first_located X Y beginTag oldText endTag
                beginTag_nonempty endTag_placeholder no_begin_before
                no_end_inside fuel Hfuel) as Hinfo.
  unfold doc.
  rewrite (mash_dispatch _ _ _ newText _ _ Hinfo).
  cbn [state beginTagIndex endOfEndTagIndex]. f_equal.
  pose proof (block_end_matches X Y beginTag oldText endTag
                endTag_placeholder) as Hm.
  apply match_here_firstn in Hm as [_ Hl].
  pose proof (block_length X Y beginTag oldText endTag) as Hlen.
  cbv zeta in Hlen.
  rewrite replace_span; [| lia | rewrite Hlen, <- Hl; lia].
  f_equal.
  - now rewrite firstn_app, Nat.sub_diag, firstn_all, app_nil_r.
  - f_equal. rewrite <- Hl. rewrite app_assoc, skipn_app.
    replace (length X + length beginTag + length oldText +
             length (materializedEndTag endTag oldText))
      with (length (X ++ mashBlock beginTag oldText endTag))
      by (unfold mashBlock; repeat rewrite length_app; lia).
    now rewrite skipn_all, Nat.sub_diag.
Qed.

End BlockUpdate.

(** X4: the last write wins.  For a non-empty begin tag and a template
    with the placeholder, [mash] writes the block of any source text into
    the same span [[i, j)] of the document; and when in the result for a
    first source text no begin tag occurs before the written block and no
    end-tag match starts in the written source text, a second [mash] with
    another source text returns what [mash] with that source text returns
    on the original document. *)
Theorem update_composes (fuel fuel' : nat)
    (doc beginTag oldText newText endTag : text) :
  beginTag <> [] -> hasPlaceholder endTag -> length doc < fuel ->
  exists i j first second,
    i <= j /\ j <= length doc /\
    first = firstn i doc ++ mashBlock beginTag oldText endTag ++ skipn j doc /\
    second = firstn i doc ++ mashBlock beginTag newText endTag ++ skipn j doc /\
    mash fuel doc beginTag oldText endTag = Ret first /\
    mash fuel doc beginTag newText endTag = Ret second /\
    (beginAbsent first beginTag i ->
     endAbsent first endTag (i + length beginTag)
               (i + length beginTag + length oldText) ->
     length first < fuel' ->
     mash fuel' first beginTag newText endTag = Ret second).
Proof.
  intros Hb He Hfuel.
  destruct (getMashInfo_terminates doc beginTag None endTag Hb
              (endTag_nonempty_of_placeholder endTag He) fuel Hfuel)
    as [info Hinfo].
  destruct (mash_shape fuel doc beginTag oldText endTag info Hinfo)
    as (i & j & Hspan & Hij & Hj & Hold).
  destruct (mash_shape fuel doc beginTag newText endTag info Hinfo)
    as (i' & j' & Hspan' & _ & _ & Hnew).
  rewrite Hspan in Hspan'. injection Hspan' as <- <-.
  exists i, j. do 2 eexists.
  split; [exact Hij|]. split; [exact Hj|]. split; [reflexivity|].
  split; [reflexivity|]. split; [exact Hold|]. split; [exact Hnew|].
  assert (Hlen : length (firstn i doc) = i) by (apply firstn_length_le; lia).
  revert Hlen. generalize (firstn i doc) (skipn j doc). intros X Y Hlen.
  subst i. intros Hba Hea Hfuel'.
  exact (block_first_update X Y beginTag oldText newText endTag Hb He Hba Hea
           fuel' Hfuel').
Qed.

Lemma update_composes_witness :
  T "<b>" <> [] /\ hasPlaceholder (T "(%fingerprint%)") /\
  length (T "ab") < 3 /\
  mash 3 (T "ab") (T "<b>") (T "x") (T "(%fingerprint%)")
  = Ret (T "ab<b>x(11f6ad8ec52a2984abaafd7c3b516503785c2072)") /\
  mash 60 (T "ab<b>x(11f6ad8ec52a2984abaafd7c3b516503785c2072)")
       (T "<b>") (T "y") (T "(%fingerprint%)")
  = mash 3 (T "ab") (T "<b>") (T "y") (T "(%fingerprint%)").
Proof.
  assert (Hp : hasPlaceholder (T "(%fingerprint%)")).
  { exists 1. split; [simpl; lia | reflexivity]. }
  split; [discriminate|]. split; [exact Hp|]. split; [simpl; lia|].
  destruct (update_composes 3 60 (T "ab") (T "<b>") (T "x") (T "y")
              (T "(%fingerprint%)") ltac:(discriminate) Hp ltac:(simpl; lia))
    as (i & j & first & second & Hij & Hj & Hfirst & Hsecond & Hold & Hnew & Hrest).
  assert (Hi : i = 2 /\ j = 2 /\
               first = T "ab<b>x(11f6ad8ec52a2984abaafd7c3b516503785c2072)").
  { assert (H : mash 3 (T "ab") (T "<b>") (T "x") (T "(%fingerprint%)")
                = Ret (T "ab<b>x(11f6ad8ec52a2984abaafd7c3b516503785c2072)"))
      by (vm_compute; reflexivity).
    rewrite H in Hold. injection Hold as Hf. rewrite <- Hf in Hfirst.
    assert (Hl : length (T "ab<b>x(11f6ad8ec52a2984abaafd7c3b516503785c2072)")
                 = length (firstn i (T "ab") ++
                           mashBlock (T "<b>") (T "x") (T "(%fingerprint%)") ++
                           skipn j (T "ab"))) by now rewrite <- Hfirst.
    assert (Hp2 : firstn 3 (T "ab<b>x(11f6ad8ec52a2984abaafd7c3b516503785c2072)")
                  = firstn 3 (firstn i (T "ab") ++
                              mashBlock (T "<b>") (T "x") (T "(%fingerprint%)") ++
                              skipn j (T "ab"))) by now rewrite <- Hfirst.
    clear Hfirst Hrest Hnew Hsecond. simpl in Hj.
    destruct i as [|[|[|i]]], j as [|[|[|j]]]; try lia;
      try (vm_compute in Hl; discriminate Hl);
      try (vm_compute in Hp2; discriminate Hp2); auto. }
  destruct Hi as (-> & -> & ->).
  split; [exact Hold|].
  rewrite Hnew. apply Hrest.
  - intros q Hq [_ Ho].
    destruct q as [|[|q]]; [discriminate Ho | discriminate Ho | lia].
  - intros q Hq1 Hq2 [_ Hm]. simpl in Hq1, Hq2.
    assert (q = 5) by lia. subst q. apply Hm. vm_compute. reflexivity.
  - simpl. lia.
Defined.

(** ** A template without the placeholder *)

Lemma endTagNext_no_placeholder (doc endTag : text) (index : nat)
    (e : EndTagOccurrence) :
  ~ hasPlaceholder endTag ->
  endTagNext doc endTag index = Some e -> e_fingerprint e = None.
Proof.
  intros Hno. unfold endTagNext.
  destruct (exec (endTagRegExp endTag) (substringFrom doc index)) as [m|] eqn:Hx;
    [|discriminate].
  intros [= <-]. cbn [e_fingerprint]. unfold exec in Hx.
  apply exec_from_Some in Hx as (k & _ & _ & Hm & _).
  destruct (placeholder_cases endTag) as [Hp | (_ & Hre & _)]; [contradiction|].
  rewrite Hre in Hm. now apply match_here_Lit_inv in Hm.
Qed.

Lemma endLoop_no_placeholder (doc : text) (expected : option text)
    (endTag : text) (b : BeginTagOccurrence) (fuel : nat) :
  ~ hasPlaceholder endTag ->
  forall index fb fe fi info,
    endLoop doc expected endTag fuel b index fb fe fi <> Ret (Found info).
Proof.
  intros Hno. induction fuel as [|fuel IH]; intros index fb fe fi info; simpl;
    [discriminate|].
  destruct (endTagNext doc endTag index) as [e|] eqn:He; [|discriminate].
  apply endTagNext_no_placeholder in He; [|exact Hno].
  unfold fingerprintInvalid. rewrite He. rewrite andb_false_r. apply IH.
Qed.

Lemma beginLoop_no_placeholder (doc beginTag : text) (expected : option text)
    (endTag : text) (fuel : nat) :
  ~ hasPlaceholder endTag ->
  forall index fb fe fi info,
    beginLoop doc beginTag expected endTag fuel index fb fe fi
    <> Ret (Found info).
Proof.
  intros Hno. induction fuel as [|fuel IH]; intros index fb fe fi info;
    [discriminate|].
  cbn [beginLoop].
  destruct (beginTagNext doc beginTag index) as [b|]; [|discriminate].
  destruct (endLoop doc expected endTag (S fuel) b (b_endIndex b) _ fe fi)
    as [[i | fb1 fe1 fi1] | |] eqn:Hend; try discriminate.
  - now apply endLoop_no_placeholder in Hend.
  - apply IH.
Qed.

Lemma spliceSpan_insert (info : MashInfo) (doc : text) (i j : nat) :
  state info <> Mashed -> spliceSpan info doc = (i, j) -> i = j.
Proof.
  unfold spliceSpan. destruct (state info); intros Hst [= <- <-];
    congruence.
Qed.

(** X5: a template without the placeholder is never recognised.  With such
    a template no scan returns [Mashed], [textIsMashed] is never true, and
    [mash] never replaces: whenever it returns, it has put the begin tag,
    the source text and the template as it stands into the document at one
    offset, so every call makes the document longer by their lengths. *)
Theorem template_without_placeholder (doc beginTag sourceText endTag : text)
    (fuel : nat) :
  ~ hasPlaceholder endTag ->
  (forall expected info,
      _getMashInfo doc beginTag expected endTag fuel = Ret info ->
      state info <> Mashed) /\
  (forall answer,
      textIsMashed fuel doc beginTag sourceText endTag = Ret answer ->
      answer = false) /\
  (forall result,
      mash fuel doc beginTag sourceText endTag = Ret result ->
      exists i,
        i <= length doc /\
        result = firstn i doc ++ beginTag ++ sourceText ++ endTag ++ skipn i doc /\
        length result
        = length doc + length beginTag + length sourceText + length endTag).
Proof.
  intros Hno.
  assert (Hst : forall expected info,
             _getMashInfo doc beginTag expected endTag fuel = Ret info ->
             state info <> Mashed).
  { intros expected info Hinfo Hst.
    apply getMashInfo_Mashed_Found in Hinfo; [|exact Hst].
    now apply beginLoop_no_placeholder in Hinfo. }
  split; [exact Hst|]. split.
  - intros answer. unfold textIsMashed.
    destruct (_getMashInfo doc beginTag (Some sourceText) endTag fuel)
      as [info| |] eqn:Hinfo; try discriminate.
    intros [= <-]. apply Hst in Hinfo. now destruct (state info).
  - intros result Hm.
    destruct (_getMashInfo doc beginTag None endTag fuel) as [info| |] eqn:Hinfo;
      try (unfold mash in Hm; rewrite Hinfo in Hm; discriminate).
    destruct (mash_shape fuel doc beginTag sourceText endTag info Hinfo)
      as (i & j & Hspan & Hij & Hj & Hmash).
    apply spliceSpan_insert in Hspan; [|exact (Hst None info Hinfo)].
    subst j. rewrite Hmash in Hm. injection Hm as <-.
    destruct (placeholder_cases endTag) as [Hp | (_ & _ & Hrep)];
      [contradiction|].
    exists i. split; [exact Hj|].
    unfold mashBlock, materializedEndTag. rewrite Hrep.
    repeat rewrite <- app_assoc. split; [reflexivity|].
    repeat rewrite length_app. rewrite length_firstn, length_skipn. lia.
Qed.

Lemma template_without_placeholder_witness :
  ~ hasPlaceholder (T "(end)") /\
  mash 9 (T "ab<b>x(end)") (T "<b>") (T "x") (T "(end)")
  = Ret (T "ab<b>x(end)<b>x(end)") /\
  exists i,
    i <= length (T "ab<b>x(end)") /\
    T "ab<b>x(end)<b>x(end)"
    = firstn i (T "ab<b>x(end)") ++ T "<b>" ++ T "x" ++ T "(end)" ++
      skipn i (T "ab<b>x(end)") /\
    length (T "ab<b>x(end)<b>x(end)")
    = length (T "ab<b>x(end)") + length (T "<b>") + length (T "x") +
      length (T "(end)").
Proof.
  assert (Hno : ~ hasPlaceholder (T "(end)")).
  { intros [q [Hq _]]. simpl in Hq. lia. }
  assert (Hm : mash 9 (T "ab<b>x(end)") (T "<b>") (T "x") (T "(end)")
               = Ret (T "ab<b>x(end)<b>x(end)")) by (vm_compute; reflexivity).
  split; [exact Hno|]. split; [exact Hm|].
  exact (proj2 (proj2 (template_without_placeholder (T "ab<b>x(end)") (T "<b>")
                         (T "x") (T "(end)") 9 Hno))
               (T "ab<b>x(end)<b>x(end)") Hm).
Defined.

(** ** An empty begin tag *)

Lemma beginTagNext_empty (doc : text) :
  beginTagNext doc [] 0 = Some (BeginOcc 0 0).
Proof. unfold beginTagNext, indexOf. now destruct doc. Qed.

Lemma beginLoop_empty_begin (doc : text) (expected : option text)
    (endTag : text) (fuel : nat) :
  forall fb fe fi r,
    beginLoop doc [] expected endTag fuel 0 fb fe fi = Ret r ->
    exists e,
      r = Found (createInfo Mashed (Some (BeginOcc 0 0)) (Some e)) /\
      e_endIndex e = e_index e + regexp_length (endTagRegExp endTag) /\
      e_endIndex e <= length doc /\
      (exists m, match_here (endTagRegExp endTag) (skipn (e_index e) doc)
                 = Some (m, e_fingerprint e)) /\
      passes doc expected (BeginOcc 0 0, e) = true.
Proof.
  induction fuel as [|fuel IH]; intros fb fe fi r; [discriminate|].
  cbn [beginLoop]. rewrite beginTagNext_empty. cbn [b_endIndex b_index length].
  destruct (endLoop doc expected endTag (S fuel) (BeginOcc 0 0) 0 _ fe fi)
    as [[i | fb1 fe1 fi1] | |] eqn:Hend; try discriminate.
  - intros [= <-]. apply endLoop_Found_match in Hend; [|lia].
    destruct Hend as (e & -> & _ & He2 & He3 & He4 & He5).
    exists e. auto.
  - apply IH.
Qed.

(** X6: the empty begin tag.  With an empty begin tag [mash] returns only
    when the scan has found, with the state [Mashed] and the begin tag at
    offset 0, an end tag whose digest is that of the document from its
    start up to that tag; the result then is the new source text and its
    end tag followed by what the document holds after the old end tag. *)
Theorem empty_begin_tag (fuel : nat) (doc sourceText endTag result : text) :
  mash fuel doc [] sourceText endTag = Ret result ->
  exists e ee,
    _getMashInfo doc [] None endTag fuel
    = Ret (Info Mashed (Some 0) (Some 0) (Some e) (Some ee)) /\
    e <= ee /\ ee <= length doc /\
    doc = firstn e doc ++ materializedEndTag endTag (firstn e doc) ++
          skipn ee doc /\
    result = sourceText ++ materializedEndTag endTag sourceText ++ skipn ee doc.
Proof.
  intros Hm.
  destruct (_getMashInfo doc [] None endTag fuel) as [info| |] eqn:Hinfo;
    try (unfold mash in Hm; rewrite Hinfo in Hm; discriminate).
  pose proof Hinfo as Hloop. unfold _getMashInfo in Hloop.
  destruct (beginLoop doc [] None endTag fuel 0 None None Unmashed)
    as [r| |] eqn:Hb; try discriminate.
  apply beginLoop_empty_begin in Hb
    as (e & -> & Hee & Hed & [m Hma] & Hpass).
  injection Hloop as <-.
  destruct (mash_shape fuel doc [] sourceText endTag _ Hinfo)
    as (i & j & Hspan & _ & _ & Hmash).
  unfold spliceSpan in Hspan. cbn in Hspan. injection Hspan as <- <-.
  rewrite Hmash in Hm. injection Hm as <-.
  exists (e_index e), (e_endIndex e). split; [reflexivity|].
  split; [lia|]. split; [exact Hed|].
  unfold passes in Hpass. cbn [fst snd] in Hpass.
  apply andb_true_iff in Hpass as [_ Hf]. apply negb_true_iff in Hf.
  unfold fingerprintInvalid, potentialSourceText in Hf.
  cbn [b_endIndex] in Hf. rewrite substring_0 in Hf.
  destruct (e_fingerprint e) as [f|] eqn:Hfp; [|discriminate].
  apply negb_false_iff, text_eqb_eq in Hf.
  pose proof (match_here_firstn _ _ _ _ Hma) as [Hmf Hml].
  apply end_match_is_materialized in Hma as (_ & Hmat & _ & _).
  split; [|unfold mashBlock; cbn [firstn app]; now rewrite <- app_assoc].
  assert (H3 : skipn (e_index e) doc = m ++ skipn (e_endIndex e) doc).
  { rewrite <- (firstn_skipn (regexp_length (endTagRegExp endTag))
                  (skipn (e_index e) doc)) at 1.
    rewrite <- Hmf, skipn_skipn. do 2 f_equal. lia. }
  unfold materializedEndTag. rewrite <- Hf, <- Hmat, <- H3.
  symmetry. apply firstn_skipn.
Qed.

Lemma empty_begin_tag_witness :
  exists e ee,
    _getMashInfo (T "x(11f6ad8ec52a2984abaafd7c3b516503785c2072)cd") []
                 None (T "(%fingerprint%)") 60
    = Ret (Info Mashed (Some 0) (Some 0) (Some e) (Some ee)) /\
    e <= ee /\
    ee <= length (T "x(11f6ad8ec52a2984abaafd7c3b516503785c2072)cd") /\
    T "x(11f6ad8ec52a2984abaafd7c3b516503785c2072)cd"
    = firstn e (T "x(11f6ad8ec52a2984abaafd7c3b516503785c2072)cd") ++
      materializedEndTag (T "(%fingerprint%)")
        (firstn e (T "x(11f6ad8ec52a2984abaafd7c3b516503785c2072)cd")) ++
      skipn ee (T "x(11f6ad8ec52a2984abaafd7c3b516503785c2072)cd") /\
    T "y(95cb0bfd2977c761298d9624e4b4d4c72a39974a)cd"
    = T "y" ++ materializedEndTag (T "(%fingerprint%)") (T "y") ++
      skipn ee (T "x(11f6ad8ec52a2984abaafd7c3b516503785c2072)cd").
Proof.
  apply (empty_begin_tag 60). vm_compute. reflexivity.
Defined.

(** ** An empty end-tag template *)

Lemma endTagNext_empty (doc : text) (index : nat) :
  endTagNext doc [] index = Some (EndOcc index index None).
Proof.
  unfold endTagNext.
  assert (Hx : exec (endTagRegExp []) (substringFrom doc index)
               = Some (RegMatch 0 [] None)).
  { unfold exec. now destruct (substringFrom doc index). }
  rewrite Hx. cbn [m_index m_0 m_1 length].
  now rewrite !Nat.add_0_r.
Qed.

Lemma endLoop_empty_end (doc : text) (expected : option text)
    (b : BeginTagOccurrence) (fuel : nat) :
  forall index fb fe fi,
    endLoop doc expected [] fuel b index fb fe fi = OutOfFuel.
Proof.
  induction fuel as [|fuel IH]; intros index fb fe fi; [reflexivity|].
  cbn [endLoop]. rewrite endTagNext_empty.
  unfold fingerprintInvalid. cbn [e_fingerprint e_endIndex].
  rewrite andb_false_r. apply IH.
Qed.

(** X7: the empty end-tag template.  When the begin tag occurs in the
    document, the scan for an empty end tag never ends, so neither
    [_getMashInfo] nor [mash] returns, whatever the bound.  When the begin
    tag does not occur, the scan reports [BeginTagMissing] with an end tag
    at offset 0, and [mash] puts the begin tag and the source text in front
    of the document. *)
Theorem empty_end_tag (doc beginTag sourceText : text)
    (expected : option text) (fuel : nat) :
  ((exists q, occurs_at beginTag doc q) ->
   _getMashInfo doc beginTag expected [] fuel = OutOfFuel /\
   mash fuel doc beginTag sourceText [] = OutOfFuel) /\
  ((forall q, ~ occurs_at beginTag doc q) -> 0 < fuel ->
   _getMashInfo doc beginTag expected [] fuel
   = Ret (Info BeginTagMissing None None (Some 0) (Some 0)) /\
   mash fuel doc beginTag sourceText [] = Ret (beginTag ++ sourceText ++ doc)).
Proof.
  split.
  - intros [q Hq].
    assert (Hloop : forall expected',
               beginLoop doc beginTag expected' [] fuel 0 None None Unmashed
               = OutOfFuel).
    { intros expected'. destruct fuel as [|fuel]; [reflexivity|].
      cbn [beginLoop].
      destruct (beginTagNext doc beginTag 0) as [b|] eqn:Hb.
      - now rewrite endLoop_empty_end.
      - exfalso. apply (beginTagNext_None _ _ _ Hb q); [lia | exact Hq]. }
    unfold mash, _getMashInfo. now rewrite !Hloop.
  - intros Hno Hfuel.
    assert (Hinfo : forall expected',
               _getMashInfo doc beginTag expected' [] fuel
               = Ret (Info BeginTagMissing None None (Some 0) (Some 0))).
    { intros expected'. destruct fuel as [|fuel]; [lia|].
      unfold _getMashInfo. cbn [beginLoop].
      rewrite no_begin_beginTagNext by exact Hno.
      now rewrite endTagNext_empty. }
    split; [apply Hinfo|].
    unfold mash. rewrite Hinfo. cbn [state endOfEndTagIndex].
    rewrite insertText_Some by lia.
    unfold mashBlock, materializedEndTag.
    change (replace Ascii.eqb [] FINGERPRINT_PLACEHOLDER
              (_fingerprint sourceText)) with (@nil ascii).
    now rewrite app_nil_r, <- app_assoc.
Qed.

Lemma empty_end_tag_witness :
  ((exists q, occurs_at (T "<b>") (T "ab<b>cd") q) /\
   _getMashInfo (T "ab<b>cd") (T "<b>") None [] 1000 = OutOfFuel /\
   mash 1000 (T "ab<b>cd") (T "<b>") (T "x") [] = OutOfFuel) /\
  ((forall q, ~ occurs_at (T "<b>") (T "abcd") q) /\ 0 < 5 /\
   _getMashInfo (T "abcd") (T "<b>") None [] 5
   = Ret (Info BeginTagMissing None None (Some 0) (Some 0)) /\
   mash 5 (T "abcd") (T "<b>") (T "x") [] = Ret (T "<b>xabcd")).
Proof.
  assert (H1 : exists q, occurs_at (T "<b>") (T "ab<b>cd") q).
  { exists 2. split; [simpl; lia | reflexivity]. }
  assert (H2 : forall q, ~ occurs_at (T "<b>") (T "abcd") q).
  { intros q [Hq Ho]. simpl in Hq.
    destruct q as [|[|q]]; [discriminate Ho | discriminate Ho | lia]. }
  split.
  - split; [exact H1|].
    exact (proj1 (empty_end_tag (T "ab<b>cd") (T "<b>") (T "x") None 1000) H1).
  - split; [exact H2|]. split; [lia|].
    exact (proj2 (empty_end_tag (T "abcd") (T "<b>") (T "x") None 5) H2
                 ltac:(lia)).
Defined.

(** ** Writing an end tag and reading it back *)

(** X9: what [_insertText] writes as the end tag,
    [endTagOccurrenceIterator] reads back.  For a template that holds the
    placeholder and any 40 hexadecimal characters [h], in either case, the
    iterator resumed where the template with [h] in the place of the
    placeholder starts yields that very span, and its fingerprint is [h],
    whatever precedes and follows. *)
Theorem end_tag_round_trip (X rest endTag h : text) :
  hasPlaceholder endTag ->
  length h = FINGERPRINT_VALUE_IN_HEX_LENGTH ->
  forallb isHexDigit h = true ->
  endTagNext (X ++ replace Ascii.eqb endTag FINGERPRINT_PLACEHOLDER h ++ rest)
             endTag (length X)
  = Some (EndOcc (length X)
                 (length X +
                  length (replace Ascii.eqb endTag FINGERPRINT_PLACEHOLDER h))
                 (Some h)) /\
  length (replace Ascii.eqb endTag FINGERPRINT_PLACEHOLDER h) + length FINGERPRINT_PLACEHOLDER
  = length endTag + FINGERPRINT_VALUE_IN_HEX_LENGTH.
Proof.
  intros Hp Hlen Hhex.
  destruct (placeholder_split endTag Hp) as (pre & post & Hsplit & Hrep & Hre).
  rewrite Hrep.
  assert (Hm : match_here (endTagRegExp endTag)
                 (skipn (length X) (X ++ (pre ++ h ++ post) ++ rest))
               = Some (pre ++ h ++ post, Some h)).
  { rewrite skipn_app, skipn_all, Nat.sub_diag. cbn [skipn app].
    rewrite Hre. repeat rewrite <- app_assoc.
    now apply match_here_end_tag. }
  split.
  - pose proof (match_here_firstn _ _ _ _ Hm) as [_ Hl]. rewrite Hl.
    apply (endTagNext_first _ _ _ _ (pre ++ h ++ post)).
    + lia.
    + rewrite length_app. lia.
    + exact Hm.
    + intros q Hq1 Hq2. lia.
  - rewrite Hsplit. repeat rewrite length_app. lia.
Qed.

Lemma end_tag_round_trip_witness :
  endTagNext (T "ab" ++
              replace Ascii.eqb (T "(%fingerprint%)") FINGERPRINT_PLACEHOLDER
                (T "11F6AD8EC52A2984ABAAFD7C3B516503785C2072") ++ T "cd")
             (T "(%fingerprint%)") (length (T "ab"))
  = Some (EndOcc 2 44 (Some (T "11F6AD8EC52A2984ABAAFD7C3B516503785C2072"))).
Proof.
  exact (proj1 (end_tag_round_trip (T "ab") (T "cd") (T "(%fingerprint%)")
                  (T "11F6AD8EC52A2984ABAAFD7C3B516503785C2072")
                  ltac:(exists 1; split; [simpl; lia | reflexivity])
                  eq_refl eq_refl)).
Defined.

(** ** Inserting loses nothing *)

(** X10: in every state but [Mashed] the merge only adds text.  When the
    scan without an expected source text returns a state other than
    [Mashed], [mash] returns the document with the new block put in at one
    offset [i]: cutting the block out of the result at [i] gives the
    document back, and the result is longer than the document by the
    length of the block. *)
Theorem insertion_is_undoable (fuel : nat)
    (doc beginTag sourceText endTag : text) (info : MashInfo) :
  _getMashInfo doc beginTag None endTag fuel = Ret info ->
  state info <> Mashed ->
  exists i result,
    i <= length doc /\
    mash fuel doc beginTag sourceText endTag = Ret result /\
    result = firstn i doc ++ mashBlock beginTag sourceText endTag ++ skipn i doc /\
    firstn i result
    ++ skipn (i + length (mashBlock beginTag sourceText endTag)) result = doc /\
    length result = length doc + length (mashBlock beginTag sourceText endTag).
Proof.
  intros Hinfo Hst.
  destruct (mash_shape fuel doc beginTag sourceText endTag info Hinfo)
    as (i & j & Hspan & _ & Hj & Hmash).
  apply spliceSpan_insert in Hspan; [|exact Hst]. subst j.
  exists i, (firstn i doc ++ mashBlock beginTag sourceText endTag ++ skipn i doc).
  split; [exact Hj|]. split; [exact Hmash|]. split; [reflexivity|].
  assert (Hl : length (firstn i doc) = i)
    by (rewrite length_firstn; lia).
  split.
  - rewrite firstn_app, Hl, Nat.sub_diag, firstn_firstn, Nat.min_id.
    cbn [firstn]. rewrite app_nil_r.
    rewrite skipn_app, Hl.
    replace (i + length (mashBlock beginTag sourceText endTag) - i)
      with (length (mashBlock beginTag sourceText endTag)) by lia.
    rewrite (skipn_all2 (firstn i doc)) by lia. cbn [app].
    rewrite skipn_app, skipn_all, Nat.sub_diag. cbn [skipn app].
    apply firstn_skipn.
  - repeat rewrite length_app. rewrite Hl, length_skipn. lia.
Qed.

Lemma insertion_is_undoable_witness :
  exists i result,
    i <= length (T "ab<b>cd") /\
    mash 9 (T "ab<b>cd") (T "<b>") (T "x") (T "(%fingerprint%)") = Ret result /\
    result = firstn i (T "ab<b>cd") ++
             mashBlock (T "<b>") (T "x") (T "(%fingerprint%)") ++
             skipn i (T "ab<b>cd") /\
    firstn i result
    ++ skipn (i + length (mashBlock (T "<b>") (T "x") (T "(%fingerprint%)")))
         result
    = T "ab<b>cd" /\
    length result
    = length (T "ab<b>cd") +
      length (mashBlock (T "<b>") (T "x") (T "(%fingerprint%)")).
Proof.
  apply (insertion_is_undoable 9 (T "ab<b>cd") (T "<b>") (T "x")
           (T "(%fingerprint%)") (Info EndTagMissing (Some 2) (Some 5) None None)).
  - vm_compute. reflexivity.
  - discriminate.
Defined.

(** ** What each state says about the document *)

Section StateMeaning.

Variable doc beginTag : text.
Variable expected : option text.
Variable endTag : text.

Lemma endTagNext_None_later (i j : nat) :
  endTagNext doc endTag i = None -> i <= j -> j <= length doc ->
  endTagNext doc endTag j = None.
Proof.
  intros Hi Hij Hj.
  destruct (endTagNext doc endTag j) as [e|] eqn:He; [|reflexivity].
  apply endTagNext_Some in He as (H1 & _ & H3 & [m H4] & _); [|exact Hj].
  pose proof (match_here_firstn _ _ _ _ H4) as [_ Hl].
  rewrite (endTagNext_None _ _ _ Hi (e_index e)) in H4; [discriminate|lia|].
  destruct (Nat.le_gt_cases (e_index e) (length doc)) as [Hle|Hgt]; [exact Hle|].
  rewrite skipn_all2 in H4 by lia.
  pose proof (endTagNext_None _ _ _ Hi (length doc) ltac:(lia) (le_n _)) as Hn.
  rewrite skipn_all in Hn. congruence.
Qed.

Lemma stateStep_fixed (fi fi' : MashState) :
  stateStep expected fi fi' -> fi <> Unmashed -> fi' = fi.
Proof. intros [H | [H _]] Hne; [exact H | contradiction]. Qed.

Lemma invalidStateOf_not_Unmashed (p : BeginTagOccurrence * EndTagOccurrence) :
  passes doc expected p = false -> invalidStateOf doc expected p <> Unmashed.
Proof. intros H. apply invalidStateOf_fail in H as [-> | ->]; discriminate. Qed.

Lemma beginLoop_no_end (lo : nat) (fuel : nat) :
  endTagNext doc endTag lo = None ->
  forall index fb fi fb' fe' fi',
    lo <= index -> index <= length doc ->
    beginLoop doc beginTag expected endTag fuel index fb None fi
    = Ret (Exhausted fb' fe' fi') ->
    fe' = None /\ fi' = fi.
Proof.
  intros Hlo. induction fuel as [|fuel IH];
    intros index fb fi fb' fe' fi' Hle Hidx; [discriminate|].
  cbn [beginLoop].
  destruct (beginTagNext doc beginTag index) as [b|] eqn:Hb.
  - pose proof (beginTagNext_Some _ _ _ _ Hb) as (H1 & H2 & [Hfit _] & _).
    rewrite Nat.min_l in H1 by exact Hidx.
    cbn [endLoop].
    rewrite (endTagNext_None_later lo (b_endIndex b) Hlo) by lia.
    apply IH; lia.
  - intros [= _ <- <-]. auto.
Qed.

Lemma beginLoop_first (fuel index : nat) (fb fb' : option BeginTagOccurrence)
    (fe' : option EndTagOccurrence) (fi' : MashState) (b : BeginTagOccurrence) :
  index <= length doc ->
  beginLoop doc beginTag expected endTag fuel index fb None Unmashed
  = Ret (Exhausted fb' fe' fi') ->
  beginTagNext doc beginTag index = Some b ->
  match endTagNext doc endTag (b_endIndex b) with
  | None => fe' = None
  | Some e =>
      fe' = Some e /\ fi' = invalidStateOf doc expected (b, e) /\
      passes doc expected (b, e) = false
  end.
Proof.
  intros Hidx Hloop Hb. destruct fuel as [|fuel]; [discriminate|].
  cbn [beginLoop] in Hloop. rewrite Hb in Hloop.
  pose proof (beginTagNext_Some _ _ _ _ Hb) as (H1 & H2 & [Hfit _] & _).
  rewrite Nat.min_l in H1 by exact Hidx.
  cbn [endLoop] in Hloop.
  destruct (endTagNext doc endTag (b_endIndex b)) as [e|] eqn:He.
  - apply endTagNext_Some in He as (_ & _ & He3 & _ & _); [|lia].
    change (negb (sourceTextTampered doc expected b e) &&
            negb (fingerprintInvalid doc b e))
      with (passes doc expected (b, e)) in Hloop.
    destruct (passes doc expected (b, e)) eqn:Hp; [discriminate|].
    match type of Hloop with
    | context [endLoop _ _ _ _ _ _ _ _ ?s] =>
        change s with (invalidStateOf doc expected (b, e)) in Hloop
    end.
    destruct (endLoop doc expected endTag fuel b (e_endIndex e) _ (Some e)
                (invalidStateOf doc expected (b, e)))
      as [[i | fb2 fe2 fi2] | |] eqn:Hend; try discriminate.
    apply endLoop_inv in Hend; [|exact He3].
    destruct Hend as (_ & Hst & Hfe & _).
    apply beginLoop_inv in Hloop; [|lia].
    destruct Hloop as (_ & Hst' & Hfe' & _).
    apply stateStep_fixed in Hst;
      [|now apply invalidStateOf_not_Unmashed].
    subst fi2.
    apply stateStep_fixed in Hst';
      [|now apply invalidStateOf_not_Unmashed].
    split; [apply Hfe'; now apply Hfe|]. now split.
  - apply (beginLoop_no_end (b_endIndex b)) in Hloop; [|exact He|lia|lia].
    apply Hloop.
Qed.

End StateMeaning.

(** X8: what each returned state says about the document.  [Unmashed]: no
    begin tag and no end tag anywhere, and no offset is reported.
    [BeginTagMissing]: no begin tag anywhere, and the leftmost end tag is
    reported.  [EndTagMissing]: the leftmost begin tag is reported and no
    end tag starts at or after its end.  [SourceTextTampered] and
    [FingerprintInvalid]: the leftmost begin tag and the first end tag at
    or after its end are reported, and the state is [SourceTextTampered]
    exactly when an expected source text was given and differs from the
    text between the two.  [Mashed]: a begin tag and an end tag at or after
    its end are reported. *)
Theorem state_meaning (doc beginTag : text) (expected : option text)
    (endTag : text) (fuel : nat) (info : MashInfo) :
  _getMashInfo doc beginTag expected endTag fuel = Ret info ->
  match state info with
  | Unmashed =>
      info = Info Unmashed None None None None /\
      (forall q, ~ occurs_at beginTag doc q) /\
      (forall q, ~ matches_at (endTagRegExp endTag) doc q)
  | BeginTagMissing =>
      exists e,
        info = Info BeginTagMissing None None (Some e)
                    (Some (e + regexp_length (endTagRegExp endTag))) /\
        (forall q, ~ occurs_at beginTag doc q) /\
        matches_at (endTagRegExp endTag) doc e /\
        (forall q, q < e -> ~ matches_at (endTagRegExp endTag) doc q)
  | EndTagMissing =>
      exists b,
        info = Info EndTagMissing (Some b) (Some (b + length beginTag))
                    None None /\
        occurs_at beginTag doc b /\
        (forall q, q < b -> ~ occurs_at beginTag doc q) /\
        (forall q, b + length beginTag <= q ->
                   ~ matches_at (endTagRegExp endTag) doc q)
  | Mashed =>
      exists b e,
        info = Info Mashed (Some b) (Some (b + length beginTag)) (Some e)
                    (Some (e + regexp_length (endTagRegExp endTag))) /\
        occurs_at beginTag doc b /\ b + length beginTag <= e /\
        matches_at (endTagRegExp endTag) doc e
  | SourceTextTampered | FingerprintInvalid =>
      exists b e,
        info = Info (state info) (Some b) (Some (b + length beginTag)) (Some e)
                    (Some (e + regexp_length (endTagRegExp endTag))) /\
        occurs_at beginTag doc b /\
        (forall q, q < b -> ~ occurs_at beginTag doc q) /\
        b + length beginTag <= e /\
        matches_at (endTagRegExp endTag) doc e /\
        (forall q, b + length beginTag <= q -> q < e ->
                   ~ matches_at (endTagRegExp endTag) doc q) /\
        (state info = SourceTextTampered <->
         exists s, expected = Some s /\
                   s <> substring doc (b + length beginTag) e)
  end.
Proof.
  unfold _getMashInfo.
  destruct (beginLoop doc beginTag expected endTag fuel 0 None None Unmashed)
    as [[i | fb fe fi] | |] eqn:Hloop; try discriminate.
  - intros [= <-]. apply beginLoop_Found_match in Hloop; [|lia].
    destruct Hloop as (b & e & -> & Ho & Hbe & Hle & Hee & Hed & [m Hm] & _).
    cbn [state createInfo]. exists (b_index b), (e_index e).
    rewrite <- Hbe, <- Hee.
    split; [reflexivity|]. split; [exact Ho|]. split; [exact Hle|].
    split; [lia | congruence].
  - pose proof (beginLoop_inv _ _ _ _ _ _ _ _ _ _ (Nat.le_0_l _) Hloop)
      as (Hfb & _ & _ & _ & Hnone).
    destruct (beginTagNext doc beginTag 0) as [b|] eqn:Hb.
    + pose proof (beginLoop_first _ _ _ _ _ _ _ _ _ _ _ (Nat.le_0_l _) Hloop Hb)
        as Hfirst.
      pose proof (beginTagNext_Some _ _ _ _ Hb) as (_ & H2 & H3 & H4).
      pose proof H3 as [Hfit _].
      subst fb.
      destruct (endTagNext doc endTag (b_endIndex b)) as [e|] eqn:He.
      * destruct Hfirst as (-> & -> & Hp).
        apply endTagNext_Some in He as (He1 & He2 & He3 & [m He4] & He5);
          [|lia].
        intros [= <-]. cbn [state createInfo].
        assert (Hgoal :
          exists b0 e0,
            createInfo (invalidStateOf doc expected (b, e)) (Some b) (Some e)
            = Info (invalidStateOf doc expected (b, e)) (Some b0)
                   (Some (b0 + length beginTag)) (Some e0)
                   (Some (e0 + regexp_length (endTagRegExp endTag))) /\
            occurs_at beginTag doc b0 /\
            (forall q, q < b0 -> ~ occurs_at beginTag doc q) /\
            b0 + length beginTag <= e0 /\
            matches_at (endTagRegExp endTag) doc e0 /\
            (forall q, b0 + length beginTag <= q -> q < e0 ->
                       ~ matches_at (endTagRegExp endTag) doc q) /\
            (invalidStateOf doc expected (b, e) = SourceTextTampered <->
             exists s, expected = Some s /\
                       s <> substring doc (b0 + length beginTag) e0)).
        { exists (b_index b), (e_index e). rewrite <- H2, <- He2.
          split; [reflexivity|]. split; [exact H3|].
          split; [intros q Hq; apply H4; [rewrite Nat.min_0_l|]; lia|].
          split; [exact He1|].
          split; [split; [lia | congruence]|].
          split; [intros q Hq1 Hq2 [_ Hq]; apply Hq; now apply He5|].
          unfold invalidStateOf, sourceTextTampered, potentialSourceText.
          cbn [fst snd]. destruct expected as [s|].
          - destruct (text_eqb s (substring doc (b_endIndex b) (e_index e)))
              eqn:Hs; cbn [negb].
            + apply text_eqb_eq in Hs. split.
              * destruct (fingerprintInvalid doc b e); discriminate.
              * intros (s' & [= <-] & Hne). contradiction.
            + apply text_eqb_neq in Hs. split; [|reflexivity].
              intros _. exists s. now split.
          - split.
            + destruct (fingerprintInvalid doc b e); discriminate.
            + intros (s' & [=] & _). }
        destruct (invalidStateOf_fail _ _ _ Hp) as [Hs | Hs];
          rewrite Hs in Hgoal |- *; exact Hgoal.
      * subst fe. intros [= <-]. cbn [state createInfo].
        exists (b_index b). rewrite <- H2. split; [reflexivity|].
        split; [exact H3|].
        split; [intros q Hq; apply H4; [rewrite Nat.min_0_l|]; lia|].
        intros q Hq [Hq1 Hq2]. apply Hq2.
        now apply (endTagNext_None _ _ _ He).
    + destruct (Hnone eq_refl) as [-> ->]. subst fb.
      destruct (endTagNext doc endTag 0) as [e|] eqn:He; intros [= <-];
        cbn [state createInfo].
      * apply endTagNext_Some in He as (_ & He2 & He3 & [m He4] & He5); [|lia].
        exists (e_index e). rewrite <- He2. split; [reflexivity|].
        split; [intros q; apply (beginTagNext_None _ _ _ Hb); lia|].
        split; [split; [lia | congruence]|].
        intros q Hq [_ Hq2]. apply Hq2. apply He5; lia.
      * split; [reflexivity|].
        split; [intros q; apply (beginTagNext_None _ _ _ Hb); lia|].
        intros q [Hq1 Hq2]. apply Hq2.
        apply (endTagNext_None _ _ _ He); lia.
Qed.

Lemma state_meaning_witness :
  _getMashInfo (T "ab<b>y(11f6ad8ec52a2984abaafd7c3b516503785c2072)cd")
               (T "<b>") (Some (T "x")) (T "(%fingerprint%)") 60
  = Ret (Info SourceTextTampered (Some 2) (Some 5) (Some 6) (Some 48)) /\
  exists s,
    Some (T "x") = Some s /\
    s <> substring (T "ab<b>y(11f6ad8ec52a2984abaafd7c3b516503785c2072)cd") 5 6.
Proof.
  assert (H : _getMashInfo (T "ab<b>y(11f6ad8ec52a2984abaafd7c3b516503785c2072)cd")
                (T "<b>") (Some (T "x")) (T "(%fingerprint%)") 60
              = Ret (Info SourceTextTampered (Some 2) (Some 5) (Some 6) (Some 48)))
    by (vm_compute; reflexivity).
  split; [exact H|].
  pose proof (state_meaning _ _ _ _ _ _ H) as Hs. cbn [state] in Hs.
  destruct Hs as (b & e & Hi & _ & _ & _ & _ & _ & Hiff).
  injection Hi as Hb _ He _. subst b e. apply Hiff. reflexivity.
Defined.

(** ** Tags that make a written block detectable *)

Lemma unbordered_beginClear (doc beginTag : text) (i : nat) :
  unbordered beginTag -> occurs_at beginTag doc i -> beginClear doc beginTag i.
Proof.
  intros Hu [Hfit Ho] q Hq [Hqfit Hqo].
  destruct (Nat.le_gt_cases (q + length beginTag) i) as [Hle|Hgt]; [exact Hle|].
  exfalso. apply (Hu (i - q)); [lia | lia |].
  rewrite <- Hqo at 1. rewrite <- Ho at 3.
  rewrite skipn_firstn_comm, skipn_skipn, firstn_firstn.
  replace (i - q + q) with i by lia.
  f_equal. lia.
Qed.

Lemma endTagRegExp_head (c : ascii) (endTag' : text) :
  c <> "%"%char ->
  exists re, endTagRegExp (c :: endTag') = Lit c :: re.
Proof.
  intros Hc. destruct (placeholder_cases (c :: endTag')) as [Hp | (_ & Hre & _)].
  - destruct (placeholder_split _ Hp) as (pre & post & Hsplit & _ & Hre).
    destruct pre as [|c0 pre].
    + injection Hsplit as Hc0 _. contradiction.
    + injection Hsplit as <- _. rewrite Hre. simpl. eauto.
  - rewrite Hre. simpl. eauto.
Qed.

Lemma first_char_endAbsent (X sourceText rest : text) (c : ascii)
    (endTag' : text) :
  c <> "%"%char -> ~ In c sourceText ->
  endAbsent (X ++ sourceText ++ rest) (c :: endTag')
            (length X) (length X + length sourceText).
Proof.
  intros Hc Hin q Hq1 Hq2 [_ Hm].
  destruct (endTagRegExp_head c endTag' Hc) as [re Hre]. rewrite Hre in Hm.
  rewrite skipn_app, (skipn_all2 X) in Hm by exact Hq1. cbn [app] in Hm.
  rewrite skipn_app in Hm.
  destruct (skipn (q - length X) sourceText) as [|d t] eqn:Hs.
  - apply (f_equal (@length ascii)) in Hs. rewrite length_skipn in Hs.
    simpl in Hs. lia.
  - cbn [app match_here] in Hm.
    destruct (Ascii.eqb c d) eqn:Hcd; [|now apply Hm].
    apply Ascii.eqb_eq in Hcd. subst d. apply Hin.
    rewrite <- (firstn_skipn (q - length X) sourceText), Hs.
    apply in_or_app. right. now left.
Qed.

(** X11: tags under which a merge is always detected.  When the begin tag
    is not empty and does not overlap itself, and the end-tag template
    holds the placeholder and starts with a character, other than the
    percent sign, that does not occur in the source text, then [mash]
    returns on every document, and [textIsMashed] is true of its result
    for that source text. *)
Theorem clean_tags_are_detected (fuel fuel' : nat)
    (doc beginTag sourceText : text) (c : ascii) (endTag' : text) :
  beginTag <> [] -> unbordered beginTag ->
  c <> "%"%char -> hasPlaceholder (c :: endTag') -> ~ In c sourceText ->
  length doc < fuel ->
  exists result,
    mash fuel doc beginTag sourceText (c :: endTag') = Ret result /\
    (length result < fuel' ->
     textIsMashed fuel' result beginTag sourceText (c :: endTag') = Ret true).
Proof.
  intros Hb Hu Hc He Hin Hfuel.
  destruct (getMashInfo_terminates doc beginTag None (c :: endTag') Hb
              (endTag_nonempty_of_placeholder _ He) fuel Hfuel)
    as [info Hinfo].
  destruct (mash_shape fuel doc beginTag sourceText (c :: endTag') info Hinfo)
    as (i & j & _ & _ & _ & Hmash).
  eexists. split; [exact Hmash|].
  generalize (firstn i doc) (skipn j doc). intros X Y Hfuel'.
  apply written_block_mashed; try assumption.
  - apply unbordered_beginClear; [exact Hu|]. unfold mashBlock.
    rewrite <- app_assoc. apply occurs_at_app.
  - apply endAbsent_clear. unfold mashBlock.
    pose proof (first_char_endAbsent (X ++ beginTag) sourceText
                  (materializedEndTag (c :: endTag') sourceText ++ Y)
                  c endTag' Hc Hin) as Ha.
    rewrite length_app in Ha. repeat rewrite <- app_assoc in *. exact Ha.
Qed.

Lemma clean_tags_are_detected_witness :
  exists result,
    mash 20 (T "ab<b>cd") (T "<b>") (T "x(") (T ")%fingerprint%)") = Ret result /\
    (length result < 100 ->
     textIsMashed 100 result (T "<b>") (T "x(") (T ")%fingerprint%)")
     = Ret true).
Proof.
  apply (clean_tags_are_detected 20 100 (T "ab<b>cd") (T "<b>") (T "x(")
           ")"%char (T "%fingerprint%)")).
  - discriminate.
  - intros d Hd1 Hd2. simpl in Hd2.
    destruct d as [|[|[|d]]]; try lia; discriminate.
  - discriminate.
  - exists 1. split; [simpl; lia | reflexivity].
  - simpl. intros [H | [H | []]]; discriminate.
  - simpl. lia.
Defined.

(** ** What the two iterators yield and what they skip *)

Lemma beginTagOccurrences_disjoint (doc beginTag : text) (fuel : nat) :
  forall index b1 b2,
    index <= length doc ->
    In b1 (beginTagOccurrences fuel doc beginTag index) ->
    In b2 (beginTagOccurrences fuel doc beginTag index) ->
    b_index b1 < b_index b2 -> b_endIndex b1 <= b_index b2.
Proof.
  induction fuel as [|fuel IH]; intros index b1 b2 Hidx; simpl; [tauto|].
  destruct (beginTagNext doc beginTag index) as [b|] eqn:Hb; [|simpl; tauto].
  apply beginTagNext_Some in Hb as (_ & H2 & [Hfit _] & _).
  assert (Hend : b_endIndex b <= length doc) by lia.
  intros [<- | H1] [<- | H2'] Hlt.
  - lia.
  - now apply beginTagOccurrences_In in H2' as [H _].
  - apply beginTagOccurrences_In in H1 as [H _]; [lia | exact Hend].
  - now apply (IH (b_endIndex b)).
Qed.

Lemma beginTagOccurrences_cover (doc beginTag : text) :
  beginTag <> [] ->
  forall fuel index q,
    index <= q -> occurs_at beginTag doc q -> q - index < fuel ->
    exists b,
      In b (beginTagOccurrences fuel doc beginTag index) /\
      b_index b <= q /\ q < b_endIndex b.
Proof.
  intros Hne. pose proof (beginTag_length_pos beginTag Hne) as Hpos.
  induction fuel as [|fuel IH]; intros index q Hiq Hocc Hfuel; [lia|].
  simpl. pose proof Hocc as [Hfit _].
  destruct (beginTagNext doc beginTag index) as [b|] eqn:Hb.
  - apply beginTagNext_Some in Hb as (H1 & H2 & H3 & H4).
    rewrite Nat.min_l in H1, H4 by lia.
    assert (Hle : b_index b <= q).
    { destruct (Nat.le_gt_cases (b_index b) q) as [H|H]; [exact H|].
      exfalso. now apply (H4 q). }
    destruct (Nat.lt_ge_cases q (b_endIndex b)) as [Hin | Hout].
    + exists b. split; [now left | lia].
    + assert (Hf : q - b_endIndex b < fuel) by lia.
      destruct (IH (b_endIndex b) q Hout Hocc Hf) as (b' & Hb' & Hr).
      exists b'. split; [now right | exact Hr].
  - exfalso. now apply (beginTagNext_None _ _ _ Hb q).
Qed.

Lemma endTagOccurrences_disjoint (doc endTag : text) (fuel : nat) :
  forall index e1 e2,
    index <= length doc ->
    In e1 (endTagOccurrences fuel doc endTag index) ->
    In e2 (endTagOccurrences fuel doc endTag index) ->
    e_index e1 < e_index e2 -> e_endIndex e1 <= e_index e2.
Proof.
  induction fuel as [|fuel IH]; intros index e1 e2 Hidx; simpl; [tauto|].
  destruct (endTagNext doc endTag index) as [e|] eqn:He; [|simpl; tauto].
  apply endTagNext_Some in He as (_ & H2 & Hend & _ & _); [|exact Hidx].
  intros [<- | H1] [<- | H2'] Hlt.
  - lia.
  - now apply endTagOccurrences_In in H2' as [H _].
  - apply endTagOccurrences_In in H1 as [H _]; [lia | exact Hend].
  - now apply (IH (e_endIndex e)).
Qed.

Lemma endTagOccurrences_cover (doc endTag : text) :
  endTag <> [] ->
  forall fuel index q,
    index <= q -> matches_at (endTagRegExp endTag) doc q -> q - index < fuel ->
    exists e,
      In e (endTagOccurrences fuel doc endTag index) /\
      e_index e <= q /\ q < e_endIndex e.
Proof.
  intros Hne. pose proof (endTagRegExp_length_pos endTag Hne) as Hpos.
  induction fuel as [|fuel IH]; intros index q Hiq Hm Hfuel; [lia|].
  simpl. pose proof Hm as [Hq Hmatch].
  destruct (endTagNext doc endTag index) as [e|] eqn:He.
  - apply endTagNext_Some in He as (H1 & H2 & H3 & _ & H5); [|lia].
    assert (Hle : e_index e <= q).
    { destruct (Nat.le_gt_cases (e_index e) q) as [H|H]; [exact H|].
      exfalso. apply Hmatch. now apply H5. }
    destruct (Nat.lt_ge_cases q (e_endIndex e)) as [Hin | Hout].
    + exists e. split; [now left | lia].
    + assert (Hf : q - e_endIndex e < fuel) by lia.
      destruct (IH (e_endIndex e) q Hout Hm Hf) as (e' & He' & Hr).
      exists e'. split; [now right | exact Hr].
  - exfalso. apply Hmatch. now apply (endTagNext_None _ _ _ He).
Qed.

(** X12: what [beginTagOccurrenceIterator] yields.  For a non-empty begin
    tag, every yielded span is an occurrence of the tag, no two yielded
    spans overlap, and an occurrence of the tag in the document is left
    out only when it starts inside a yielded one: every occurrence starts
    in some yielded span. *)
Theorem begin_iterator_yields (doc beginTag : text) :
  beginTag <> [] ->
  (forall b, In b (beginTagOccurrences (S (length doc)) doc beginTag 0) ->
             occurs_at beginTag doc (b_index b) /\
             b_endIndex b = b_index b + length beginTag) /\
  (forall b1 b2,
      In b1 (beginTagOccurrences (S (length doc)) doc beginTag 0) ->
      In b2 (beginTagOccurrences (S (length doc)) doc beginTag 0) ->
      b_index b1 < b_index b2 -> b_endIndex b1 <= b_index b2) /\
  (forall q, occurs_at beginTag doc q ->
             exists b,
               In b (beginTagOccurrences (S (length doc)) doc beginTag 0) /\
               b_index b <= q /\ q < b_endIndex b).
Proof.
  intros Hne. split; [|split].
  - intros b Hb. now apply beginTagOccurrences_In in Hb as (_ & H); [|lia].
  - intros b1 b2. apply beginTagOccurrences_disjoint. lia.
  - intros q Hq. apply beginTagOccurrences_cover; try assumption; [lia|].
    destruct Hq as [Hfit _]. lia.
Qed.

Lemma begin_iterator_yields_witness :
  beginTagOccurrences (S (length (T "xaaaay"))) (T "xaaaay") (T "aa") 0
  = [BeginOcc 1 3; BeginOcc 3 5] /\
  exists b,
    In b (beginTagOccurrences (S (length (T "xaaaay"))) (T "xaaaay") (T "aa") 0) /\
    b_index b <= 2 /\ 2 < b_endIndex b.
Proof.
  split; [reflexivity|].
  apply (proj2 (proj2 (begin_iterator_yields (T "xaaaay") (T "aa")
                         ltac:(discriminate)))).
  split; [simpl; lia | reflexivity].
Defined.

(** X13: what [endTagOccurrenceIterator] yields.  For a non-empty end-tag
    template and a start offset in the document, every yielded span starts
    at or after the start offset and is a match of the end-tag pattern, no
    two yielded spans overlap, and a match at or after the start offset is
    left out only when it starts inside a yielded one. *)
Theorem end_iterator_yields (doc endTag : text) (from : nat) :
  endTag <> [] -> from <= length doc ->
  (forall e, In e (endTagOccurrences (S (length doc)) doc endTag from) ->
             from <= e_index e /\
             matches_at (endTagRegExp endTag) doc (e_index e) /\
             e_endIndex e = e_index e + regexp_length (endTagRegExp endTag)) /\
  (forall e1 e2,
      In e1 (endTagOccurrences (S (length doc)) doc endTag from) ->
      In e2 (endTagOccurrences (S (length doc)) doc endTag from) ->
      e_index e1 < e_index e2 -> e_endIndex e1 <= e_index e2) /\
  (forall q, from <= q -> matches_at (endTagRegExp endTag) doc q ->
             exists e,
               In e (endTagOccurrences (S (length doc)) doc endTag from) /\
               e_index e <= q /\ q < e_endIndex e).
Proof.
  intros Hne Hfrom. split; [|split].
  - intros e He.
    apply endTagOccurrences_In in He as (H1 & H2 & H3 & [m H4]); [|exact Hfrom].
    split; [exact H1|]. split; [|exact H2].
    split; [lia | congruence].
  - intros e1 e2. now apply endTagOccurrences_disjoint.
  - intros q Hq Hm. apply endTagOccurrences_cover; try assumption.
    destruct Hm as [Hle _]. lia.
Qed.

Lemma end_iterator_yields_witness :
  endTagOccurrences (S (length (T "a))b)c"))) (T "a))b)c") (T ")") 1
  = [EndOcc 1 2 None; EndOcc 2 3 None; EndOcc 4 5 None] /\
  exists e,
    In e (endTagOccurrences (S (length (T "a))b)c"))) (T "a))b)c") (T ")") 1) /\
    e_index e <= 4 /\ 4 < e_endIndex e.
Proof.
  split; [reflexivity|].
  apply (proj2 (proj2 (end_iterator_yields (T "a))b)c") (T ")") 1
                         ltac:(discriminate) ltac:(simpl; lia)))).
  - lia.
  - split; [simpl; lia | discriminate].
Defined.

(** ** What a positive answer of [textIsMashed] means *)

(** X14: [textIsMashed] gives no false positive.  When it answers true for
    a source text, the document holds, somewhere, the very block [mash]
    writes for that source text: the begin tag, the source text and the end
    tag with the digest of the source text; and the template holds the
    placeholder. *)
Theorem textIsMashed_sound (fuel : nat) (doc beginTag sourceText endTag : text) :
  textIsMashed fuel doc beginTag sourceText endTag = Ret true ->
  hasPlaceholder endTag /\
  exists X Y, doc = X ++ mashBlock beginTag sourceText endTag ++ Y.
Proof.
  intros H. apply textIsMashed_true in H as (info & Hinfo & Hst).
  destruct (getMashInfo_Mashed_match _ _ _ _ _ _ Hinfo Hst)
    as (b & e & _ & Hocc & Hbe & Hle & Hee & Hed & [m Hm] & Hpass).
  unfold passes in Hpass. cbn [fst snd] in Hpass.
  apply andb_true_iff in Hpass as [Ht Hf].
  apply negb_true_iff in Ht, Hf.
  destruct (mashed_pair_text doc beginTag endTag b e m Hocc Hbe Hle Hee Hed
              Hm Hf) as (Hp & _ & _ & _ & Hdoc).
  split; [exact Hp|].
  unfold sourceTextTampered in Ht.
  apply negb_false_iff, text_eqb_eq in Ht. rewrite <- Ht in Hdoc. eauto.
Qed.

Lemma textIsMashed_sound_witness :
  hasPlaceholder (T "(%fingerprint%)") /\
  exists X Y,
    T "ab<b>x(11f6ad8ec52a2984abaafd7c3b516503785c2072)cd"
    = X ++ mashBlock (T "<b>") (T "x") (T "(%fingerprint%)") ++ Y.
Proof.
  apply (textIsMashed_sound 60 _ (T "<b>") (T "x") (T "(%fingerprint%)")).
  vm_compute. reflexivity.
Defined.

(** ** The digest and the pattern *)

(** X15: the digest fits the pattern.  [_fingerprint] always returns
    [FINGERPRINT_VALUE_IN_HEX_LENGTH] characters, all of them digits or
    lower-case letters a to f, so the group of the end-tag pattern matches
    a digest and captures it whole, whatever follows. *)
Theorem fingerprint_fits_pattern (t rest : text) :
  length (_fingerprint t) = FINGERPRINT_VALUE_IN_HEX_LENGTH /\
  forallb isLowerHexDigit (_fingerprint t) = true /\
  match_here [HexGroup FINGERPRINT_VALUE_IN_HEX_LENGTH] (_fingerprint t ++ rest)
  = Some (_fingerprint t, Some (_fingerprint t)).
Proof.
  split; [apply fingerprint_length|]. split; [apply fingerprint_lower|].
  pose proof (match_here_end_tag [] [] (_fingerprint t) rest
                (fingerprint_length t) (fingerprint_hex t)) as H.
  cbn [map app] in H. now rewrite app_nil_r in H.
Qed.

(** ** The assertion of the scan *)

(** X16: the assertion of the scan never fails.  Whatever the inputs and
    whether or not a source text is expected, [_getMashInfo] does not reach
    its [assert(!firstEndTagOccurrence)] with a first end tag recorded and
    no first begin tag, so [textIsMashed] never aborts either. *)
Theorem scan_assertion_holds (fuel : nat) (doc beginTag : text)
    (expected : option text) (sourceText endTag : text) :
  _getMashInfo doc beginTag expected endTag fuel <> AssertFail /\
  textIsMashed fuel doc beginTag sourceText endTag <> AssertFail /\
  forall fb fe fi,
    beginLoop doc beginTag expected endTag fuel 0 None None Unmashed
    = Ret (Exhausted fb fe fi) ->
    fb = None -> fe = None.
Proof.
  split; [apply getMashInfo_no_assert|]. split.
  - unfold textIsMashed.
    destruct (_getMashInfo doc beginTag (Some sourceText) endTag fuel) eqn:H;
      try discriminate.
    now apply getMashInfo_no_assert in H.
  - intros fb fe fi Hloop ->.
    apply beginLoop_inv in Hloop; [|lia].
    destruct Hloop as (Hfb & _ & _ & _ & Hnone).
    symmetry in Hfb. now destruct (Hnone Hfb).
Qed.
